(** * The resource store of fitz (src/fitz/res_store.c)

    A shallow embedding of the reference-counted LRU store: the storable
    protocol, the doubly linked usage list, the hash index of indirect
    keys, capacity-driven eviction and the phased scavenger, followed by
    the properties of the specification that were checked against it.

    Memory is explicit.  A context owns three heaps (items, storables and
    key objects) addressed by integers, and a nullable pointer is an
    [option Z].  Reading or writing through NULL or through a freed
    address is a [Fault].  Every loop takes fuel; running out of it is
    [OutOfFuel] and never stands for a result. *)

From stdpp Require Import gmap list.
From Stdlib Require Import ZArith Lia.

Local Open Scope Z_scope.

(** ** Machine integers *)

(** [unsigned int] is taken to be 32 bits wide; [UINT_MAX] comes from
    <limits.h>. *)
Definition UINT_MAX : Z := 4294967295.

(** Wrap-around of unsigned arithmetic. *)
Definition wrap (x : Z) : Z := x mod (UINT_MAX + 1).

(** [int] is taken to be 32 bits wide as well; [INT_MAX] and [INT_MIN]
    come from <limits.h>. *)
Definition INT_MAX : Z := 2147483647.

Definition INT_MIN : Z := -2147483648.

(** Modelled from the spec: the "unlimited" capacity sentinel.  It is
    declared in fitz.h, which is not part of the sources at hand; fitz.h
    gives it the value 0. *)
Definition FZ_STORE_UNLIMITED : Z := 0.

(** ** Data model *)

(** [fz_storable]: a signed reference count and the destructor (function
    pointer, here its address).  The count is a C [int].  It is modelled
    as an integer without bounds, which is what the C arithmetic gives as
    long as no increment finds the count at [INT_MAX] and no decrement
    finds it at [INT_MIN] (beyond that the behaviour of the C code is
    undefined); statements about the value of a count after an increment
    carry that range as a hypothesis. *)
Record fz_storable := Storable {
  val_refs : Z;
  val_free : Z;
}.

(** Modelled from the spec: the document object used as a key, declared
    outside this file.  It carries its own reference count and is either
    an indirect reference (number, generation) or some other object,
    compared structurally through its content. *)
Inductive obj_kind :=
| Indirect (num gen : Z)
| Opaque (content : Z).

Record fz_obj := Obj {
  obj_refs : Z;
  obj_kind_of : obj_kind;
}.

(** [struct fz_item_s].  The [store] back pointer is never read nor
    written in this file and is left out. *)
Record fz_item := Item {
  item_key : option Z;
  item_val : option Z;
  item_size : Z;
  item_next : option Z;
  item_prev : option Z;
}.

(** [struct refkey]: (free, num, gen). *)
Abbreviation refkey := (Z * Z * Z)%type.

(** [struct fz_store_s].  The hash table is owned by the store and is
    kept inline. *)
Record fz_store := Store {
  store_refs : Z;
  store_head : option Z;
  store_tail : option Z;
  store_hash : gmap refkey Z;
  store_max : Z;
  store_size : Z;
}.

(** The part of [fz_context] and of the memory it reaches that the store
    code touches: [ctx->store], the three heaps, the state of
    FZ_LOCK_ALLOC, and the record of destructor calls (storable, was the
    lock held at the call). *)
Record fz_context := Context {
  store : option fz_store;
  items : gmap Z fz_item;
  storables : gmap Z fz_storable;
  objs : gmap Z fz_obj;
  alloc_lock : bool;
  finalized : list (Z * bool);
}.

(** *** Field updates *)

Definition set_val_refs (r : Z) (s : fz_storable) : fz_storable :=
  Storable r (val_free s).

Definition set_obj_refs (r : Z) (o : fz_obj) : fz_obj :=
  Obj r (obj_kind_of o).

Definition set_item_key (k : option Z) (i : fz_item) : fz_item :=
  Item k (item_val i) (item_size i) (item_next i) (item_prev i).

Definition set_item_val (v : option Z) (i : fz_item) : fz_item :=
  Item (item_key i) v (item_size i) (item_next i) (item_prev i).

Definition set_item_size (n : Z) (i : fz_item) : fz_item :=
  Item (item_key i) (item_val i) n (item_next i) (item_prev i).

Definition set_item_next (n : option Z) (i : fz_item) : fz_item :=
  Item (item_key i) (item_val i) (item_size i) n (item_prev i).

Definition set_item_prev (p : option Z) (i : fz_item) : fz_item :=
  Item (item_key i) (item_val i) (item_size i) (item_next i) p.

Definition set_store_refs (r : Z) (s : fz_store) : fz_store :=
  Store r (store_head s) (store_tail s) (store_hash s) (store_max s) (store_size s).

Definition set_store_head (h : option Z) (s : fz_store) : fz_store :=
  Store (store_refs s) h (store_tail s) (store_hash s) (store_max s) (store_size s).

Definition set_store_tail (t : option Z) (s : fz_store) : fz_store :=
  Store (store_refs s) (store_head s) t (store_hash s) (store_max s) (store_size s).

Definition set_store_hash (h : gmap refkey Z) (s : fz_store) : fz_store :=
  Store (store_refs s) (store_head s) (store_tail s) h (store_max s) (store_size s).

Definition set_store_size (n : Z) (s : fz_store) : fz_store :=
  Store (store_refs s) (store_head s) (store_tail s) (store_hash s) (store_max s) n.

Definition with_store (o : option fz_store) (c : fz_context) : fz_context :=
  Context o (items c) (storables c) (objs c) (alloc_lock c) (finalized c).

Definition with_items (h : gmap Z fz_item) (c : fz_context) : fz_context :=
  Context (store c) h (storables c) (objs c) (alloc_lock c) (finalized c).

Definition with_storables (h : gmap Z fz_storable) (c : fz_context) : fz_context :=
  Context (store c) (items c) h (objs c) (alloc_lock c) (finalized c).

Definition with_objs (h : gmap Z fz_obj) (c : fz_context) : fz_context :=
  Context (store c) (items c) (storables c) h (alloc_lock c) (finalized c).

Definition with_lock (b : bool) (c : fz_context) : fz_context :=
  Context (store c) (items c) (storables c) (objs c) b (finalized c).

Definition with_finalized (l : list (Z * bool)) (c : fz_context) : fz_context :=
  Context (store c) (items c) (storables c) (objs c) (alloc_lock c) l.

(** ** The monad of store operations *)

Inductive outcome (A : Type) :=
| Done (a : A)
| Fault
| OutOfFuel.

Arguments Done {A} a.
Arguments Fault {A}.
Arguments OutOfFuel {A}.

Definition M (A : Type) : Type := fz_context → outcome A * fz_context.

Definition ret {A} (a : A) : M A := λ c, (Done a, c).

Definition bind {A B} (m : M A) (k : A → M B) : M B :=
  λ c, match m c with
       | (Done a, c') => k a c'
       | (Fault, c') => (Fault, c')
       | (OutOfFuel, c') => (OutOfFuel, c')
       end.

Notation "'let!' x ':=' m 'in' k" := (bind m (λ x, k))
  (at level 10, x name, m at level 100, k at level 200,
   format "'[v' 'let!'  x  ':='  m  'in' '/' k ']'").
Notation "m ';;' k" := (bind m (λ _, k))
  (at level 100, k at level 200, right associativity,
   format "'[v' m ';;' '/' k ']'").

Definition fault {A} : M A := λ c, (Fault, c).
Definition out_of_fuel {A} : M A := λ c, (OutOfFuel, c).

(** Dereference of a nullable pointer. *)
Definition deref (p : option Z) : M Z :=
  match p with
  | Some a => ret a
  | None => fault
  end.

(** *** Memory accesses *)

Definition read_store {A} (f : fz_store → A) : M A :=
  λ c, match store c with
       | Some s => (Done (f s), c)
       | None => (Fault, c)
       end.

Definition write_store (upd : fz_store → fz_store) : M unit :=
  λ c, match store c with
       | Some s => (Done tt, with_store (Some (upd s)) c)
       | None => (Fault, c)
       end.

Definition read_item {A} (a : Z) (f : fz_item → A) : M A :=
  λ c, match items c !! a with
       | Some i => (Done (f i), c)
       | None => (Fault, c)
       end.

Definition write_item (a : Z) (upd : fz_item → fz_item) : M unit :=
  λ c, match items c !! a with
       | Some i => (Done tt, with_items (<[a := upd i]> (items c)) c)
       | None => (Fault, c)
       end.

Definition read_val {A} (a : Z) (f : fz_storable → A) : M A :=
  λ c, match storables c !! a with
       | Some s => (Done (f s), c)
       | None => (Fault, c)
       end.

Definition write_val (a : Z) (upd : fz_storable → fz_storable) : M unit :=
  λ c, match storables c !! a with
       | Some s => (Done tt, with_storables (<[a := upd s]> (storables c)) c)
       | None => (Fault, c)
       end.

Definition read_obj {A} (a : Z) (f : fz_obj → A) : M A :=
  λ c, match objs c !! a with
       | Some o => (Done (f o), c)
       | None => (Fault, c)
       end.

(** [item->val->f], through both pointers. *)
Definition read_item_val {A} (a : Z) (f : fz_storable → A) : M A :=
  let! vp := read_item a item_val in
  let! v := deref vp in
  read_val v f.

Definition write_item_val (a : Z) (upd : fz_storable → fz_storable) : M unit :=
  let! vp := read_item a item_val in
  let! v := deref vp in
  write_val v upd.

(** ** Collaborators *)

(** Modelled from the spec: the lock interface ("acquire()/release() over
    a single named resource"); only whether FZ_LOCK_ALLOC is held is
    recorded. *)
Definition fz_lock : M unit := λ c, (Done tt, with_lock true c).

Definition fz_unlock : M unit := λ c, (Done tt, with_lock false c).

(** Modelled from the spec: the allocator.  [fz_malloc_struct] hands out
    a zeroed [fz_item] at the address the allocator chose; [fz_free]
    releases it. *)
Definition fz_malloc_item (a : Z) : M unit :=
  λ c, (Done tt, with_items (<[a := Item None None 0 None None]> (items c)) c).

Definition fz_free_item (a : Z) : M unit :=
  λ c, match items c !! a with
       | Some _ => (Done tt, with_items (delete a (items c)) c)
       | None => (Fault, c)
       end.

(** Modelled from the spec: the hash index ("insert(key, entry),
    find(key) -> entry-or-absent, remove(key)"), keyed on
    (destructor, number, generation). *)
Definition fz_hash_insert (k : refkey) (item : Z) : M unit :=
  let! h := read_store store_hash in
  write_store (set_store_hash (<[k := item]> h)).

Definition fz_hash_find (k : refkey) : M (option Z) :=
  let! h := read_store store_hash in
  ret (h !! k).

Definition fz_hash_remove (k : refkey) : M unit :=
  let! h := read_store store_hash in
  write_store (set_store_hash (delete k h)).

(** Modelled from the spec: the document key operations ("is this key an
    indirect reference", "extract (number, generation)", "structural
    equality", "acquire/release ownership of a key value"). *)
Definition fz_is_indirect (k : Z) : M bool :=
  read_obj k (λ o, match obj_kind_of o with Indirect _ _ => true | Opaque _ => false end).

Definition fz_to_num (k : Z) : M Z :=
  read_obj k (λ o, match obj_kind_of o with Indirect n _ => n | Opaque _ => 0 end).

Definition fz_to_gen (k : Z) : M Z :=
  read_obj k (λ o, match obj_kind_of o with Indirect _ g => g | Opaque _ => 0 end).

Definition obj_kind_eqb (a b : obj_kind) : bool :=
  match a, b with
  | Indirect n g, Indirect n' g' => (n =? n') && (g =? g')
  | Opaque x, Opaque y => x =? y
  | _, _ => false
  end.

(** Returns 0 exactly when the two objects are equal. *)
Definition fz_objcmp (a b : Z) : M Z :=
  let! ka := read_obj a obj_kind_of in
  let! kb := read_obj b obj_kind_of in
  ret (if obj_kind_eqb ka kb then 0 else 1).

Definition fz_keep_obj (k : Z) : M Z :=
  λ c, match objs c !! k with
       | Some o => (Done k, with_objs (<[k := set_obj_refs (obj_refs o + 1) o]> (objs c)) c)
       | None => (Fault, c)
       end.

Definition fz_drop_obj (k : Z) : M unit :=
  λ c, match objs c !! k with
       | Some o =>
           if obj_refs o - 1 =? 0
           then (Done tt, with_objs (delete k (objs c)) c)
           else (Done tt, with_objs (<[k := set_obj_refs (obj_refs o - 1) o]> (objs c)) c)
       | None => (Fault, c)
       end.

(** Modelled from the spec: the destructor capability [s->free(ctx, s)].
    The call is recorded together with the state of the lock, and the
    storable's memory is released. *)
Definition call_free (s : Z) : M unit :=
  λ c, match storables c !! s with
       | Some _ =>
           (Done tt,
            with_finalized (finalized c ++ [(s, alloc_lock c)])
              (with_storables (delete s (storables c)) c))
       | None => (Fault, c)
       end.

(** ** The store *)

(** [s->refs++] and [--s->refs]. *)
Definition incr_refs (s : fz_storable) : fz_storable := set_val_refs (val_refs s + 1) s.

Definition decr_refs (s : fz_storable) : fz_storable := set_val_refs (val_refs s - 1) s.

(** [fz_new_store_context], on the path where both allocations succeed. *)
Definition fz_new_store_context (max : Z) : M unit :=
  λ c, (Done tt, with_store (Some (Store 1 None None ∅ max 0)) c).

Definition fz_keep_storable (s : option Z) : M (option Z) :=
  match s with
  | None => ret None
  | Some a =>
      fz_lock;;
      let! r := read_val a val_refs in
      (if 0 <? r then write_val a incr_refs else ret tt);;
      fz_unlock;;
      ret (Some a)
  end.

Definition fz_drop_storable (s : option Z) : M unit :=
  match s with
  | None => ret tt
  | Some a =>
      fz_lock;;
      let! r := read_val a val_refs in
      let! do_free :=
        (if r <? 0 then ret false
         else
           write_val a decr_refs;;
           let! r' := read_val a val_refs in
           ret (r' =? 0)) in
      fz_unlock;;
      if do_free then call_free a else ret tt
  end.

(** The eight lines "Unlink from the linked list", which [evict],
    [fz_find_item] and [fz_remove_item] repeat verbatim. *)
Definition unlink (item : Z) : M unit :=
  let! nx := read_item item item_next in
  (match nx with
   | Some n =>
       let! p := read_item item item_prev in
       write_item n (set_item_prev p)
   | None =>
       let! p := read_item item item_prev in
       write_store (set_store_tail p)
   end);;
  let! pv := read_item item item_prev in
  match pv with
  | Some p =>
      let! n := read_item item item_next in
      write_item p (set_item_next n)
  | None =>
      let! n := read_item item item_next in
      write_store (set_store_head n)
  end.

(** [drop = (item->val->refs > 0 && --item->val->refs == 0)] *)
Definition drop_item_ref (item : Z) : M bool :=
  let! r := read_item_val item val_refs in
  if 0 <? r then
    write_item_val item decr_refs;;
    let! r' := read_item_val item val_refs in
    ret (r' =? 0)
  else ret false.

(** [item->val->free(ctx, item->val)] *)
Definition free_item_val (item : Z) : M unit :=
  let! vp := read_item item item_val in
  let! v := deref vp in
  call_free v.

(** [fz_drop_obj(item->key)] *)
Definition drop_item_key (item : Z) : M unit :=
  let! kp := read_item item item_key in
  let! k := deref kp in
  fz_drop_obj k.

(** "Remove from the hash table" in [evict]. *)
Definition unindex (item : Z) : M unit :=
  let! kp := read_item item item_key in
  let! k := deref kp in
  let! indirect := fz_is_indirect k in
  if indirect then
    let! fr := read_item_val item val_free in
    let! num := fz_to_num k in
    let! gen := fz_to_gen k in
    fz_hash_remove (fr, num, gen)
  else ret tt.

(** Lines 115-132 of [evict]: what happens to the item once it is out
    of the list. *)
Definition discard (item : Z) : M unit :=
  let! drop := drop_item_ref item in
  fz_unlock;;
  unindex item;;
  (if drop then free_item_val item else ret tt);;
  drop_item_key item;;
  fz_free_item item;;
  fz_lock.

Definition evict (item : Z) : M unit :=
  let! isz := read_item item item_size in
  let! ssz := read_store store_size in
  write_store (set_store_size (wrap (ssz - isz)));;
  unlink item;;
  discard item.

(** Pass 1 of [ensure_space]: the walk from the tail that checks that
    [tofree] can be reached.  The result is the value of [item] when the
    loop is left: NULL when the list was exhausted. *)
Fixpoint ensure_space_check (fuel : nat) (tofree : Z) (item : option Z) (count : Z)
  : M (option Z) :=
  match fuel with
  | O => out_of_fuel
  | S fuel' =>
      match item with
      | None => ret None
      | Some a =>
          let! r := read_item_val a val_refs in
          if r =? 1 then
            let! sz := read_item a item_size in
            let count := wrap (count + sz) in
            if tofree <=? count then ret (Some a)
            else
              let! p := read_item a item_prev in
              ensure_space_check fuel' tofree p count
          else
            let! p := read_item a item_prev in
            ensure_space_check fuel' tofree p count
      end
  end.

(** [if (prev) prev->val->refs++;] *)
Definition pin (prev : option Z) : M unit :=
  match prev with
  | Some p => write_item_val p incr_refs
  | None => ret tt
  end.

(** [--prev->val->refs;], which the source does not guard. *)
Definition unpin (prev : option Z) : M unit :=
  let! p := deref prev in
  write_item_val p decr_refs.

(** Pass 2 of [ensure_space]: "Actually free the items". *)
Fixpoint ensure_space_free (fuel : nat) (tofree : Z) (item : option Z) (count : Z)
  : M Z :=
  match fuel with
  | O => out_of_fuel
  | S fuel' =>
      match item with
      | None => ret count
      | Some a =>
          let! prev := read_item a item_prev in
          let! r := read_item_val a val_refs in
          if r =? 1 then
            let! sz := read_item a item_size in
            let count := wrap (count + sz) in
            pin prev;;
            evict a;;
            unpin prev;;
            if tofree <=? count then ret count
            else ensure_space_free fuel' tofree prev count
          else ensure_space_free fuel' tofree prev count
      end
  end.

(** [ensure_space].  The C function returns the unsigned [count] as an
    [int]; its only caller tests the result against 0, which the
    conversion preserves, so the count itself is returned. *)
Definition ensure_space (fuel : nat) (tofree : Z) : M Z :=
  let! tl := read_store store_tail in
  let! item := ensure_space_check fuel tofree tl 0 in
  match item with
  | None => ret 0
  | Some _ =>
      let! tl := read_store store_tail in
      ensure_space_free fuel tofree tl 0
  end.

(** The loop [while (size > store->max)] of [fz_store_item].  [size] is
    computed once before the loop and is not assigned in its body.  The
    result tells whether the loop was left through its condition ([true])
    or through the [return] that abandons the insert ([false]). *)
Fixpoint make_room (fuel inner : nat) (size : Z) : M bool :=
  match fuel with
  | O => out_of_fuel
  | S fuel' =>
      let! mx := read_store store_max in
      if mx <? size then
        let! freed := ensure_space inner (wrap (size - mx)) in
        if freed =? 0 then ret false
        else make_room fuel' inner size
      else ret true
  end.

(** Lines 233-247 of [fz_store_item]. *)
Definition reserve (fuel : nat) (itemsize : Z) : M bool :=
  let! mx := read_store store_max in
  if negb (mx =? FZ_STORE_UNLIMITED) then
    let! ssz := read_store store_size in
    make_room fuel fuel (wrap (ssz + itemsize))
  else ret true.

(** [refkey] as [fz_store_item], [fz_find_item] and [fz_remove_item] form
    it "before we take the lock"; it is left unset when the key is not
    indirect and is not read in that case. *)
Definition form_refkey (indirect : bool) (read_free : M Z) (key : Z) : M refkey :=
  if indirect then
    let! fr := read_free in
    let! num := fz_to_num key in
    let! gen := fz_to_gen key in
    ret (fr, num, gen)
  else ret (0, 0, 0).

(** Lines 248-253 of [fz_store_item]. *)
Definition fill_item (item key val_ : Z) (itemsize : Z) : M unit :=
  let! ssz := read_store store_size in
  write_store (set_store_size (wrap (ssz + itemsize)));;
  let! k := fz_keep_obj key in
  write_item item (set_item_key (Some k));;
  write_item item (set_item_val (Some val_));;
  write_item item (set_item_size itemsize);;
  write_item item (set_item_next None).

(** Lines 256-272 of [fz_store_item]: the index insert and its [fz_catch].
    The result tells whether the function goes on ([true]) or has
    returned from the handler ([false]). *)
Definition index_item (indirect hash_ok : bool) (rk : refkey) (item : Z) (itemsize : Z)
  : M bool :=
  if indirect then
    fz_unlock;;
    if hash_ok then
      fz_hash_insert rk item;;
      fz_lock;;
      ret true
    else
      fz_free_item item;;
      fz_lock;;
      let! ssz := read_store store_size in
      write_store (set_store_size (wrap (ssz - itemsize)));;
      fz_unlock;;
      ret false
  else ret true.

(** Lines 277-283 of [fz_store_item]. *)
Definition link_head_store (item : Z) : M unit :=
  let! hd := read_store store_head in
  write_item item (set_item_next hd);;
  let! nx := read_item item item_next in
  (match nx with
   | Some n => write_item n (set_item_prev (Some item))
   | None => write_store (set_store_tail (Some item))
   end);;
  write_store (set_store_head (Some item));;
  write_item item (set_item_prev None).

(** [fz_store_item] past its test of [ctx->store].  [alloc] is what
    [fz_malloc_struct] does: [None] when it throws, otherwise the address
    of the new item; [hash_ok] tells whether [fz_hash_insert] succeeds or
    throws.  [key] and [val_] are non-null pointers. *)
Definition fz_store_item_body (fuel : nat) (alloc : option Z) (hash_ok : bool)
    (key val_ : Z) (itemsize : Z) : M unit :=
  let! indirect := fz_is_indirect key in
  let! rk := form_refkey indirect (read_val val_ val_free) key in
  match alloc with
  | None => ret tt
  | Some item =>
      fz_malloc_item item;;
      fz_lock;;
      let! room := reserve fuel itemsize in
      if negb room then
        fz_unlock;;
        fz_free_item item
      else
        fill_item item key val_ itemsize;;
        let! indexed := index_item indirect hash_ok rk item itemsize in
        if negb indexed then ret tt
        else
          let! r := read_val val_ val_refs in
          (if 0 <? r then write_val val_ incr_refs else ret tt);;
          link_head_store item;;
          fz_unlock
  end.

Definition fz_store_item (fuel : nat) (alloc : option Z) (hash_ok : bool)
    (key val_ : Z) (itemsize : Z) : M unit :=
  λ c,
    match store c with
    | None => (Done tt, c)
    | Some _ => fz_store_item_body fuel alloc hash_ok key val_ itemsize c
    end.

(** [fz_store_item] past its test of [ctx->store], when nothing throws,
    with what another thread does while this one has released the lock
    for the index insert: [other] runs between [fz_hash_insert] at line
    261 and [fz_lock] at line 271.  With [ret tt] for [other] this is
    [fz_store_item_body]. *)
Definition fz_store_item_window (other : M unit) (fuel : nat) (item : Z)
    (key val_ : Z) (itemsize : Z) : M unit :=
  let! indirect := fz_is_indirect key in
  let! rk := form_refkey indirect (read_val val_ val_free) key in
  fz_malloc_item item;;
  fz_lock;;
  let! room := reserve fuel itemsize in
  if negb room then
    fz_unlock;;
    fz_free_item item
  else
    fill_item item key val_ itemsize;;
    (if indirect then
       fz_unlock;;
       fz_hash_insert rk item;;
       other;;
       fz_lock
     else ret tt);;
    let! r := read_val val_ val_refs in
    (if 0 <? r then write_val val_ incr_refs else ret tt);;
    link_head_store item;;
    fz_unlock.

(** [evict] with what another thread does while this one has released
    the lock: [other] runs between [fz_unlock] at line 117 and the
    removal from the hash table at lines 119-126.  With [ret tt] for
    [other] this is [evict]. *)
Definition evict_window (other : M unit) (item : Z) : M unit :=
  let! isz := read_item item item_size in
  let! ssz := read_store store_size in
  write_store (set_store_size (wrap (ssz - isz)));;
  unlink item;;
  let! drop := drop_item_ref item in
  fz_unlock;;
  other;;
  unindex item;;
  (if drop then free_item_val item else ret tt);;
  drop_item_key item;;
  fz_free_item item;;
  fz_lock.

(** The linear search of [fz_find_item] and [fz_remove_item] for keys
    that are not indirect. *)
Fixpoint scan (fuel : nat) (free : Z) (key : Z) (item : option Z) : M (option Z) :=
  match fuel with
  | O => out_of_fuel
  | S fuel' =>
      match item with
      | None => ret None
      | Some a =>
          let! fr := read_item_val a val_free in
          let! hit :=
            (if fr =? free then
               let! kp := read_item a item_key in
               let! k := deref kp in
               let! cmp := fz_objcmp k key in
               ret (cmp =? 0)
             else ret false) in
          if hit then ret (Some a)
          else
            let! nx := read_item a item_next in
            scan fuel' free key nx
      end
  end.

(** Lines 338-344 of [fz_find_item]. *)
Definition link_head_find (item : Z) : M unit :=
  let! hd := read_store store_head in
  write_item item (set_item_next hd);;
  let! nx := read_item item item_next in
  (match nx with
   | Some n => write_item n (set_item_prev (Some item))
   | None => write_store (set_store_tail (Some item))
   end);;
  write_item item (set_item_prev None);;
  write_store (set_store_head (Some item)).

(** Lines 345-349 of [fz_find_item]: "bump the refcount before
    returning". *)
Definition take_ref (item : Z) : M (option Z) :=
  let! r := read_item_val item val_refs in
  (if 0 <? r then write_item_val item incr_refs else ret tt);;
  fz_unlock;;
  read_item item item_val.

(** The lookup of [fz_find_item]. *)
Definition lookup_item (fuel : nat) (indirect : bool) (rk : refkey) (free key : Z)
  : M (option Z) :=
  if indirect then fz_hash_find rk
  else
    let! hd := read_store store_head in
    scan fuel free key hd.

(** [fz_find_item] past its tests of [ctx->store] and [key]. *)
Definition fz_find_item_body (fuel : nat) (free : Z) (key : Z) : M (option Z) :=
  let! indirect := fz_is_indirect key in
  let! rk := form_refkey indirect (ret free) key in
  fz_lock;;
  let! found := lookup_item fuel indirect rk free key in
  match found with
  | Some item =>
      unlink item;;
      link_head_find item;;
      take_ref item
  | None =>
      fz_unlock;;
      ret None
  end.

(** [fz_find_item]; the result is [item->val] or NULL. *)
Definition fz_find_item (fuel : nat) (free : Z) (key : option Z) : M (option Z) :=
  λ c,
    match store c, key with
    | None, _ => (Done None, c)
    | Some _, None => (Done None, c)
    | Some _, Some key => fz_find_item_body fuel free key c
    end.

(** The lookup of [fz_remove_item], which also takes an indirect key out
    of the hash table. *)
Definition lookup_remove (fuel : nat) (indirect : bool) (rk : refkey) (free key : Z)
  : M (option Z) :=
  if indirect then
    let! item := fz_hash_find rk in
    (match item with
     | Some _ => fz_hash_remove rk
     | None => ret tt
     end);;
    ret item
  else
    let! hd := read_store store_head in
    scan fuel free key hd.

(** Lines 398-403 of [fz_remove_item]. *)
Definition release (item : Z) : M unit :=
  let! drop := drop_item_ref item in
  fz_unlock;;
  (if drop then free_item_val item else ret tt);;
  drop_item_key item;;
  fz_free_item item.

(** [fz_remove_item]; [key] is a non-null pointer. *)
Definition fz_remove_item (fuel : nat) (free : Z) (key : Z) : M unit :=
  let! indirect := fz_is_indirect key in
  let! rk := form_refkey indirect (ret free) key in
  fz_lock;;
  let! found := lookup_remove fuel indirect rk free key in
  match found with
  | Some item =>
      unlink item;;
      release item
  | None => fz_unlock
  end.

(** The loop of [fz_empty_store]. *)
Fixpoint empty_loop (fuel : nat) : M unit :=
  match fuel with
  | O => out_of_fuel
  | S fuel' =>
      let! hd := read_store store_head in
      match hd with
      | Some item =>
          evict item;;
          empty_loop fuel'
      | None => ret tt
      end
  end.

Definition fz_empty_store (fuel : nat) : M unit :=
  λ c,
    match store c with
    | None => (Done tt, c)
    | Some _ =>
        (fz_lock;;
         empty_loop fuel;;
         fz_unlock) c
    end.

(** The loop of [scavenge]; the result is [count] when the loop ends. *)
Fixpoint scavenge_loop (fuel : nat) (tofree : Z) (item : option Z) (count : Z) : M Z :=
  match fuel with
  | O => out_of_fuel
  | S fuel' =>
      match item with
      | None => ret count
      | Some a =>
          let! prev := read_item a item_prev in
          let! r := read_item_val a val_refs in
          if r =? 1 then
            let! sz := read_item a item_size in
            let count := wrap (count + sz) in
            evict a;;
            if tofree <=? count then ret count
            else
              let! tl := read_store store_tail in
              scavenge_loop fuel' tofree tl count
          else scavenge_loop fuel' tofree prev count
      end
  end.

(** [scavenge]: "Success is managing to evict any blocks". *)
Definition scavenge (fuel : nat) (tofree : Z) : M bool :=
  let! tl := read_store store_tail in
  let! count := scavenge_loop fuel tofree tl 0 in
  ret (negb (count =? 0)).

(** "Calculate 'max' as the maximum size of the store for this phase".
    [phase] is an [int]; in the products and the quotient it is converted
    to [unsigned int]. *)
Definition phase_max (phase : Z) (smax ssize : Z) : Z :=
  if 16 <=? phase then 0
  else if negb (smax =? FZ_STORE_UNLIMITED)
  then wrap (smax / 16 * wrap (16 - phase))
  else wrap (ssize / wrap (16 - phase) * wrap (15 - phase)).

(** "Slightly baroque calculations to avoid overflow".  [None] is the
    [continue]: the phase ends without a call of [scavenge]. *)
Definition phase_tofree (size ssize max : Z) : option Z :=
  if UINT_MAX - ssize <? size then Some (wrap (UINT_MAX - max))
  else if max <? wrap (size + ssize) then None
  else Some (wrap (size + ssize - max)).

(** The [do ... while (max > 0)] loop of [fz_store_scavenge], threading
    [*phase].  The result is the returned flag and the final [*phase]. *)
Fixpoint scavenge_phases (fuel inner : nat) (size : Z) (phase : Z) : M (bool * Z) :=
  match fuel with
  | O => out_of_fuel
  | S fuel' =>
      let! smax := read_store store_max in
      let! ssize := read_store store_size in
      let max := phase_max phase smax ssize in
      let phase := phase + 1 in
      let! ssize := read_store store_size in
      match phase_tofree size ssize max with
      | None =>
          if 0 <? max then scavenge_phases fuel' inner size phase
          else ret (false, phase)
      | Some tofree =>
          let! freed := scavenge inner tofree in
          if freed then ret (true, phase)
          else if 0 <? max then scavenge_phases fuel' inner size phase
          else ret (false, phase)
      end
  end.

Definition fz_store_scavenge (fuel : nat) (size : Z) (phase : Z) : M (bool * Z) :=
  λ c,
    match store c with
    | None => (Done (false, phase), c)
    | Some _ => scavenge_phases fuel fuel size phase c
    end.

(** [fz_store_keep].  The store is held inline in the context, so the
    result only tells whether [ctx->store] ([true]) or NULL ([false]) is
    returned. *)
Definition fz_store_keep : M bool :=
  λ c,
    match store c with
    | None => (Done false, c)
    | Some _ =>
        (fz_lock;;
         write_store (λ s, set_store_refs (store_refs s + 1) s);;
         fz_unlock;;
         ret true) c
    end.

(** [fz_free_store_context].  [fz_free_hash] and [fz_free] release the
    table and the store, which the context holds inline: once
    [ctx->store->hash] has been read, [ctx->store = NULL] leaves nothing
    of them. *)
Definition fz_free_store_context (fuel : nat) : M unit :=
  λ c,
    match store c with
    | None => (Done tt, c)
    | Some _ =>
        (fz_lock;;
         write_store (λ s, set_store_refs (store_refs s - 1) s);;
         let! refs := read_store store_refs in
         fz_unlock;;
         if negb (refs =? 0) then ret tt
         else
           fz_empty_store fuel;;
           read_store store_hash;;
           λ c', (Done tt, with_store None c')) c
    end.

(** The loop of [fz_debug_store].  What [printf] writes is not part of
    the model; the reads that its arguments make are.  [debug_obj] stands
    for [fz_debug_obj], which is declared outside this file. *)
Fixpoint debug_loop (debug_obj : Z → M unit) (fuel : nat) (item : option Z) : M unit :=
  match fuel with
  | O => out_of_fuel
  | S fuel' =>
      match item with
      | None => ret tt
      | Some a =>
          let! next := read_item a item_next in
          let! n := deref next in
          write_item_val n incr_refs;;
          read_item_val a val_refs;;
          read_item a item_size;;
          fz_unlock;;
          let! kp := read_item a item_key in
          let! k := deref kp in
          let! indirect := fz_is_indirect k in
          (if indirect then
             fz_to_num k;;
             fz_to_gen k;;
             ret tt
           else debug_obj k);;
          read_item a item_val;;
          fz_lock;;
          let! n := deref next in
          write_item_val n decr_refs;;
          debug_loop debug_obj fuel' next
      end
  end.

Definition fz_debug_store (debug_obj : Z → M unit) (fuel : nat) : M unit :=
  fz_lock;;
  let! hd := read_store store_head in
  debug_loop debug_obj fuel hd;;
  fz_unlock.

(** * Notions used in the statements *)

(** What a list operation leaves alone. *)
Definition item_core (i : fz_item) : option Z * option Z * Z :=
  (item_key i, item_val i, item_size i).

Definition store_rest (s : fz_store) : Z * gmap (Z * Z * Z) Z * Z * Z :=
  (store_refs s, store_hash s, store_max s, store_size s).

Definition relinked (c c' : fz_context) : Prop :=
  storables c' = storables c ∧ objs c' = objs c ∧
  alloc_lock c' = alloc_lock c ∧ finalized c' = finalized c ∧
  store_rest <$> store c' = store_rest <$> store c ∧
  ∀ b, item_core <$> items c' !! b = item_core <$> items c !! b.

Inductive rc_op := RcKeep | RcDrop.

Definition rc_apply (a : Z) (op : rc_op) : M unit :=
  match op with
  | RcKeep => fz_keep_storable (Some a);; ret tt
  | RcDrop => fz_drop_storable (Some a)
  end.

Fixpoint rc_run (a : Z) (ops : list rc_op) : M unit :=
  match ops with
  | [] => ret tt
  | op :: rest => rc_apply a op;; rc_run a rest
  end.

Fixpoint reaches_zero (r : Z) (ops : list rc_op) : bool :=
  match ops with
  | [] => false
  | RcKeep :: rest => reaches_zero (if 0 <? r then r + 1 else r) rest
  | RcDrop :: rest =>
      if r <? 0 then reaches_zero r rest
      else if r =? 1 then true
      else reaches_zero (r - 1) rest
  end.

(** No keep of the run finds the count at [INT_MAX]: every count the
    run goes through is one that the [int] of the C code holds. *)
Fixpoint rc_in_range (r : Z) (ops : list rc_op) : bool :=
  match ops with
  | [] => true
  | RcKeep :: rest =>
      if 0 <? r then (r <? INT_MAX) && rc_in_range (r + 1) rest
      else rc_in_range r rest
  | RcDrop :: rest =>
      if r <? 0 then rc_in_range r rest
      else if r =? 1 then true
      else rc_in_range (r - 1) rest
  end.

Definition keep_result (a : Z) (s : fz_storable) (c : fz_context) : fz_context :=
  with_lock false
    (if 0 <? val_refs s
     then with_storables (<[a := incr_refs s]> (storables c)) (with_lock true c)
     else with_lock true c).

Definition drop_result (a : Z) (s : fz_storable) (c : fz_context) : fz_context :=
  if val_refs s <? 0 then with_lock false c
  else if val_refs s - 1 =? 0
  then with_finalized (finalized c ++ [(a, false)])
         (with_storables (delete a (<[a := decr_refs s]> (storables c))) (with_lock false c))
  else with_storables (<[a := decr_refs s]> (storables c)) (with_lock false c).

Definition first_or (l : list Z) (n : option Z) : option Z :=
  match l with
  | [] => n
  | b :: _ => Some b
  end.

Definition last_or (l : list Z) (p : option Z) : option Z :=
  match last l with
  | Some b => Some b
  | None => p
  end.

Fixpoint seg (h : gmap Z fz_item) (p : option Z) (l : list Z) (n : option Z) : Prop :=
  match l with
  | [] => True
  | a :: l' =>
      ∃ it, h !! a = Some it ∧ item_prev it = p ∧ item_next it = first_or l' n ∧
            seg h (Some a) l' n
  end.

Definition lru (c : fz_context) (l : list Z) : Prop :=
  ∃ st, store c = Some st ∧ store_head st = head l ∧ store_tail st = last l ∧
        NoDup l ∧ seg (items c) None l None.

(** Invariants that hold in whatever state an operation ends, also when
    it faults. *)
Definition inv_pres {A} (I : fz_context → Prop) (m : M A) : Prop :=
  ∀ c, I c → I (m c).2.

Definition wp {A} (m : M A) (Q : A → fz_context → Prop) (E : fz_context → Prop)
    (c : fz_context) : Prop :=
  match m c with
  | (Done a, c') => Q a c'
  | (_, c') => E c'
  end.





(** Every linked entry points to an allocated storable and to an
    allocated key. *)
Definition sound (c : fz_context) (l : list Z) : Prop :=
  ∀ a, a ∈ l →
    ∃ it v s k o, items c !! a = Some it ∧
                  item_val it = Some v ∧ storables c !! v = Some s ∧
                  item_key it = Some k ∧ objs c !! k = Some o.

(** Entries that can be reached from [store->head] through [next]. *)
Inductive reachable (c : fz_context) : Z → Prop :=
| reach_head st a :
    store c = Some st → store_head st = Some a → reachable c a
| reach_next a it b :
    reachable c a → items c !! a = Some it → item_next it = Some b → reachable c b.

(** The hash table only indexes linked entries. *)
Definition indexed (c : fz_context) (l : list Z) : Prop :=
  ∀ st k a, store c = Some st → store_hash st !! k = Some a → a ∈ l.

(** [l'] is [l] with one entry moved to the front. *)
Definition moved_to_front (l l' : list Z) : Prop :=
  ∃ l1 a l2, l = l1 ++ a :: l2 ∧ l' = a :: l1 ++ l2.

(** [l'] is what is left of [l] after some evictions. *)
Definition shrunk (l : list Z) (c' : fz_context) : Prop :=
  ∃ l', l' `sublist_of` l ∧ lru c' l'.

(** After an insertion, whatever its outcome, the list is what is left of
    the old one after the evictions, with or without the new item in
    front. *)
Definition inserted (l : list Z) (item : Z) (c' : fz_context) : Prop :=
  ∃ l', l' `sublist_of` l ∧ (lru c' l' ∨ lru c' (item :: l')).

(** After a lookup the list is the old one, or the old one with the entry
    that was found moved to the front. *)
Definition touched (l : list Z) (c' : fz_context) : Prop :=
  lru c' l ∨ ∃ l', lru c' l' ∧ moved_to_front l l'.

(** After a removal the list is the old one, or the old one without the
    entry that was found. *)
Definition removed (l : list Z) (c' : fz_context) : Prop :=
  lru c' l ∨ ∃ l1 a l2, l = l1 ++ a :: l2 ∧ lru c' (l1 ++ l2) ∧ ¬ reachable c' a.

(** There is room for [itemsize] more bytes without any eviction. *)
Definition has_room (st : fz_store) (itemsize : Z) : Prop :=
  store_max st = FZ_STORE_UNLIMITED ∨ wrap (store_size st + itemsize) ≤ store_max st.

Definition is_indirect (o : fz_obj) : bool :=
  match obj_kind_of o with
  | Indirect _ _ => true
  | Opaque _ => false
  end.

(** The request exceeds what every phase allows. *)
Definition over_ceiling (st : fz_store) (size : Z) : Prop :=
  if store_max st =? FZ_STORE_UNLIMITED then 0 < size
  else store_max st < size + store_size st.

(** Three storables with one reference each (their callers') and the same
    destructor, and three keys that are not indirect references. *)
Definition plain_heap : fz_context :=
  Context None ∅
    {[1 := Storable 1 11; 2 := Storable 1 11; 3 := Storable 1 11]}
    {[10 := Obj 1 (Opaque 5); 20 := Obj 1 (Opaque 6); 30 := Obj 1 (Opaque 7)]}
    false [].

(** Two storables with the destructors [T] and [U], one reference each,
    and the indirect reference (7, 0). *)
Definition products_heap (T U : Z) : fz_context :=
  Context None ∅
    {[1 := Storable 1 T; 2 := Storable 1 U]}
    {[70 := Obj 1 (Indirect 7 0)]}
    false [].

(** A store bounded at 100 bytes that holds the 60-byte entry X (item 100,
    key 10, storable 1), after the caller of X has dropped its reference. *)
Definition capacity_scenario : fz_context :=
  ((fz_new_store_context 100;;
    fz_store_item 4 (Some 100) true 10 1 60;;
    fz_drop_storable (Some 1)) plain_heap).2.

(** The same with a second, 10-byte entry Z (item 102, key 30,
    storable 3) in front of X, whose caller keeps its reference. *)
Definition pinned_scenario : fz_context :=
  (fz_store_item 4 (Some 102) true 30 3 10 capacity_scenario).2.

(** A store bounded at 160 bytes that holds one evictable 100-byte
    entry. *)
Definition pressure_scenario : fz_context :=
  ((fz_new_store_context 160;;
    fz_store_item 4 (Some 100) true 10 1 100;;
    fz_drop_storable (Some 1)) plain_heap).2.

(** An unbounded, empty store over [products_heap]. *)
Definition products_scenario (T U : Z) : fz_context :=
  (fz_new_store_context FZ_STORE_UNLIMITED (products_heap T U)).2.

(** The same with the destructors 501 and 502. *)
Definition unbounded_scenario : fz_context := products_scenario 501 502.

(** The unbounded store with the 100-byte value 1 stored under (7, 0). *)
Definition stored_scenario : fz_context :=
  (fz_store_item 4 (Some 100) true 70 1 100 unbounded_scenario).2.

(** The states that the scenario of [products_scenario] goes through,
    once both values are stored. *)
Definition products_state (T U : Z) (hd tl : option Z) (hash : gmap refkey Z)
    (its : gmap Z fz_item) (r1 r2 k : Z) : fz_context :=
  Context (Some (Store 1 hd tl hash FZ_STORE_UNLIMITED 150)) its
    {[1 := Storable r1 T; 2 := Storable r2 U]}
    {[70 := Obj k (Indirect 7 0)]}
    false [].

(** The store of [stored_scenario] once the caller of value 1 has
    dropped its reference, at the point where [evict] is called: with the
    lock held. *)
Definition evictable_scenario : fz_context :=
  ((fz_drop_storable (Some 1);; fz_lock) stored_scenario).2.

(** The count of the storable of entry [a], through [a->val]. *)
Definition entry_refs (c : fz_context) (a : Z) : option Z :=
  match items c !! a with
  | Some it =>
      match item_val it with
      | Some v => val_refs <$> storables c !! v
      | None => None
      end
  | None => None
  end.

(** [a->size]. *)
Definition entry_size (c : fz_context) (a : Z) : Z :=
  match items c !! a with
  | Some it => item_size it
  | None => 0
  end.

(** The bytes held by the entries of [l] that only the store references. *)
Definition evictable_bytes (c : fz_context) (l : list Z) : Z :=
  foldr (λ a n, (if bool_decide (entry_refs c a = Some 1) then entry_size c a else 0) + n)
    0 l.

(** Sizes are [unsigned int]s. *)
Definition sized (c : fz_context) (l : list Z) : Prop :=
  ∀ a, a ∈ l → 0 ≤ entry_size c a ≤ UINT_MAX.

(** What the linear search compares: the destructor of the value and
    the key, structurally. *)
Definition matches (c : fz_context) (free key a : Z) : bool :=
  match items c !! a with
  | Some it =>
      match item_val it, item_key it with
      | Some v, Some k =>
          match storables c !! v, objs c !! k, objs c !! key with
          | Some s, Some o, Some ok =>
              (val_free s =? free) && obj_kind_eqb (obj_kind_of o) (obj_kind_of ok)
          | _, _, _ => false
          end
      | _, _ => false
      end
  | None => false
  end.

(** The entry that a lookup of ([free], [key]) is after: the one the
    hash table gives for an indirect key, the first match of the list
    otherwise. *)
Definition wanted (c : fz_context) (l : list Z) (free key : Z) : option Z :=
  match objs c !! key, store c with
  | Some o, Some st =>
      match obj_kind_of o with
      | Indirect num gen => store_hash st !! (free, num, gen)
      | Opaque _ => find (matches c free key) l
      end
  | _, _ => None
  end.

(** The key under which an entry is indexed. *)
Definition refkey_of (free : Z) (o : fz_obj) : option refkey :=
  match obj_kind_of o with
  | Indirect num gen => Some (free, num, gen)
  | Opaque _ => None
  end.

(** The hash table after the entry [item] has been indexed. *)
Definition index_with (rk : option refkey) (item : Z) (h : gmap refkey Z) : gmap refkey Z :=
  match rk with
  | Some k => <[k := item]> h
  | None => h
  end.

(** The storables after the store has taken its reference to [v]. *)
Definition referenced (v : Z) (s : fz_storable) (h : gmap Z fz_storable)
  : gmap Z fz_storable :=
  if 0 <? val_refs s then <[v := incr_refs s]> h else h.

(** The storables after the store has given up its reference to [v]:
    a count that is not positive is left alone, the last reference frees
    the storable. *)
Definition released (v : Z) (s : fz_storable) (h : gmap Z fz_storable)
  : gmap Z fz_storable :=
  if 0 <? val_refs s then
    if val_refs s - 1 =? 0 then delete v h else <[v := decr_refs s]> h
  else h.

(** The destructor calls that this makes. *)
Definition finalizing (v : Z) (s : fz_storable) : list (Z * bool) :=
  if (0 <? val_refs s) && (val_refs s - 1 =? 0) then [(v, false)] else [].

(** The key objects after [fz_drop_obj k]. *)
Definition dropped (k : Z) (o : fz_obj) (h : gmap Z fz_obj) : gmap Z fz_obj :=
  if obj_refs o - 1 =? 0 then delete k h else <[k := set_obj_refs (obj_refs o - 1) o]> h.

(** The hash table after the entry under [rk] has been taken out. *)
Definition index_without (rk : option refkey) (h : gmap refkey Z) : gmap refkey Z :=
  match rk with
  | Some k => delete k h
  | None => h
  end.

(** The context once [fz_remove_item] has taken the key out of the hash
    table, which it does for an indirect key only. *)
Definition unindexed (rk : option refkey) (st : fz_store) (c : fz_context) : fz_context :=
  match rk with
  | Some k => with_store (Some (set_store_hash (delete k (store_hash st)) st)) c
  | None => c
  end.

(** No two entries of the list hold the same storable. *)
Definition own_values (c : fz_context) (l : list Z) : Prop :=
  ∀ a b ia ib v, a ∈ l → b ∈ l → items c !! a = Some ia → items c !! b = Some ib →
    item_val ia = Some v → item_val ib = Some v → a = b.

(** No two entries of the list hold the same key object. *)
Definition own_keys (c : fz_context) (l : list Z) : Prop :=
  ∀ a b ia ib k, a ∈ l → b ∈ l → items c !! a = Some ia → items c !! b = Some ib →
    item_key ia = Some k → item_key ib = Some k → a = b.

(** The bytes held by the entries of [l]. *)
Definition total_bytes (c : fz_context) (l : list Z) : Z :=
  foldr (λ a n, entry_size c a + n) 0 l.

(** The storable [w] is not the value of an entry of [l]. *)
Definition not_stored (c : fz_context) (l : list Z) (w : Z) : Prop :=
  ∀ a it, a ∈ l → items c !! a = Some it → item_val it ≠ Some w.

(** A store bounded at 100 bytes that holds the 60-byte entry X while
    the caller of X keeps its reference. *)
Definition held_scenario : fz_context :=
  ((fz_new_store_context 100;;
    fz_store_item 4 (Some 100) true 10 1 60) plain_heap).2.

(** * Properties *)

(** ** Arithmetic of the scavenger *)

Lemma wrap_small x : 0 ≤ x ≤ UINT_MAX → wrap x = x.
Proof. intros H. unfold wrap. apply Z.mod_small. unfold UINT_MAX in *. lia. Qed.

Lemma div_mul_le a b c : 0 ≤ a → 0 < b → 0 ≤ c ≤ b → 0 ≤ a / b * c ≤ a.
Proof.
  intros Ha Hb Hc.
  assert (0 ≤ a / b) by (apply Z.div_pos; lia).
  assert (b * (a / b) ≤ a) by (apply Z.mul_div_le; lia).
  split; [lia|]. nia.
Qed.

Theorem phase_max_exact p smax ssize :
  0 ≤ p ≤ 16 → 0 ≤ smax ≤ UINT_MAX → 0 ≤ ssize ≤ UINT_MAX →
  phase_max p smax ssize =
    if p =? 16 then 0
    else if smax =? FZ_STORE_UNLIMITED then ssize / (16 - p) * (15 - p)
    else smax / 16 * (16 - p).
Proof.
  intros Hp Hm Hs. unfold phase_max.
  destruct (Z.leb_spec 16 p) as [H16|H16].
  - replace p with 16 by lia. reflexivity.
  - destruct (Z.eqb_spec p 16) as [->|_]; [lia|].
    rewrite (wrap_small (16 - p)) by (unfold UINT_MAX; lia).
    rewrite (wrap_small (15 - p)) by (unfold UINT_MAX; lia).
    destruct (smax =? FZ_STORE_UNLIMITED); simpl.
    + apply wrap_small. pose proof (div_mul_le ssize (16 - p) (15 - p)). lia.
    + apply wrap_small. pose proof (div_mul_le smax 16 (16 - p)). lia.
Qed.

Lemma phase_max_not_product :
  phase_max 0 100 0 = 96 ∧ 100 * (16 - 0) / 16 = 100 ∧
  phase_max 0 FZ_STORE_UNLIMITED 100 = 90 ∧ 100 * (15 - 0) / (16 - 0) = 93.
Proof. repeat split; reflexivity. Qed.

Theorem phase_tofree_cases size ssize max :
  0 ≤ size ≤ UINT_MAX → 0 ≤ ssize ≤ UINT_MAX → 0 ≤ max ≤ UINT_MAX →
  phase_tofree size ssize max =
    if UINT_MAX <? size + ssize then Some (UINT_MAX - max)
    else if max <? size + ssize then None
    else Some ((size + ssize - max) mod (UINT_MAX + 1)).
Proof.
  intros H1 H2 H3. unfold phase_tofree.
  destruct (Z.ltb_spec (UINT_MAX - ssize) size), (Z.ltb_spec UINT_MAX (size + ssize)); try lia.
  - rewrite wrap_small by lia. reflexivity.
  - rewrite (wrap_small (size + ssize)) by lia. reflexivity.
Qed.

(** ** Running operations on known states *)

Section Exec.
Context {A B : Type}.

Lemma bind_eq (m : M A) (k : A → M B) c a c1 r :
  m c = (Done a, c1) → k a c1 = r → bind m k c = r.
Proof. intros H1 H2. unfold bind. by rewrite H1. Qed.

Lemma read_store_eq (f : fz_store → A) c st :
  store c = Some st → read_store f c = (Done (f st), c).
Proof. intros H. unfold read_store. by rewrite H. Qed.

Lemma read_item_eq a (f : fz_item → A) c it :
  items c !! a = Some it → read_item a f c = (Done (f it), c).
Proof. intros H. unfold read_item. by rewrite H. Qed.

Lemma read_val_eq a (f : fz_storable → A) c s :
  storables c !! a = Some s → read_val a f c = (Done (f s), c).
Proof. intros H. unfold read_val. by rewrite H. Qed.

Lemma read_obj_eq a (f : fz_obj → A) c o :
  objs c !! a = Some o → read_obj a f c = (Done (f o), c).
Proof. intros H. unfold read_obj. by rewrite H. Qed.
End Exec.

Lemma write_store_eq upd c st :
  store c = Some st → write_store upd c = (Done tt, with_store (Some (upd st)) c).
Proof. intros H. unfold write_store. by rewrite H. Qed.

Lemma write_item_eq a upd c it :
  items c !! a = Some it →
  write_item a upd c = (Done tt, with_items (<[a := upd it]> (items c)) c).
Proof. intros H. unfold write_item. by rewrite H. Qed.

Lemma write_val_eq a upd c s :
  storables c !! a = Some s →
  write_val a upd c = (Done tt, with_storables (<[a := upd s]> (storables c)) c).
Proof. intros H. unfold write_val. by rewrite H. Qed.

Lemma fz_free_item_eq a c it :
  items c !! a = Some it →
  fz_free_item a c = (Done tt, with_items (delete a (items c)) c).
Proof. intros H. unfold fz_free_item. by rewrite H. Qed.

Lemma call_free_eq v c s :
  storables c !! v = Some s →
  call_free v c =
    (Done tt, with_finalized (finalized c ++ [(v, alloc_lock c)])
                (with_storables (delete v (storables c)) c)).
Proof. intros H. unfold call_free. by rewrite H. Qed.

Lemma fz_keep_obj_eq k c o :
  objs c !! k = Some o →
  fz_keep_obj k c =
    (Done k, with_objs (<[k := set_obj_refs (obj_refs o + 1) o]> (objs c)) c).
Proof. intros H. unfold fz_keep_obj. by rewrite H. Qed.

Lemma fz_drop_obj_eq k c o :
  objs c !! k = Some o →
  fz_drop_obj k c =
    (Done tt,
     with_objs (if obj_refs o - 1 =? 0 then delete k (objs c)
                else <[k := set_obj_refs (obj_refs o - 1) o]> (objs c)) c).
Proof. intros H. unfold fz_drop_obj. rewrite H. by destruct (_ =? _). Qed.

Ltac lookup_tac :=
  simpl;
  repeat first
    [ rewrite lookup_insert_eq
    | rewrite lookup_insert_ne by (done || congruence)
    | rewrite lookup_delete_ne by (done || congruence) ];
  first [ eassumption | reflexivity ].

(** Runs an operation on a state for which the hypotheses say what every
    lookup yields; leaves an equation [m c = (Done a, c')] solved by
    instantiating [a] and [c']. *)
Ltac exec :=
  cbn beta iota delta
    [item_key item_val item_size item_next item_prev
     set_item_key set_item_val set_item_size set_item_next set_item_prev
     val_refs val_free obj_refs obj_kind_of incr_refs decr_refs set_val_refs];
  lazymatch goal with
  | |- ?x = ?y => first [ constr_eq x y; reflexivity | eassumption | exec_step ]
  end
with exec_step :=
  lazymatch goal with
  | |- bind _ _ _ = _ => eapply bind_eq; [exec | exec]
  | |- read_store _ _ = _ => eapply read_store_eq; lookup_tac
  | |- write_store _ _ = _ => eapply write_store_eq; lookup_tac
  | |- read_item _ _ _ = _ => eapply read_item_eq; lookup_tac
  | |- write_item _ _ _ = _ => eapply write_item_eq; lookup_tac
  | |- read_val _ _ _ = _ => eapply read_val_eq; lookup_tac
  | |- write_val _ _ _ = _ => eapply write_val_eq; lookup_tac
  | |- read_obj _ _ _ = _ => eapply read_obj_eq; lookup_tac
  | |- fz_free_item _ _ = _ => eapply fz_free_item_eq; lookup_tac
  | |- call_free _ _ = _ => eapply call_free_eq; lookup_tac
  | |- fz_keep_obj _ _ = _ => eapply fz_keep_obj_eq; lookup_tac
  | |- fz_drop_obj _ _ = _ => eapply fz_drop_obj_eq; lookup_tac
  | |- read_item_val _ _ _ = _ => unfold read_item_val; exec
  | |- write_item_val _ _ _ = _ => unfold write_item_val; exec
  | |- free_item_val _ _ = _ => unfold free_item_val; exec
  | |- drop_item_ref _ _ = _ => unfold drop_item_ref; exec
  | |- drop_item_key _ _ = _ => unfold drop_item_key; exec
  | |- unindex _ _ = _ => unfold unindex; exec
  | |- discard _ _ = _ => unfold discard; exec
  | |- release _ _ = _ => unfold release; exec
  | |- take_ref _ _ = _ => unfold take_ref; exec
  | |- fz_hash_remove _ _ = _ => unfold fz_hash_remove; exec
  | |- fz_hash_insert _ _ _ = _ => unfold fz_hash_insert; exec
  | |- fz_hash_find _ _ = _ => unfold fz_hash_find; exec
  | |- fz_is_indirect _ _ = _ => unfold fz_is_indirect; exec
  | |- fz_to_num _ _ = _ => unfold fz_to_num; exec
  | |- fz_to_gen _ _ = _ => unfold fz_to_gen; exec
  | |- fz_objcmp _ _ _ = _ => unfold fz_objcmp; exec
  | |- form_refkey _ _ _ _ = _ => unfold form_refkey; exec
  | |- fill_item _ _ _ _ _ = _ => unfold fill_item; exec
  | |- index_item _ _ _ _ _ _ = _ => unfold index_item; exec
  | |- pin _ _ = _ => unfold pin; exec
  | |- reserve _ _ _ = _ => unfold reserve; exec
  | |- make_room (S _) _ _ _ = _ => cbn [make_room]; exec
  | |- fz_lock _ = _ => reflexivity
  | |- fz_unlock _ = _ => reflexivity
  | |- fz_malloc_item _ _ = _ => reflexivity
  | |- ret _ _ = _ => reflexivity
  | |- unpin _ _ = _ => unfold unpin; exec
  | |- (if ?b then _ else _) _ = _ =>
      first
        [ match goal with H : b = _ |- _ => rewrite H end
        | let b' := eval vm_compute in b in change b with b' ];
      exec
  | |- _ => first [ eassumption | reflexivity ]
  end.

(** ** The storable protocol *)

Lemma keep_some c a s :
  storables c !! a = Some s →
  fz_keep_storable (Some a) c = (Done (Some a), keep_result a s c).
Proof.
  intros H. unfold fz_keep_storable, keep_result, bind, fz_lock, read_val, fz_unlock, ret. simpl.
  rewrite H. destruct (0 <? val_refs s); simpl; [|reflexivity].
  unfold write_val. simpl. rewrite H. reflexivity.
Qed.

Lemma drop_some c a s :
  storables c !! a = Some s →
  fz_drop_storable (Some a) c = (Done tt, drop_result a s c).
Proof.
  intros H. unfold fz_drop_storable, drop_result, bind, fz_lock, read_val, fz_unlock, ret. simpl.
  rewrite H. destruct (val_refs s <? 0); simpl; [reflexivity|].
  unfold write_val. simpl. rewrite H. simpl. rewrite lookup_insert_eq. simpl.
  destruct (val_refs s - 1 =? 0); simpl; [|reflexivity].
  unfold call_free. simpl. rewrite lookup_insert_eq. reflexivity.
Qed.

Lemma rc_run_freed a ops c :
  storables c !! a = None → finalized (rc_run a ops c).2 = finalized c.
Proof.
  intros H. destruct ops as [|[] rest]; simpl; [reflexivity| |].
  - unfold bind, fz_keep_storable, bind, fz_lock, read_val. simpl. rewrite H. reflexivity.
  - unfold bind, fz_drop_storable, bind, fz_lock, read_val. simpl. rewrite H. reflexivity.
Qed.

Lemma bind_done {A B} (m : M A) (k : A → M B) c a c1 :
  m c = (Done a, c1) → bind m k c = k a c1.
Proof. intros H. unfold bind. by rewrite H. Qed.

Lemma rc_run_finalized a ops : ∀ c s,
  storables c !! a = Some s →
  finalized (rc_run a ops c).2 =
    finalized c ++ (if reaches_zero (val_refs s) ops then [(a, false)] else []).
Proof.
  induction ops as [|op rest IH]; intros c s H; cbn [rc_run reaches_zero].
  - by rewrite app_nil_r.
  - destruct op; cbn [rc_apply].
    + rewrite (bind_done _ _ c tt (keep_result a s c)).
      2:{ by rewrite (bind_done _ _ _ _ _ (keep_some _ _ _ H)). }
      unfold keep_result.
      destruct (0 <? val_refs s) eqn:E.
      * erewrite IH; [|simpl; apply lookup_insert_eq]. reflexivity.
      * erewrite IH; [|simpl; exact H]. reflexivity.
    + rewrite (bind_done _ _ _ _ _ (drop_some _ _ _ H)). unfold drop_result.
      destruct (val_refs s <? 0) eqn:E0.
      * erewrite IH; [|simpl; exact H]. reflexivity.
      * replace (val_refs s - 1 =? 0) with (val_refs s =? 1)
          by (destruct (Z.eqb_spec (val_refs s) 1), (Z.eqb_spec (val_refs s - 1) 0); lia).
        destruct (val_refs s =? 1) eqn:E1.
        -- rewrite rc_run_freed; [reflexivity|]. simpl. apply lookup_delete_eq.
        -- erewrite IH; [|simpl; apply lookup_insert_eq]. reflexivity.
Qed.

Lemma reaches_zero_static ops : ∀ r, r < 0 → reaches_zero r ops = false.
Proof.
  induction ops as [|[] rest IH]; intros r Hr; simpl; [done| |].
  - destruct (Z.ltb_spec 0 r); [lia|]. by apply IH.
  - destruct (Z.ltb_spec r 0); [|lia]. by apply IH.
Qed.

(** ** Doubly linked segments *)

Section Segments.
Implicit Types (h : gmap Z fz_item) (l : list Z) (p n : option Z).

Lemma last_or_snoc l b p : last_or (l ++ [b]) p = Some b.
Proof. unfold last_or. by rewrite last_snoc. Qed.

Lemma last_or_cons a l p : last_or (a :: l) p = last_or l (Some a).
Proof.
  unfold last_or. destruct l as [|b l]; [done|].
  rewrite last_cons. destruct (last (b :: l)) eqn:E; [done|].
  by apply last_None in E.
Qed.

Lemma seg_app h l1 : ∀ l2 p n,
  seg h p (l1 ++ l2) n ↔ seg h p l1 (first_or l2 n) ∧ seg h (last_or l1 p) l2 n.
Proof.
  induction l1 as [|a l1 IH]; intros l2 p n; simpl.
  - unfold last_or. simpl. tauto.
  - rewrite last_or_cons. split.
    + intros (it & H1 & H2 & H3 & H4). apply IH in H4 as [H4 H5]. split; [|done].
      exists it. repeat split; try done. destruct l1; simpl in *; done.
    + intros [(it & H1 & H2 & H3 & H4) H5]. exists it. repeat split; try done.
      * destruct l1; simpl in *; done.
      * apply IH. done.
Qed.

Lemma seg_frame h h' l : ∀ p n,
  (∀ a, a ∈ l → h' !! a = h !! a) → seg h p l n → seg h' p l n.
Proof.
  induction l as [|a l IH]; intros p n Hf; simpl; [done|].
  intros (it & H1 & H2 & H3 & H4). exists it. split.
  - rewrite Hf; [done|]. left.
  - repeat split; try done. apply IH; [|done]. intros b Hb. apply Hf. by right.
Qed.

Lemma seg_set_prev h b it l p p' n :
  h !! b = Some it → b ∉ l → seg h p (b :: l) n →
  seg (<[b := set_item_prev p' it]> h) p' (b :: l) n.
Proof.
  intros Hb Hn (it' & H1 & H2 & H3 & H4). simpl.
  exists (set_item_prev p' it). rewrite lookup_insert_eq.
  assert (it' = it) as -> by congruence.
  repeat split; try done.
  eapply seg_frame; [|done]. intros a Ha. apply lookup_insert_ne. intros ->. done.
Qed.

Lemma seg_set_next h b it l : ∀ p n n',
  h !! b = Some it → b ∉ l → seg h p (l ++ [b]) n →
  seg (<[b := set_item_next n' it]> h) p (l ++ [b]) n'.
Proof.
  induction l as [|a l IH]; intros p n n' Hb Hn; simpl.
  - intros (it' & H1 & H2 & H3 & _). assert (it' = it) as -> by congruence.
    exists (set_item_next n' it). by rewrite lookup_insert_eq.
  - intros (it' & H1 & H2 & H3 & H4).
    apply not_elem_of_cons in Hn as [Hab Hn].
    exists it'. rewrite lookup_insert_ne by done. repeat split; try done.
    + destruct l; simpl in *; done.
    + by eapply IH.
Qed.

Lemma seg_lookup h l1 a l2 p n :
  seg h p (l1 ++ a :: l2) n →
  ∃ it, h !! a = Some it ∧ item_prev it = last_or l1 p ∧ item_next it = first_or l2 n.
Proof.
  intros H. apply seg_app in H as [_ (it & H1 & H2 & H3 & _)]. by exists it.
Qed.

Lemma seg_allocated h l p n a : seg h p l n → a ∈ l → is_Some (h !! a).
Proof.
  intros H Ha. apply list_elem_of_split in Ha as (l1 & l2 & ->).
  apply seg_lookup in H as (it & H & _). by exists it.
Qed.
End Segments.

Lemma last_or_nil p : last_or [] p = p.
Proof. done. Qed.

Lemma head_snoc_app (l : list Z) b l2 : head ((l ++ [b]) ++ l2) = head (l ++ [b]).
Proof. by destruct l. Qed.

Lemma lru_intro c st l :
  store c = Some st → store_head st = head l → store_tail st = last l →
  NoDup l → seg (items c) None l None → lru c l.
Proof. intros. by exists st. Qed.

Lemma relinked_intro c c' :
  storables c' = storables c → objs c' = objs c →
  alloc_lock c' = alloc_lock c → finalized c' = finalized c →
  store_rest <$> store c' = store_rest <$> store c →
  (∀ b, item_core <$> items c' !! b = item_core <$> items c !! b) →
  relinked c c'.
Proof. intros. by repeat split. Qed.

Lemma core_insert (h : gmap Z fz_item) a it it' b :
  h !! a = Some it → item_core it' = item_core it →
  item_core <$> <[a := it']> h !! b = item_core <$> h !! b.
Proof.
  intros Ha Hc. destruct (decide (a = b)) as [->|Hne].
  - by rewrite lookup_insert_eq, Ha; simpl; rewrite Hc.
  - by rewrite lookup_insert_ne.
Qed.

Lemma unlink_spec c l1 a l2 :
  lru c (l1 ++ a :: l2) →
  ∃ c', unlink a c = (Done tt, c') ∧ lru c' (l1 ++ l2) ∧ relinked c c' ∧
        items c' !! a = items c !! a ∧
        (∀ b, b ∉ l1 ++ a :: l2 → items c' !! b = items c !! b).
Proof.
  intros (st & Hst & Hhd & Htl & Hnd & Hseg).
  pose proof (seg_lookup _ _ _ _ _ _ Hseg) as (it & Ha & Hp & Hn).
  apply seg_app in Hseg as [Hs1 Hs2].
  destruct Hs2 as (_ & _ & _ & _ & Hs2).
  pose proof Hnd as Hnd'.
  apply NoDup_app in Hnd as (Hnd1 & Hd & Hnd2).
  apply NoDup_cons in Hnd2 as [Ha2 Hnd2].
  assert (a ∉ l1) as Ha1 by (intros H; apply (Hd _ H); left).
  assert (NoDup (l1 ++ l2)) as Hnd12.
  { apply NoDup_app. repeat split; try done. intros x Hx Hx2. apply (Hd x Hx). by right. }
  destruct it as [k v sz nx pv]. simpl in Hp, Hn. subst nx pv.
  destruct l2 as [|n l2]; destruct l1 as [|p l0 _] using rev_ind;
    rewrite ?last_or_snoc, ?last_or_nil in *; simpl in Ha, Hs1, Hs2.
  - eexists. split; [unfold unlink; exec|]. split; [|split; [|done]].
    + eapply lru_intro; simpl; done.
    + apply relinked_intro; simpl; rewrite ?Hst; done.
  - apply not_elem_of_app in Ha1 as [Ha1 Hpa%not_elem_of_cons].
    destruct Hpa as [Hpa _].
    apply NoDup_app in Hnd1 as (Hnd0 & Hd0 & _).
    assert (p ∉ l0) as Hp0 by (intros H; apply (Hd0 _ H); left).
    pose proof (seg_lookup _ _ _ [] _ _ Hs1) as (itp & Hip & _).
    eexists. split; [unfold unlink; exec|]. split; [|split; [|split]].
    + rewrite app_nil_r in *. eapply lru_intro; simpl;
        [first [reflexivity|exact Hst]| simpl | simpl | done |].
      * rewrite Hhd. by destruct l0.
      * by rewrite last_snoc.
      * eapply seg_set_next; done.
    + apply relinked_intro; simpl; rewrite ?Hst; try done.
      intros b. by eapply core_insert.
    + simpl. by rewrite lookup_insert_ne.
    + intros b Hb. simpl. rewrite lookup_insert_ne; [done|]. intros ->. set_solver.
  - destruct Hs2 as (itn & Hin & Hpn & Hnn & Hs2).
    apply not_elem_of_cons in Ha2 as [Han Ha2].
    apply NoDup_cons in Hnd2 as [Hn2 Hnd2].
    eexists. split; [unfold unlink; exec|]. split; [|split; [|split]].
    + eapply lru_intro; simpl; [first [reflexivity|exact Hst]| done | done | done |].
      exists (set_item_prev None itn). rewrite lookup_insert_eq. repeat split; try done.
      eapply seg_frame; [|done]. intros b Hb. apply lookup_insert_ne. by intros ->.
    + apply relinked_intro; simpl; rewrite ?Hst; try done.
      intros b. by eapply core_insert.
    + simpl. by rewrite lookup_insert_ne.
    + intros b Hb. simpl. rewrite lookup_insert_ne; [done|]. intros ->. set_solver.
  - destruct Hs2 as (itn & Hin & Hpn & Hnn & Hs2).
    apply not_elem_of_cons in Ha2 as [Han Ha2].
    apply NoDup_cons in Hnd2 as [Hn2 Hnd2].
    apply not_elem_of_app in Ha1 as [Ha1 Hpa%not_elem_of_cons].
    destruct Hpa as [Hpa _].
    apply NoDup_app in Hnd1 as (Hnd0 & Hd0 & _).
    assert (p ∉ l0) as Hp0 by (intros H; apply (Hd0 _ H); left).
    assert (p ≠ n) as Hpn'.
    { intros ->. apply (Hd n); set_solver. }
    pose proof (seg_lookup _ _ _ [] _ _ Hs1) as (itp & Hip & _).
    eexists. split; [unfold unlink; exec|]. split; [|split; [|split]].
    + eapply lru_intro; simpl; [first [reflexivity|exact Hst]| simpl | simpl | done |].
      * rewrite Hhd. by destruct l0.
      * rewrite Htl. rewrite !last_app. simpl. done.
      * apply seg_app. rewrite last_or_snoc. simpl. split.
        -- eapply seg_set_next; [by rewrite lookup_insert_ne|done|].
           eapply seg_frame; [|done]. intros b Hb. apply lookup_insert_ne. intros ->.
           apply (Hd b Hb). right. left.
        -- exists (set_item_prev (Some p) itn).
           rewrite lookup_insert_ne, lookup_insert_eq by done. repeat split; try done.
           eapply seg_frame; [|done]. intros b Hb.
           rewrite !lookup_insert_ne; [done| |].
           ++ by intros ->.
           ++ intros ->. apply (Hd b); set_solver.
    + apply relinked_intro; simpl; rewrite ?Hst; try done.
      intros b. erewrite core_insert; [| by rewrite lookup_insert_ne |done].
      by eapply core_insert.
    + simpl. by rewrite !lookup_insert_ne.
    + intros b Hb. simpl. rewrite !lookup_insert_ne; [done| |].
      * intros ->. set_solver.
      * intros ->. set_solver.
Qed.

Lemma link_head_store_spec c l a it :
  lru c l → a ∉ l → items c !! a = Some it →
  ∃ c', link_head_store a c = (Done tt, c') ∧ lru c' (a :: l) ∧ relinked c c' ∧
        (∀ b, b ∉ a :: l → items c' !! b = items c !! b).
Proof.
  intros (st & Hst & Hhd & Htl & Hnd & Hseg) Hal Ha.
  unfold link_head_store.
  destruct l as [|h0 l]; simpl in Hhd, Hseg.
  - destruct st as [rf hd tl hs mx sz]. simpl in Hhd, Htl. subst hd tl.
    eexists. split; [exec|]. split; [|split].
    + eapply lru_intro; simpl; [reflexivity|done|done|apply NoDup_singleton|].
      eexists. rewrite lookup_insert_eq. done.
    + apply relinked_intro; simpl; rewrite ?Hst; try done.
      intros b. erewrite core_insert; [|apply lookup_insert_eq|done].
      eapply core_insert; [apply Ha|done].
    + intros b Hb. apply not_elem_of_cons in Hb as [Hb _]. simpl.
      by rewrite !lookup_insert_ne.
  - destruct st as [rf hd tl hs mx sz]. simpl in Hhd, Htl. subst hd.
    destruct Hseg as (ith & Hih & Hph & Hnh & Hseg).
    apply not_elem_of_cons in Hal as [Hah Hal].
    apply NoDup_cons in Hnd as [Hh0 Hnd].
    eexists. split; [exec|]. split; [|split].
    + eapply lru_intro; [reflexivity|done| | |].
      * simpl store_tail. rewrite Htl. by rewrite !last_cons_cons.
      * apply NoDup_cons. split; [by apply not_elem_of_cons|]. by apply NoDup_cons.
      * simpl. eexists. rewrite lookup_insert_eq. repeat split; try done.
        exists (set_item_prev (Some a) ith).
        rewrite lookup_insert_ne, lookup_insert_eq by done. repeat split; try done.
        eapply seg_frame; [|done]. intros b Hb.
        rewrite !lookup_insert_ne; [done| | |]; intros ->; done.
    + apply relinked_intro; simpl; rewrite ?Hst; try done.
      intros b. erewrite core_insert; [| by rewrite lookup_insert_ne, lookup_insert_eq |done].
      erewrite core_insert; [|by rewrite lookup_insert_ne|done].
      eapply core_insert; [apply Ha|done].
    + intros b Hb. apply not_elem_of_cons in Hb as [Hba Hb].
      apply not_elem_of_cons in Hb as [Hbh Hb]. simpl.
      by rewrite !lookup_insert_ne.
Qed.

Lemma link_head_find_spec c l a it :
  lru c l → a ∉ l → items c !! a = Some it →
  ∃ c', link_head_find a c = (Done tt, c') ∧ lru c' (a :: l) ∧ relinked c c' ∧
        (∀ b, b ∉ a :: l → items c' !! b = items c !! b).
Proof.
  intros (st & Hst & Hhd & Htl & Hnd & Hseg) Hal Ha.
  unfold link_head_find.
  destruct l as [|h0 l]; simpl in Hhd, Hseg.
  - destruct st as [rf hd tl hs mx sz]. simpl in Hhd, Htl. subst hd tl.
    eexists. split; [exec|]. split; [|split].
    + eapply lru_intro; simpl; [reflexivity|done|done|apply NoDup_singleton|].
      eexists. rewrite lookup_insert_eq. done.
    + apply relinked_intro; simpl; rewrite ?Hst; try done.
      intros b. erewrite core_insert; [|apply lookup_insert_eq|done].
      eapply core_insert; [apply Ha|done].
    + intros b Hb. apply not_elem_of_cons in Hb as [Hb _]. simpl.
      by rewrite !lookup_insert_ne.
  - destruct st as [rf hd tl hs mx sz]. simpl in Hhd, Htl. subst hd.
    destruct Hseg as (ith & Hih & Hph & Hnh & Hseg).
    apply not_elem_of_cons in Hal as [Hah Hal].
    apply NoDup_cons in Hnd as [Hh0 Hnd].
    eexists. split; [exec|]. split; [|split].
    + eapply lru_intro; [reflexivity|done| | |].
      * simpl store_tail. rewrite Htl. by rewrite !last_cons_cons.
      * apply NoDup_cons. split; [by apply not_elem_of_cons|]. by apply NoDup_cons.
      * simpl. eexists. rewrite lookup_insert_eq. repeat split; try done.
        exists (set_item_prev (Some a) ith).
        rewrite lookup_insert_ne, lookup_insert_eq by done. repeat split; try done.
        eapply seg_frame; [|done]. intros b Hb.
        rewrite !lookup_insert_ne; [done| | |]; intros ->; done.
    + apply relinked_intro; simpl; rewrite ?Hst; try done.
      intros b. erewrite core_insert; [| by rewrite lookup_insert_ne, lookup_insert_eq |done].
      erewrite core_insert; [|by rewrite lookup_insert_ne|done].
      eapply core_insert; [apply Ha|done].
    + intros b Hb. apply not_elem_of_cons in Hb as [Hba Hb].
      apply not_elem_of_cons in Hb as [Hbh Hb]. simpl.
      by rewrite !lookup_insert_ne.
Qed.

(** ** Invariants *)

Section Inv.
Context {A B : Type} (I : fz_context → Prop).

Lemma inv_bind (m : M A) (k : A → M B) :
  inv_pres I m → (∀ a, inv_pres I (k a)) → inv_pres I (bind m k).
Proof.
  intros Hm Hk c Hc. unfold bind. specialize (Hm c Hc).
  destruct (m c) as [[a| |] c1]; simpl in *; auto. by apply Hk.
Qed.

Lemma inv_ret (a : A) : inv_pres I (ret a).
Proof. by intros c Hc. Qed.

Lemma inv_fault : inv_pres I (@fault A).
Proof. by intros c Hc. Qed.

Lemma inv_out_of_fuel : inv_pres I (@out_of_fuel A).
Proof. by intros c Hc. Qed.

Lemma inv_read_store (f : fz_store → A) : inv_pres I (read_store f).
Proof. intros c Hc. unfold read_store. by destruct (store c). Qed.

Lemma inv_read_item a (f : fz_item → A) : inv_pres I (read_item a f).
Proof. intros c Hc. unfold read_item. by destruct (items c !! a). Qed.

Lemma inv_read_val a (f : fz_storable → A) : inv_pres I (read_val a f).
Proof. intros c Hc. unfold read_val. by destruct (storables c !! a). Qed.

Lemma inv_read_obj a (f : fz_obj → A) : inv_pres I (read_obj a f).
Proof. intros c Hc. unfold read_obj. by destruct (objs c !! a). Qed.

Lemma inv_apply (m : M A) c : inv_pres I m → I c → I (m c).2.
Proof. intros H. apply H. Qed.
End Inv.

Lemma inv_deref I p : inv_pres I (deref p).
Proof. destruct p; [apply inv_ret|apply inv_fault]. Qed.

Lemma inv_read_item_val {A} I a (f : fz_storable → A) : inv_pres I (read_item_val a f).
Proof.
  unfold read_item_val. apply inv_bind; [apply inv_read_item|intros vp].
  apply inv_bind; [apply inv_deref|intros v]. apply inv_read_val.
Qed.

Lemma inv_fz_hash_find I k : inv_pres I (fz_hash_find k).
Proof. unfold fz_hash_find. apply inv_bind; [apply inv_read_store|intros; apply inv_ret]. Qed.

Lemma inv_fz_objcmp I a b : inv_pres I (fz_objcmp a b).
Proof.
  unfold fz_objcmp. apply inv_bind; [apply inv_read_obj|intros].
  apply inv_bind; [apply inv_read_obj|intros]. apply inv_ret.
Qed.

Section Writers.
Context (I : fz_context → Prop).

Lemma inv_write_store upd :
  (∀ c st, I c → store c = Some st → I (with_store (Some (upd st)) c)) →
  inv_pres I (write_store upd).
Proof.
  intros H c Hc. unfold write_store. destruct (store c) eqn:E; [|done]. by apply H.
Qed.

Lemma inv_write_item a upd :
  (∀ c it, I c → items c !! a = Some it →
           I (with_items (<[a := upd it]> (items c)) c)) →
  inv_pres I (write_item a upd).
Proof.
  intros H c Hc. unfold write_item. destruct (items c !! a) eqn:E; [|done]. by apply H.
Qed.

Lemma inv_write_val a upd :
  (∀ c s, I c → storables c !! a = Some s →
          I (with_storables (<[a := upd s]> (storables c)) c)) →
  inv_pres I (write_val a upd).
Proof.
  intros H c Hc. unfold write_val. destruct (storables c !! a) eqn:E; [|done]. by apply H.
Qed.

Lemma inv_write_item_val a upd :
  (∀ c it v s, I c → items c !! a = Some it → item_val it = Some v →
               storables c !! v = Some s →
               I (with_storables (<[v := upd s]> (storables c)) c)) →
  inv_pres I (write_item_val a upd).
Proof.
  intros H c Hc. unfold write_item_val, bind, read_item, deref, write_val.
  destruct (items c !! a) as [it|] eqn:E; [|done].
  destruct (item_val it) as [v|] eqn:Ev; [|done]. simpl.
  destruct (storables c !! v) eqn:Es; [|done]. by eapply H.
Qed.

Lemma inv_free_item_val a :
  (∀ c it v s, I c → items c !! a = Some it → item_val it = Some v →
               storables c !! v = Some s →
               I (with_finalized (finalized c ++ [(v, alloc_lock c)])
                    (with_storables (delete v (storables c)) c))) →
  inv_pres I (free_item_val a).
Proof.
  intros H c Hc. unfold free_item_val, bind, read_item, deref, call_free.
  destruct (items c !! a) as [it|] eqn:E; [|done].
  destruct (item_val it) as [v|] eqn:Ev; [|done]. simpl.
  destruct (storables c !! v) eqn:Es; [|done]. by eapply H.
Qed.

Lemma inv_call_free v :
  (∀ c s, I c → storables c !! v = Some s →
          I (with_finalized (finalized c ++ [(v, alloc_lock c)])
               (with_storables (delete v (storables c)) c))) →
  inv_pres I (call_free v).
Proof.
  intros H c Hc. unfold call_free. destruct (storables c !! v) eqn:Es; [|done]. by eapply H.
Qed.

Lemma inv_fz_lock : (∀ c b, I c → I (with_lock b c)) → inv_pres I fz_lock.
Proof. intros H c Hc. by apply H. Qed.

Lemma inv_fz_unlock : (∀ c b, I c → I (with_lock b c)) → inv_pres I fz_unlock.
Proof. intros H c Hc. by apply H. Qed.

Lemma inv_fz_malloc_item a :
  (∀ c, I c → I (with_items (<[a := Item None None 0 None None]> (items c)) c)) →
  inv_pres I (fz_malloc_item a).
Proof. intros H c Hc. by apply H. Qed.

Lemma inv_fz_free_item a :
  (∀ c it, I c → items c !! a = Some it → I (with_items (delete a (items c)) c)) →
  inv_pres I (fz_free_item a).
Proof.
  intros H c Hc. unfold fz_free_item. destruct (items c !! a) eqn:E; [|done]. by eapply H.
Qed.

Lemma inv_fz_keep_obj k :
  (∀ c h, I c → I (with_objs h c)) → inv_pres I (fz_keep_obj k).
Proof.
  intros H c Hc. unfold fz_keep_obj. destruct (objs c !! k); [|done]. by apply H.
Qed.

Lemma inv_fz_drop_obj k :
  (∀ c h, I c → I (with_objs h c)) → inv_pres I (fz_drop_obj k).
Proof.
  intros H c Hc. unfold fz_drop_obj. destruct (objs c !! k); [|done].
  destruct (_ =? _); by apply H.
Qed.
End Writers.

(** One step through the structure of an operation; [fin] closes the
    side conditions of the primitives that write. *)
Ltac inv_leaf :=
  first
    [ apply inv_write_store | apply inv_write_item | apply inv_write_val
    | apply inv_write_item_val | apply inv_free_item_val | apply inv_call_free
    | apply inv_fz_lock | apply inv_fz_unlock
    | apply inv_fz_malloc_item | apply inv_fz_free_item
    | apply inv_fz_keep_obj | apply inv_fz_drop_obj ].

Ltac inv_step :=
  lazymatch goal with
  | |- inv_pres _ (bind _ _) => apply inv_bind; [|intros ?]
  | |- inv_pres _ (ret _) => apply inv_ret
  | |- inv_pres _ fault => apply inv_fault
  | |- inv_pres _ out_of_fuel => apply inv_out_of_fuel
  | |- inv_pres _ (deref _) => apply inv_deref
  | |- inv_pres _ (read_store _) => apply inv_read_store
  | |- inv_pres _ (read_item _ _) => apply inv_read_item
  | |- inv_pres _ (read_val _ _) => apply inv_read_val
  | |- inv_pres _ (read_obj _ _) => apply inv_read_obj
  | |- inv_pres _ (read_item_val _ _) => apply inv_read_item_val
  | |- inv_pres _ (fz_is_indirect _) => apply inv_read_obj
  | |- inv_pres _ (fz_to_num _) => apply inv_read_obj
  | |- inv_pres _ (fz_to_gen _) => apply inv_read_obj
  | |- inv_pres _ (fz_objcmp _ _) => apply inv_fz_objcmp
  | |- inv_pres _ (fz_hash_find _) => apply inv_fz_hash_find
  | |- inv_pres _ (if ?b then _ else _) => destruct b
  | |- inv_pres _ (match ?x with Some _ => _ | None => _ end) => destruct x
  | |- inv_pres _ (unlink _) => unfold unlink
  | |- inv_pres _ (drop_item_ref _) => unfold drop_item_ref
  | |- inv_pres _ (drop_item_key _) => unfold drop_item_key
  | |- inv_pres _ (unindex _) => unfold unindex
  | |- inv_pres _ (evict _) => unfold evict
  | |- inv_pres _ (discard _) => unfold discard
  | |- inv_pres _ (release _) => unfold release
  | |- inv_pres _ (take_ref _) => unfold take_ref
  | |- inv_pres _ (pin _) => unfold pin
  | |- inv_pres _ (unpin _) => unfold unpin
  | |- inv_pres _ (fz_hash_remove _) => unfold fz_hash_remove
  | |- inv_pres _ (fz_hash_insert _ _) => unfold fz_hash_insert
  | |- inv_pres _ (form_refkey _ _ _) => unfold form_refkey
  | |- inv_pres _ (fill_item _ _ _ _) => unfold fill_item
  | |- inv_pres _ (index_item _ _ _ _ _) => unfold index_item
  | |- inv_pres _ (link_head_store _) => unfold link_head_store
  | |- inv_pres _ (link_head_find _) => unfold link_head_find
  | |- inv_pres _ (lookup_remove _ _ _ _ _) => unfold lookup_remove
  | |- inv_pres _ (lookup_item _ _ _ _ _) => unfold lookup_item
  | |- inv_pres _ _ => inv_leaf
  end.

Ltac inv_go := repeat inv_step.

Ltac use_store :=
  repeat match goal with
         | H : store _ = _ |- _ => rewrite H in *; clear H
         end;
  simpl in *.

(** *** The capacity is never written *)
Lemma evict_max x a : inv_pres (λ c, store_max <$> store c = x) (evict a).
Proof. inv_go; intros; simpl; use_store; done. Qed.

(** ** Weakest preconditions *)

Section Wp.
Context {A B : Type}.
Implicit Types (Q : A → fz_context → Prop) (E : fz_context → Prop).

Lemma wp_bind (m : M A) (k : A → M B) R E c :
  wp m (λ a c', wp (k a) R E c') E c → wp (bind m k) R E c.
Proof. unfold wp, bind. by destruct (m c) as [[a| |] c1]. Qed.

Lemma wp_ret (a : A) Q E c : Q a c → wp (ret a) Q E c.
Proof. done. Qed.

Lemma wp_fault Q E c : E c → wp (@fault A) Q E c.
Proof. done. Qed.

Lemma wp_out_of_fuel Q E c : E c → wp (@out_of_fuel A) Q E c.
Proof. done. Qed.

Lemma wp_mono (m : M A) Q Q' E E' c :
  wp m Q E c → (∀ a c', Q a c' → Q' a c') → (∀ c', E c' → E' c') → wp m Q' E' c.
Proof. unfold wp. destruct (m c) as [[a| |] c1]; auto. Qed.

Lemma wp_eq (m : M A) Q E c a c' : m c = (Done a, c') → Q a c' → wp m Q E c.
Proof. unfold wp. by intros ->. Qed.

Lemma wp_inv (m : M A) I c : inv_pres I m → I c → wp m (λ _, I) I c.
Proof. intros H Hc. specialize (H c Hc). unfold wp. by destruct (m c) as [[a| |] c1]. Qed.

Lemma wp_elim (m : M A) Q E c :
  wp m Q E c → ∀ r c', m c = (r, c') →
  match r with Done a => Q a c' | _ => E c' end.
Proof. unfold wp. intros H r c' Heq. rewrite Heq in H. by destruct r. Qed.

Lemma wp_read_store (f : fz_store → A) Q E c :
  (∀ st, store c = Some st → Q (f st) c) → (store c = None → E c) →
  wp (read_store f) Q E c.
Proof. unfold wp, read_store. destruct (store c); auto. Qed.

Lemma wp_read_item a (f : fz_item → A) Q E c :
  (∀ it, items c !! a = Some it → Q (f it) c) → (items c !! a = None → E c) →
  wp (read_item a f) Q E c.
Proof. unfold wp, read_item. destruct (items c !! a); auto. Qed.

Lemma wp_read_val a (f : fz_storable → A) Q E c :
  (∀ s, storables c !! a = Some s → Q (f s) c) → (storables c !! a = None → E c) →
  wp (read_val a f) Q E c.
Proof. unfold wp, read_val. destruct (storables c !! a); auto. Qed.

Lemma wp_read_obj a (f : fz_obj → A) Q E c :
  (∀ o, objs c !! a = Some o → Q (f o) c) → (objs c !! a = None → E c) →
  wp (read_obj a f) Q E c.
Proof. unfold wp, read_obj. destruct (objs c !! a); auto. Qed.

Lemma wp_read_item_val a (f : fz_storable → A) Q E c :
  (∀ it v s, items c !! a = Some it → item_val it = Some v →
             storables c !! v = Some s → Q (f s) c) →
  ((¬ ∃ it v s, items c !! a = Some it ∧ item_val it = Some v ∧
                storables c !! v = Some s) → E c) →
  wp (read_item_val a f) Q E c.
Proof.
  intros HQ HE. unfold wp, read_item_val, bind, read_item, deref, read_val.
  destruct (items c !! a) as [it|] eqn:E1;
    [|apply HE; intros (? & ? & ? & ? & _); congruence].
  destruct (item_val it) as [v|] eqn:E2;
    [|apply HE; intros (? & ? & ? & ? & ? & _); congruence]. simpl.
  destruct (storables c !! v) eqn:E3; [by eapply HQ|].
  apply HE. intros (? & ? & ? & ? & ? & ?). congruence.
Qed.
End Wp.


Lemma wp_write_store upd Q E c :
  (∀ st, store c = Some st → Q tt (with_store (Some (upd st)) c)) →
  (store c = None → E c) → wp (write_store upd) Q E c.
Proof. unfold wp, write_store. destruct (store c); auto. Qed.

Lemma wp_write_item a upd Q E c :
  (∀ it, items c !! a = Some it → Q tt (with_items (<[a := upd it]> (items c)) c)) →
  (items c !! a = None → E c) → wp (write_item a upd) Q E c.
Proof. unfold wp, write_item. destruct (items c !! a); auto. Qed.

Lemma wp_write_val a upd Q E c :
  (∀ s, storables c !! a = Some s →
        Q tt (with_storables (<[a := upd s]> (storables c)) c)) →
  (storables c !! a = None → E c) → wp (write_val a upd) Q E c.
Proof. unfold wp, write_val. destruct (storables c !! a); auto. Qed.


Lemma wp_fz_lock Q E c : Q tt (with_lock true c) → wp fz_lock Q E c.
Proof. done. Qed.

Lemma wp_fz_unlock Q E c : Q tt (with_lock false c) → wp fz_unlock Q E c.
Proof. done. Qed.

Lemma wp_fz_malloc_item a Q E c :
  Q tt (with_items (<[a := Item None None 0 None None]> (items c)) c) →
  wp (fz_malloc_item a) Q E c.
Proof. done. Qed.

Lemma wp_fz_free_item a Q E c :
  (∀ it, items c !! a = Some it → Q tt (with_items (delete a (items c)) c)) →
  (items c !! a = None → E c) → wp (fz_free_item a) Q E c.
Proof.
  intros HQ HE. unfold wp, fz_free_item.
  destruct (items c !! a) eqn:E1; [by eapply HQ|by apply HE].
Qed.

(** ** Eviction and the list *)

Lemma lru_ext c c' l :
  store_head <$> store c' = store_head <$> store c →
  store_tail <$> store c' = store_tail <$> store c →
  (∀ b, b ∈ l → items c' !! b = items c !! b) →
  lru c l → lru c' l.
Proof.
  intros Hh Ht Hi (st & Hst & Hhd & Htl & Hnd & Hseg).
  rewrite Hst in Hh, Ht. simpl in Hh, Ht.
  destruct (store c') as [st'|] eqn:E; [|done]. simpl in Hh, Ht.
  exists st'. repeat split; try congruence.
  by eapply seg_frame.
Qed.

Lemma lru_store c l : lru c l → is_Some (store c).
Proof. intros (st & Hst & _). by exists st. Qed.

Lemma lru_NoDup c l : lru c l → NoDup l.
Proof. by intros (st & _ & _ & _ & Hnd & _). Qed.

Lemma lru_allocated c l a : lru c l → a ∈ l → is_Some (items c !! a).
Proof. intros (st & _ & _ & _ & _ & Hseg) Ha. by eapply seg_allocated. Qed.

(** Closes the side conditions of [inv_go] for invariants that only look
    at the list. *)
Ltac lru_fin :=
  intros;
  match goal with
  | H : lru _ ?l |- lru _ ?l =>
      eapply lru_ext; [| | |exact H]; simpl; use_store; try done;
      intros; rewrite ?lookup_delete_ne, ?lookup_insert_ne by (intros ->; done); done
  end.

Lemma discard_lru a l : a ∉ l → inv_pres (λ c, lru c l) (discard a).
Proof. intros Ha. inv_go; lru_fin. Qed.

Lemma discard_other_item a b x :
  b ≠ a → inv_pres (λ c, items c !! b = x) (discard a).
Proof. intros Hne. inv_go; intros; simpl; rewrite ?lookup_delete_ne by done; done. Qed.

Lemma evict_lru c l1 a l2 :
  lru c (l1 ++ a :: l2) →
  lru (evict a c).2 (l1 ++ l2) ∧
  (∀ b, b ∉ l1 ++ a :: l2 → items (evict a c).2 !! b = items c !! b).
Proof.
  intros Hl.
  assert (a ∉ l1 ++ l2) as Ha.
  { apply lru_NoDup in Hl. apply NoDup_app in Hl as (_ & Hd & [Hn _]%NoDup_cons).
    apply not_elem_of_app. split; [|done]. intros H. apply (Hd _ H). left. }
  destruct (lru_allocated c _ a Hl) as [it Hit]; [set_solver|].
  destruct (lru_store _ _ Hl) as [st Hst].
  set (c1 := with_store (Some (set_store_size (wrap (store_size st - item_size it)) st)) c).
  assert (lru c1 (l1 ++ a :: l2)) as Hl1.
  { eapply lru_ext; [| | |exact Hl]; subst c1; simpl; rewrite ?Hst; done. }
  destruct (unlink_spec _ _ _ _ Hl1) as (c2 & Hun & Hl2 & _ & _ & Hfr).
  assert (evict a c = discard a c2) as ->.
  { unfold evict. exec. }
  split.
  - by apply (discard_lru a _ Ha c2).
  - intros b Hb. rewrite (discard_other_item a b (items c2 !! b)); [|set_solver|done].
    by rewrite Hfr.
Qed.

Lemma evict_frees c l1 a l2 it v s k o :
  lru c (l1 ++ a :: l2) →
  items c !! a = Some it → item_val it = Some v → item_key it = Some k →
  storables c !! v = Some s → objs c !! k = Some o →
  ∃ c', evict a c = (Done tt, c') ∧ lru c' (l1 ++ l2) ∧
        items c' !! a = None ∧
        store_size <$> store c' = (λ st, wrap (store_size st - item_size it)) <$> store c ∧
        (val_refs s = 1 →
         storables c' !! v = None ∧ finalized c' = finalized c ++ [(v, false)]).
Proof.
  intros Hl Hit Hv Hk Hs Ho.
  pose proof (evict_lru _ _ _ _ Hl) as [Hl' _].
  destruct (lru_store _ _ Hl) as [st Hst].
  set (c1 := with_store (Some (set_store_size (wrap (store_size st - item_size it)) st)) c).
  assert (lru c1 (l1 ++ a :: l2)) as Hl1.
  { eapply lru_ext; [| | |exact Hl]; subst c1; simpl; rewrite ?Hst; done. }
  destruct (unlink_spec _ _ _ _ Hl1) as (c2 & Hun & Hl2 & Hrel & Ha2 & Hfr).
  destruct Hrel as (Hsto & Hobj & Hlk & Hfin & Hsr & _).
  destruct (lru_store _ _ Hl2) as [st2 Hst2].
  rewrite Hst2 in Hsr. subst c1. simpl in *.
  destruct it as [ik iv isz inx ipv], s as [sr sf], o as [orf okind]. simpl in *. subst.
  rewrite <- Hsto in Hs. rewrite <- Hobj in Ho. rewrite Hit in Ha2.
  assert (∃ c', evict a c = (Done tt, c') ∧
                items c' = delete a (items c2) ∧
                store_size <$> store c' = store_size <$> store c2 ∧
                (sr = 1 → storables c' !! v = None ∧
                          finalized c' = finalized c2 ++ [(v, false)]))
    as (c' & Hev & Hi' & Hz' & Hf').
  { destruct (0 <? sr) eqn:E1; [destruct (sr - 1 =? 0) eqn:E2|];
      destruct okind as [num gen|content];
      (eexists; split; [unfold evict; exec|]; simpl; rewrite ?Hst2;
       repeat split; try done; try apply lookup_delete_eq;
       try (exfalso; first [apply Z.eqb_neq in E2|apply Z.ltb_ge in E1]; lia)). }
  exists c'. split; [done|]. rewrite Hev in Hl'. simpl in Hl'.
  repeat split; try done.
  - rewrite Hi'. apply lookup_delete_eq.
  - rewrite Hz', Hst2, Hst. simpl. injection Hsr as _ _ _ ->. done.
  - by apply Hf'.
  - rewrite <- Hfin. by apply Hf'.
Qed.

(** ** Entries that an eviction leaves alone *)









(** Nothing is allocated by an eviction. *)
Ltac unallocated_fin :=
  intros; simpl; try assumption;
  match goal with
  | |- <[?n := _]> _ !! ?b = None =>
      rewrite lookup_insert_ne; [assumption|intros ->; congruence]
  | |- delete ?n _ !! ?b = None =>
      destruct (decide (n = b)) as [->|];
      [ apply lookup_delete_eq | by rewrite lookup_delete_ne ]
  end.

Lemma evict_unallocated b a : inv_pres (λ c, items c !! b = None) (evict a).
Proof. inv_go; unallocated_fin. Qed.

Lemma ensure_space_check_ro I fuel tofree : ∀ item count,
  inv_pres I (ensure_space_check fuel tofree item count).
Proof.
  induction fuel as [|fuel IH]; intros item count; simpl; [apply inv_out_of_fuel|].
  inv_go; apply IH.
Qed.

Lemma decr_incr_refs s : decr_refs (incr_refs s) = s.
Proof. destruct s as [r f]. unfold decr_refs, incr_refs, set_val_refs. simpl. f_equal. lia. Qed.

Section Safety.
Context (b w : Z) (sw : fz_storable) (Hsw : val_refs sw ≠ 1).





End Safety.

(** ** Entries that a sweep evicts *)

Lemma wp_snd {A} (m : M A) (P : fz_context → Prop) c :
  wp m (λ _, P) P c → P (m c).2.
Proof. unfold wp. by destruct (m c) as [[a| |] c1]. Qed.



Section Evictable.
Context (c : fz_context) (l : list Z) (b : Z) (it : fz_item) (v : Z) (s : fz_storable).
Context (Hl : lru c l) (Hsound : sound c l) (Hb : b ∈ l).
Context (Hit : items c !! b = Some it) (Hv : item_val it = Some v).
Context (Hs : storables c !! v = Some s) (Hr : val_refs s = 1).


End Evictable.

(** ** The shape of the list *)

Lemma wp_of_snd {A} (m : M A) (P : fz_context → Prop) c :
  P (m c).2 → wp m (λ _, P) P c.
Proof. unfold wp. by destruct (m c) as [[a| |] c1]. Qed.

Lemma lru_lookup c l1 a l2 :
  lru c (l1 ++ a :: l2) →
  ∃ it, items c !! a = Some it ∧ item_prev it = last l1 ∧ item_next it = head l2.
Proof.
  intros (st & _ & _ & _ & _ & Hseg).
  apply seg_lookup in Hseg as (it & H1 & H2 & H3). exists it.
  split; [done|]. split.
  - rewrite H2. unfold last_or. by destruct (last l1).
  - rewrite H3. by destruct l2.
Qed.

Lemma lru_prev_in c l a it p :
  lru c l → a ∈ l → items c !! a = Some it → item_prev it = Some p → p ∈ l.
Proof.
  intros Hl Ha Hit Hp. apply list_elem_of_split in Ha as (l1 & l2 & ->).
  destruct (lru_lookup _ _ _ _ Hl) as (it' & Hit' & Hp' & _).
  assert (it' = it) as -> by congruence.
  rewrite Hp in Hp'. symmetry in Hp'. apply last_Some_elem_of in Hp'.
  apply elem_of_app. by left.
Qed.

Lemma lru_next_in c l a it n :
  lru c l → a ∈ l → items c !! a = Some it → item_next it = Some n → n ∈ l.
Proof.
  intros Hl Ha Hit Hn. apply list_elem_of_split in Ha as (l1 & l2 & ->).
  destruct (lru_lookup _ _ _ _ Hl) as (it' & Hit' & _ & Hn').
  assert (it' = it) as -> by congruence.
  rewrite Hn in Hn'. destruct l2 as [|m l2]; [done|]. injection Hn' as ->.
  set_solver.
Qed.

Lemma lru_head_in c l st a :
  lru c l → store c = Some st → store_head st = Some a → a ∈ l.
Proof.
  intros (st' & Hst & Hhd & _) Hst' Ha. assert (st' = st) as -> by congruence.
  rewrite Ha in Hhd. destruct l; [done|]. injection Hhd as ->. left.
Qed.

Lemma lru_tail_in c l st a :
  lru c l → store c = Some st → store_tail st = Some a → a ∈ l.
Proof.
  intros (st' & Hst & _ & Htl & _) Hst' Ha. assert (st' = st) as -> by congruence.
  rewrite Ha in Htl. symmetry in Htl. by apply last_Some_elem_of in Htl.
Qed.

Lemma lru_reachable c l a : lru c l → reachable c a ↔ a ∈ l.
Proof.
  intros Hl. split.
  - induction 1 as [st a Hst Hhd|a it b _ IH Hit Hn].
    + by eapply lru_head_in.
    + by eapply lru_next_in.
  - intros Ha. apply list_elem_of_split in Ha as (l1 & l2 & ->).
    revert a l2 Hl. induction l1 as [|p l0 IH] using rev_ind; intros a l2 Hl.
    + destruct Hl as (st & Hst & Hhd & _). by eapply reach_head.
    + rewrite <- app_assoc in Hl. simpl in Hl.
      destruct (lru_lookup _ _ _ _ Hl) as (it & Hit & _ & Hn).
      eapply reach_next; [by apply (IH p (a :: l2))|exact Hit|exact Hn].
Qed.

(** What the specification calls a well-formed doubly linked list, read off
    [lru]. *)
Lemma lru_shape c l :
  lru c l →
  (∀ st h, store c = Some st → store_head st = Some h →
           ∃ it, items c !! h = Some it ∧ item_prev it = None) ∧
  (∀ st t, store c = Some st → store_tail st = Some t →
           ∃ it, items c !! t = Some it ∧ item_next it = None) ∧
  (∀ a it n, reachable c a → items c !! a = Some it → item_next it = Some n →
             ∃ itn, items c !! n = Some itn ∧ item_prev itn = Some a) ∧
  (∀ a it p, reachable c a → items c !! a = Some it → item_prev it = Some p →
             ∃ itp, items c !! p = Some itp ∧ item_next itp = Some a).
Proof.
  intros Hl. repeat split.
  - intros st h Hst Hh. pose proof (lru_head_in _ _ _ _ Hl Hst Hh) as Hin.
    destruct Hl as (st' & Hst' & Hhd & _ & _ & Hseg).
    assert (st' = st) as -> by congruence. rewrite Hh in Hhd.
    destruct l as [|x l]; [done|]. injection Hhd as <-.
    destruct Hseg as (it & Hit & Hp & _). by exists it.
  - intros st t Hst Ht. pose proof Hl as (st' & Hst' & _ & Htl & _ & _).
    assert (st' = st) as -> by congruence. rewrite Ht in Htl. symmetry in Htl.
    apply last_Some in Htl as [l0 ->].
    destruct (lru_lookup _ _ _ _ Hl) as (it & Hit & _ & Hn). by exists it.
  - intros a it n Ha Hit Hn. apply (lru_reachable _ _ _ Hl) in Ha.
    apply list_elem_of_split in Ha as (l1 & l2 & ->).
    destruct (lru_lookup _ _ _ _ Hl) as (it' & Hit' & _ & Hn').
    assert (it' = it) as -> by congruence. rewrite Hn in Hn'.
    destruct l2 as [|m l2]; [done|]. injection Hn' as ->.
    replace (l1 ++ a :: m :: l2) with ((l1 ++ [a]) ++ m :: l2) in Hl
      by (by rewrite <- app_assoc).
    destruct (lru_lookup _ _ _ _ Hl) as (itm & Hitm & Hpm & _).
    exists itm. split; [done|]. by rewrite Hpm, last_snoc.
  - intros a it p Ha Hit Hp. apply (lru_reachable _ _ _ Hl) in Ha.
    apply list_elem_of_split in Ha as (l1 & l2 & ->).
    destruct (lru_lookup _ _ _ _ Hl) as (it' & Hit' & Hp' & _).
    assert (it' = it) as -> by congruence. rewrite Hp in Hp'. symmetry in Hp'.
    apply last_Some in Hp' as [l0 ->].
    rewrite <- app_assoc in Hl. simpl in Hl.
    destruct (lru_lookup _ _ _ _ Hl) as (itp & Hitp & _ & Hnp).
    by exists itp.
Qed.

(** ** The list under the capacity loops *)

Lemma shrunk_refl c l : lru c l → shrunk l c.
Proof. intros H. by exists l. Qed.

Lemma shrunk_trans l l' c : l' `sublist_of` l → shrunk l' c → shrunk l c.
Proof. intros Hs (l'' & Hs' & Hl). exists l''. split; [by etrans|done]. Qed.

Lemma sublist_drop_middle (l1 : list Z) a l2 : l1 ++ l2 `sublist_of` l1 ++ a :: l2.
Proof. apply sublist_app; [done|]. by apply sublist_cons. Qed.

(** Operations that write neither [head], [tail] nor an item keep the
    list. *)
Lemma pin_lru l prev : inv_pres (λ c, lru c l) (pin prev).
Proof. inv_go; lru_fin. Qed.

Lemma unpin_lru l prev : inv_pres (λ c, lru c l) (unpin prev).
Proof. inv_go; lru_fin. Qed.

Lemma ensure_space_free_lru fuel tofree : ∀ item count c l,
  lru c l → (∀ a, item = Some a → a ∈ l) →
  wp (ensure_space_free fuel tofree item count) (λ _, shrunk l) (shrunk l) c.
Proof.
  induction fuel as [|fuel IH]; intros item count c l Hl Hitem; simpl;
    [by apply shrunk_refl|].
  destruct item as [a|]; [|by apply shrunk_refl].
  specialize (Hitem a eq_refl).
  apply wp_bind, wp_read_item; [intros ita Hita|intros; by apply shrunk_refl].
  apply wp_bind, wp_read_item_val;
    [intros it v s Hit Hv Hs|intros; by apply shrunk_refl].
  assert (∀ c1, lru c1 l → items c1 !! a = Some ita →
                wp (ensure_space_free fuel tofree (item_prev ita) count)
                   (λ _, shrunk l) (shrunk l) c1) as Hskip.
  { intros c1 Hl1 Hita1. apply IH; [done|]. intros p Hp. by eapply lru_prev_in. }
  destruct (val_refs s =? 1); [|by apply Hskip].
  apply wp_bind, wp_read_item; [intros ? _|intros; by apply shrunk_refl].
  apply list_elem_of_split in Hitem as (l1 & l2 & ->).
  destruct (lru_lookup _ _ _ _ Hl) as (it' & Hit' & Hp' & _).
  assert (it' = ita) as -> by congruence.
  apply wp_bind.
  eapply wp_mono; [apply (wp_inv _ (λ c, lru c (l1 ++ a :: l2))); [apply pin_lru|done]|..];
    [|intros; by apply shrunk_refl].
  intros ? c1 Hl1. simpl. apply wp_bind.
  eapply wp_mono;
    [apply (wp_of_snd _ (λ c', lru c' (l1 ++ l2))); apply (evict_lru _ _ _ _ Hl1)|..].
  - intros ? c2 Hl2. simpl. apply wp_bind.
    eapply wp_mono; [apply (wp_inv _ (λ c, lru c (l1 ++ l2))); [apply unpin_lru|done]|..].
    + intros ? c3 Hl3. simpl.
      destruct (_ <=? _).
      * apply wp_ret. exists (l1 ++ l2). split; [apply sublist_drop_middle|done].
      * eapply wp_mono; [apply (IH _ _ _ (l1 ++ l2) Hl3)|..].
        -- intros p Hp. rewrite Hp' in Hp.
           apply last_Some_elem_of in Hp. apply elem_of_app. by left.
        -- intros ? ?. apply shrunk_trans, sublist_drop_middle.
        -- intros ?. apply shrunk_trans, sublist_drop_middle.
    + intros c3 Hl3. exists (l1 ++ l2). split; [apply sublist_drop_middle|done].
  - intros c2 Hl2. exists (l1 ++ l2). split; [apply sublist_drop_middle|done].
Qed.

Lemma ensure_space_lru fuel tofree c l :
  lru c l → wp (ensure_space fuel tofree) (λ _, shrunk l) (shrunk l) c.
Proof.
  intros Hl. unfold ensure_space.
  apply wp_bind, wp_read_store; [intros st Hst|intros; by apply shrunk_refl].
  apply wp_bind.
  eapply wp_mono;
    [apply (wp_inv _ (λ c', c' = c)); [apply ensure_space_check_ro|done]|..];
    [|intros ? ->; by apply shrunk_refl].
  intros [a|] ? ->; simpl; [|by apply shrunk_refl].
  apply wp_bind, wp_read_store; [intros st' Hst'|intros; by apply shrunk_refl].
  apply ensure_space_free_lru; [done|].
  intros b Hb. by eapply lru_tail_in.
Qed.

Lemma make_room_lru fuel inner size : ∀ c l,
  lru c l → wp (make_room fuel inner size) (λ _, shrunk l) (shrunk l) c.
Proof.
  induction fuel as [|fuel IH]; intros c l Hl; simpl; [by apply shrunk_refl|].
  apply wp_bind, wp_read_store; [intros st Hst|intros; by apply shrunk_refl].
  destruct (_ <? _); [|by apply shrunk_refl].
  apply wp_bind.
  eapply wp_mono; [by apply ensure_space_lru|..]; [|done].
  intros freed c1 (l1 & Hs1 & Hl1). simpl.
  destruct (_ =? _); [by exists l1|].
  eapply wp_mono; [by apply IH|..].
  - intros ? ?. by apply shrunk_trans.
  - intros ?. by apply shrunk_trans.
Qed.

Lemma reserve_lru fuel itemsize c l :
  lru c l → wp (reserve fuel itemsize) (λ _, shrunk l) (shrunk l) c.
Proof.
  intros Hl. unfold reserve.
  apply wp_bind, wp_read_store; [intros st Hst|intros; by apply shrunk_refl].
  destruct (negb _); [|by apply shrunk_refl].
  apply wp_bind, wp_read_store; [intros st' Hst'|intros; by apply shrunk_refl].
  by apply make_room_lru.
Qed.

(** ** The list under insertion, lookup and removal *)

(** *** Insertion *)

Lemma form_refkey_ro I indirect m key :
  inv_pres I m → inv_pres I (form_refkey indirect m key).
Proof. intros Hm. inv_go. exact Hm. Qed.

Lemma fill_item_lru l item key v sz :
  item ∉ l → inv_pres (λ c, lru c l) (fill_item item key v sz).
Proof. intros Hn. inv_go; lru_fin. Qed.

Lemma index_item_lru l indirect hash_ok rk item sz :
  item ∉ l → inv_pres (λ c, lru c l) (index_item indirect hash_ok rk item sz).
Proof. intros Hn. inv_go; lru_fin. Qed.

Lemma link_head_store_lru l item c :
  lru c l → item ∉ l →
  wp (link_head_store item) (λ _ c', lru c' (item :: l)) (λ c', lru c' l) c.
Proof.
  intros Hl Hn. destruct (items c !! item) as [it|] eqn:Hit.
  - destruct (link_head_store_spec _ _ _ _ Hl Hn Hit) as (c' & Heq & Hl' & _).
    by eapply wp_eq.
  - unfold link_head_store.
    apply wp_bind, wp_read_store; [intros st Hst|done].
    apply wp_bind, wp_write_item; [congruence|done].
Qed.

Lemma fz_store_item_body_lru fuel item hash_ok key v sz c l :
  lru c l → item ∉ l →
  wp (fz_store_item_body fuel (Some item) hash_ok key v sz)
     (λ _, inserted l item) (inserted l item) c.
Proof.
  intros Hl Hn.
  assert (∀ c', lru c' l → inserted l item c') as Hkeep.
  { intros c' H. exists l. split; [done|by left]. }
  assert (∀ l' c', l' `sublist_of` l → lru c' l' → inserted l item c') as Hsub.
  { intros l' c' H1 H2. exists l'. split; [done|by left]. }
  unfold fz_store_item_body.
  apply wp_bind, wp_read_obj; [intros o Ho|intros; by apply Hkeep].
  apply wp_bind.
  eapply wp_mono;
    [apply (wp_inv _ (λ c', c' = c)); [apply form_refkey_ro, inv_read_val|done]|..];
    [|intros ? ->; by apply Hkeep].
  intros rk ? ->. simpl.
  apply wp_bind, wp_fz_malloc_item, wp_bind, wp_fz_lock, wp_bind.
  match goal with |- wp _ _ _ ?c1 => set (c1' := c1) end.
  assert (lru c1' l) as Hl1.
  { eapply lru_ext; [| | |exact Hl]; subst c1'; simpl; try done.
    intros b Hb. rewrite lookup_insert_ne; [done|]. by intros ->. }
  eapply wp_mono; [by apply reserve_lru|..].
  2:{ intros c2 (l2 & Hs2 & Hl2). by eapply Hsub. }
  intros room c2 (l2 & Hs2 & Hl2). simpl.
  assert (item ∉ l2) as Hn2.
  { intros H. apply Hn. by eapply elem_of_sublist. }
  destruct room; simpl.
  - apply wp_bind.
    eapply wp_mono;
      [apply (wp_inv _ (λ c, lru c l2)); [by apply fill_item_lru|done]|..];
      [|intros; by eapply Hsub].
    intros ? c3 Hl3. simpl. apply wp_bind.
    eapply wp_mono;
      [apply (wp_inv _ (λ c, lru c l2)); [by apply index_item_lru|done]|..];
      [|intros; by eapply Hsub].
    intros indexed c4 Hl4. simpl.
    destruct indexed; simpl; [|by eapply Hsub].
    apply wp_bind.
    eapply wp_mono;
      [apply (wp_inv _ (λ c, lru c l2)); [apply inv_read_val|done]|..];
      [|intros; by eapply Hsub].
    intros r c5 Hl5. simpl. apply wp_bind.
    eapply wp_mono;
      [apply (wp_inv _ (λ c, lru c l2)); [|done]|..];
      [inv_go; lru_fin| |intros; by eapply Hsub].
    intros ? c6 Hl6. simpl. apply wp_bind.
    eapply wp_mono; [apply link_head_store_lru; [exact Hl6|exact Hn2]|..].
    2:{ intros c7 Hl7. by eapply Hsub. }
    intros ? c7 Hl7. simpl. apply wp_fz_unlock.
    exists l2. split; [done|]. right.
    eapply lru_ext; [| | |exact Hl7]; done.
  - apply wp_bind, wp_fz_unlock.
    apply wp_fz_free_item; [intros it Hit|intros _].
    + eapply Hsub; [done|]. eapply lru_ext; [| | |exact Hl2]; simpl; try done.
      intros b Hb. rewrite lookup_delete_ne; [done|]. by intros ->.
    + eapply Hsub; [done|]. eapply lru_ext; [| | |exact Hl2]; done.
Qed.

(** *** Lookup *)

Lemma scan_in_list c l free key fuel : ∀ item,
  lru c l → (∀ a, item = Some a → a ∈ l) →
  wp (scan fuel free key item)
     (λ found c', c' = c ∧ ∀ a, found = Some a → a ∈ l) (λ c', c' = c) c.
Proof.
  induction fuel as [|fuel IH]; intros item Hl Hitem; simpl; [done|].
  destruct item as [a|]; [|by apply wp_ret].
  specialize (Hitem a eq_refl).
  apply wp_bind, wp_read_item_val; [intros it v s Hit Hv Hs|done].
  apply wp_bind.
  eapply wp_mono; [apply (wp_inv _ (λ c', c' = c)); [inv_go|done]|..]; [|done].
  intros hit ? ->. simpl. destruct hit.
  - apply wp_ret. split; [done|]. by intros ? [= <-].
  - apply wp_bind, wp_read_item; [intros it' Hit'|done].
    apply IH; [done|]. intros n Hn. by eapply lru_next_in.
Qed.

Lemma lookup_item_in c l fuel indirect rk free key :
  lru c l → indexed c l →
  wp (lookup_item fuel indirect rk free key)
     (λ found c', c' = c ∧ ∀ a, found = Some a → a ∈ l) (λ c', c' = c) c.
Proof.
  intros Hl Hidx. unfold lookup_item. destruct indirect.
  - unfold fz_hash_find. apply wp_bind, wp_read_store; [intros st Hst|done].
    apply wp_ret. split; [done|]. intros a Ha. by eapply Hidx.
  - apply wp_bind, wp_read_store; [intros st Hst|done].
    apply scan_in_list; [done|]. intros a Ha. by eapply lru_head_in.
Qed.

Lemma take_ref_lru l item : inv_pres (λ c, lru c l) (take_ref item).
Proof. inv_go; lru_fin. Qed.

Lemma split_not_in (l1 : list Z) a l2 : NoDup (l1 ++ a :: l2) → a ∉ l1 ++ l2.
Proof.
  intros (_ & Hd & [Hn _]%NoDup_cons)%NoDup_app.
  apply not_elem_of_app. split; [|done]. intros H. apply (Hd _ H). left.
Qed.

Lemma fz_find_item_body_lru fuel free key c l :
  lru c l → indexed c l →
  wp (fz_find_item_body fuel free key)
     (λ r c', (r = None ∧ lru c' l) ∨ ∃ l', lru c' l' ∧ moved_to_front l l')
     (touched l) c.
Proof.
  intros Hl Hidx. unfold fz_find_item_body.
  apply wp_bind, wp_read_obj; [intros o Ho|intros; by left].
  apply wp_bind.
  eapply wp_mono;
    [apply (wp_inv _ (λ c', c' = c)); [apply form_refkey_ro, inv_ret|done]|..];
    [|intros ? ->; by left].
  intros rk ? ->. simpl. apply wp_bind, wp_fz_lock.
  set (c1 := with_lock true c).
  assert (lru c1 l) as Hl1 by (eapply lru_ext; [| | |exact Hl]; done).
  assert (indexed c1 l) as Hidx1 by done.
  apply wp_bind.
  eapply wp_mono; [by apply lookup_item_in|..]; [|intros ? ->; by left].
  intros [a|] ? [-> Hin]; simpl.
  - specialize (Hin a eq_refl). apply list_elem_of_split in Hin as (l1 & l2 & ->).
    destruct (unlink_spec _ _ _ _ Hl1) as (c2 & Hun & Hl2 & _ & Ha2 & _).
    destruct (lru_lookup _ _ _ _ Hl1) as (it & Hit & _).
    rewrite Hit in Ha2.
    pose proof (split_not_in _ _ _ (lru_NoDup _ _ Hl1)) as Hn.
    destruct (link_head_find_spec _ _ _ _ Hl2 Hn Ha2) as (c3 & Hlk & Hl3 & _).
    apply wp_bind. eapply wp_eq; [exact Hun|].
    apply wp_bind. eapply wp_eq; [exact Hlk|].
    assert (moved_to_front (l1 ++ a :: l2) (a :: l1 ++ l2)) as Hmv by (by exists l1, a, l2).
    eapply wp_mono; [apply (wp_inv _ (λ c, lru c (a :: l1 ++ l2))); [apply take_ref_lru|done]|..].
    + intros r c4 Hl4. right. by exists (a :: l1 ++ l2).
    + intros c4 Hl4. right. by exists (a :: l1 ++ l2).
  - apply wp_bind, wp_fz_unlock. apply wp_ret. left. split; [done|].
    eapply lru_ext; [| | |exact Hl1]; done.
Qed.

(** *** Removal *)

Lemma lookup_remove_in c l fuel indirect rk free key :
  lru c l → indexed c l →
  wp (lookup_remove fuel indirect rk free key)
     (λ found c', lru c' l ∧ ∀ a, found = Some a → a ∈ l) (λ c', lru c' l) c.
Proof.
  intros Hl Hidx. unfold lookup_remove. destruct indirect.
  - apply wp_bind. unfold fz_hash_find.
    apply wp_bind, wp_read_store; [intros st Hst|done].
    apply wp_ret, wp_bind.
    eapply wp_mono; [apply (wp_inv _ (λ c, lru c l)); [|done]|..]; [|simpl|done].
    + destruct (store_hash st !! rk); inv_go; lru_fin.
    + intros ? c1 Hl1. apply wp_ret. split; [done|]. intros b Hb. by eapply Hidx.
  - apply wp_bind, wp_read_store; [intros st Hst|done].
    eapply wp_mono; [apply scan_in_list; [done|]|..].
    + intros a Ha. by eapply lru_head_in.
    + by intros ? ? [-> ?].
    + by intros ? ->.
Qed.

Lemma release_lru a l : a ∉ l → inv_pres (λ c, lru c l) (release a).
Proof. intros Ha. inv_go; lru_fin. Qed.

Lemma fz_remove_item_lru fuel free key c l :
  lru c l → indexed c l →
  wp (fz_remove_item fuel free key) (λ _, removed l) (removed l) c.
Proof.
  intros Hl Hidx. unfold fz_remove_item.
  apply wp_bind, wp_read_obj; [intros o Ho|intros; by left].
  apply wp_bind.
  eapply wp_mono;
    [apply (wp_inv _ (λ c', c' = c)); [apply form_refkey_ro, inv_ret|done]|..];
    [|intros ? ->; by left].
  intros rk ? ->. simpl. apply wp_bind, wp_fz_lock.
  set (c1 := with_lock true c).
  assert (lru c1 l) as Hl1 by (eapply lru_ext; [| | |exact Hl]; done).
  assert (indexed c1 l) as Hidx1 by done.
  apply wp_bind.
  eapply wp_mono; [by apply lookup_remove_in|..]; [|intros; by left].
  intros [a|] c2 [Hl2 Hin]; simpl.
  - specialize (Hin a eq_refl). apply list_elem_of_split in Hin as (l1 & l2 & ->).
    destruct (unlink_spec _ _ _ _ Hl2) as (c3 & Hun & Hl3 & _).
    pose proof (split_not_in _ _ _ (lru_NoDup _ _ Hl2)) as Hn.
    apply wp_bind. eapply wp_eq; [exact Hun|].
    eapply wp_mono; [apply (wp_inv _ (λ c, lru c (l1 ++ l2))); [by apply release_lru|done]|..].
    + intros r c4 Hl4. right. exists l1, a, l2. split; [done|]. split; [done|].
      by rewrite (lru_reachable _ _ a Hl4).
    + intros c4 Hl4. right. exists l1, a, l2. split; [done|]. split; [done|].
      by rewrite (lru_reachable _ _ a Hl4).
  - apply wp_fz_unlock. left. eapply lru_ext; [| | |exact Hl2]; done.
Qed.

(** ** Insertion when there is room *)

Lemma reserve_room fuel st itemsize c :
  store c = Some st → has_room st itemsize →
  reserve (S fuel) itemsize c = (Done true, c).
Proof.
  intros Hst Hroom.
  destruct (negb (store_max st =? FZ_STORE_UNLIMITED)) eqn:E.
  - destruct Hroom as [Hu|Hle].
    { rewrite Hu in E. done. }
    apply Z.ltb_ge in Hle. exec.
  - exec.
Qed.

Lemma wp_total {A} (m : M A) Q c :
  wp m Q (λ _, False) c → ∃ a c', m c = (Done a, c') ∧ Q a c'.
Proof. unfold wp. destruct (m c) as [[a| |] c1]; [by exists a, c1|done..]. Qed.

Ltac wp_run := apply wp_bind; eapply wp_eq; [exec|]; cbv beta.

Lemma fz_store_item_links fuel item hash_ok key v sz c l st o s :
  lru c l → store c = Some st →
  items c !! item = None → objs c !! key = Some o → storables c !! v = Some s →
  has_room st sz → (is_indirect o = true → hash_ok = true) →
  ∃ c', fz_store_item (S fuel) (Some item) hash_ok key v sz c = (Done tt, c') ∧
        lru c' (item :: l) ∧
        items c' !! item = Some (Item (Some key) (Some v) sz (head l) None) ∧
        store_size <$> store c' = Some (wrap (store_size st + sz)) ∧
        storables c' !! v = Some (if 0 <? val_refs s then incr_refs s else s) ∧
        objs c' !! key = Some (set_obj_refs (obj_refs o + 1) o).
Proof.
  intros Hl Hst Hit Ho Hs Hroom Hok.
  assert (item ∉ l) as Hn.
  { intros H. destruct (lru_allocated _ _ _ Hl H) as [? ?]. congruence. }
  unfold fz_store_item. rewrite Hst.
  match goal with
  | |- ∃ c', ?m c = (Done tt, c') ∧ @?Q c' =>
      destruct (wp_total m (λ _, Q) c) as ([] & c' & Hrun & HQ); [|by exists c']
  end.
  unfold fz_store_item_body.
  assert (∀ c2, lru c2 l →
            items c2 !! item = Some (Item (Some key) (Some v) sz None None) →
            store_size <$> store c2 = Some (wrap (store_size st + sz)) →
            storables c2 !! v = Some (if 0 <? val_refs s then incr_refs s else s) →
            objs c2 !! key = Some (set_obj_refs (obj_refs o + 1) o) →
            wp (link_head_store item;; fz_unlock)
              (λ _ c', lru c' (item :: l) ∧
                 items c' !! item = Some (Item (Some key) (Some v) sz (head l) None) ∧
                 store_size <$> store c' = Some (wrap (store_size st + sz)) ∧
                 storables c' !! v = Some (if 0 <? val_refs s then incr_refs s else s) ∧
                 objs c' !! key = Some (set_obj_refs (obj_refs o + 1) o))
              (λ _, False) c2) as Hlink.
  { intros c2 Hl2 Hit2 Hsz2 Hs2 Ho2.
    destruct (link_head_store_spec _ _ _ _ Hl2 Hn Hit2) as (c3 & Hlk & Hl3 & Hrel & _).
    destruct Hrel as (Hsto & Hobj & _ & _ & Hsr & Hcore).
    apply wp_bind. eapply wp_eq; [exact Hlk|]. apply wp_fz_unlock.
    split; [|split; [|split; [|split]]]; simpl.
    - eapply lru_ext; [| | |exact Hl3]; done.
    - destruct Hl3 as (st3 & _ & _ & _ & _ & Hseg).
      destruct Hseg as (it3 & H3 & Hp3 & Hn3 & _).
      specialize (Hcore item). rewrite H3, Hit2 in Hcore. simpl in Hcore.
      destruct it3 as [k3 v3 z3 n3 p3]. unfold item_core in Hcore. simpl in *.
      injection Hcore as -> -> ->. subst. by destruct l.
    - rewrite <- Hsz2. destruct (store c3) as [st3|], (store c2) as [st2|];
        simpl in *; try done. by injection Hsr as _ _ _ ->.
    - by rewrite Hsto.
    - by rewrite Hobj. }
  destruct o as [orf [num gen|content]], s as [sr sf]; simpl in Hok;
    rewrite ?(Hok eq_refl); destruct (0 <? sr) eqn:Er;
    (wp_run; wp_run;
     apply wp_bind, wp_fz_malloc_item, wp_bind, wp_fz_lock;
     apply wp_bind; eapply wp_eq; [by apply (reserve_room _ st)|]; cbv beta;
     cbn [negb]; wp_run; wp_run; cbn [negb]; wp_run; wp_run;
     apply Hlink; simpl; rewrite ?Er, ?lookup_insert_eq, ?Hst; try done;
     eapply lru_ext; [| | |exact Hl]; simpl; rewrite ?Hst; try done;
     intros b Hb; rewrite !lookup_insert_ne; [done|..]; by intros ->).
Qed.

(** ** Where the code departs from the specification *)

(** *** The capacity loop *)

Ltac max_fin := intros; simpl; use_store; done.

Lemma ensure_space_free_max x fuel tofree : ∀ item count,
  inv_pres (λ c, store_max <$> store c = x) (ensure_space_free fuel tofree item count).
Proof.
  induction fuel as [|fuel IH]; intros item count; simpl; [apply inv_out_of_fuel|].
  inv_go; first [apply IH | max_fin].
Qed.

Lemma ensure_space_max x fuel tofree :
  inv_pres (λ c, store_max <$> store c = x) (ensure_space fuel tofree).
Proof.
  unfold ensure_space. inv_go;
    first [apply ensure_space_check_ro | apply ensure_space_free_max].
Qed.

(** The loop never ends through its condition once it has been entered:
    [size] is not updated, and [store->max] is not written. *)
Lemma make_room_true fuel inner size : ∀ c c',
  make_room fuel inner size c = (Done true, c') →
  c' = c ∧ ∃ st, store c = Some st ∧ size ≤ store_max st.
Proof.
  induction fuel as [|fuel IH]; intros c c' Hrun; simpl in Hrun; [done|].
  unfold bind at 1, read_store at 1 in Hrun.
  destruct (store c) as [st|] eqn:Hst; [|done].
  destruct (Z.ltb_spec (store_max st) size) as [Hlt|Hge].
  - exfalso. unfold bind in Hrun.
    pose proof (ensure_space_max (Some (store_max st)) inner (wrap (size - store_max st)) c)
      as Hmax.
    destruct (ensure_space inner (wrap (size - store_max st)) c) as [[freed| |] c1];
      [|done..].
    simpl in Hmax. rewrite Hst in Hmax. specialize (Hmax eq_refl).
    destruct (freed =? 0); [done|].
    apply IH in Hrun as [-> (st1 & Hst1 & Hle)].
    rewrite Hst1 in Hmax. simpl in Hmax. injection Hmax as Hmax. lia.
  - injection Hrun as <-. split; [done|]. by exists st.
Qed.

Lemma reserve_true fuel itemsize c c' :
  reserve fuel itemsize c = (Done true, c') →
  c' = c ∧ ∃ st, store c = Some st ∧ has_room st itemsize.
Proof.
  unfold reserve. unfold bind at 1, read_store at 1.
  destruct (store c) as [st|] eqn:Hst; [|done].
  destruct (Z.eqb_spec (store_max st) FZ_STORE_UNLIMITED) as [Hu|Hb]; simpl.
  - intros [= <-]. split; [done|]. exists st. split; [done|by left].
  - unfold bind at 1, read_store at 1. rewrite Hst.
    intros [-> (st' & Hst' & Hle)]%make_room_true. split; [done|].
    exists st. split; [done|]. right. congruence.
Qed.

Lemma reserve_overflow fuel sz c l st :
  lru c l → store c = Some st → ¬ has_room st sz →
  wp (reserve fuel sz) (λ room c', room = false ∧ shrunk l c') (shrunk l) c.
Proof.
  intros Hl Hst Hroom. pose proof (reserve_lru fuel sz c l Hl) as H.
  unfold wp in *.
  destruct (reserve fuel sz c) as [[[|]| |] c2] eqn:Hres; try done.
  apply reserve_true in Hres as [_ (st' & Hst' & Hr)]. congruence.
Qed.

(** An insertion that does not fit is never linked, whatever could be
    evicted for it. *)
Lemma fz_store_item_body_overflow fuel item hash_ok key v sz c l st :
  lru c l → item ∉ l → store c = Some st → ¬ has_room st sz →
  wp (fz_store_item_body fuel (Some item) hash_ok key v sz)
     (λ _, shrunk l) (shrunk l) c.
Proof.
  intros Hl Hn Hst Hroom. unfold fz_store_item_body.
  apply wp_bind, wp_read_obj; [intros o Ho|intros; by apply shrunk_refl].
  apply wp_bind.
  eapply wp_mono;
    [apply (wp_inv _ (λ c', c' = c)); [apply form_refkey_ro, inv_read_val|done]|..];
    [|intros ? ->; by apply shrunk_refl].
  intros rk ? ->. simpl.
  apply wp_bind, wp_fz_malloc_item, wp_bind, wp_fz_lock, wp_bind.
  match goal with |- wp _ _ _ ?c1 => set (c1' := c1) end.
  assert (lru c1' l) as Hl1.
  { eapply lru_ext; [| | |exact Hl]; subst c1'; simpl; try done.
    intros b Hb. rewrite lookup_insert_ne; [done|]. by intros ->. }
  eapply wp_mono; [by apply (reserve_overflow fuel sz c1' l st)|..]; [|done].
  intros room c2 [-> (l2 & Hs2 & Hl2)]. simpl.
  apply wp_bind, wp_fz_unlock.
  assert (item ∉ l2) as Hn2 by (intros H; apply Hn; by eapply elem_of_sublist).
  apply wp_fz_free_item; [intros it Hit|intros _].
  - exists l2. split; [done|]. eapply lru_ext; [| | |exact Hl2]; simpl; try done.
    intros b Hb. rewrite lookup_delete_ne; [done|]. by intros ->.
  - exists l2. split; [done|]. eapply lru_ext; [| | |exact Hl2]; done.
Qed.

(** *** The unguarded decrement *)

Lemma bind_fault {A B} (m : M A) (k : A → M B) c c1 :
  m c = (Fault, c1) → bind m k c = (Fault, c1).
Proof. intros H. unfold bind. by rewrite H. Qed.

Lemma ensure_space_free_head_faults fuel tofree count c b l it v s :
  lru c (b :: l) → sound c (b :: l) →
  items c !! b = Some it → item_val it = Some v →
  storables c !! v = Some s → val_refs s = 1 →
  ∃ c', ensure_space_free (S fuel) tofree (Some b) count c = (Fault, c') ∧
        items c' !! b = None ∧ lru c' l.
Proof.
  intros Hl Hsound Hit Hv Hs Hr.
  destruct (Hsound b) as (it' & v' & s' & k & o & Hit' & _ & _ & Hk & Ho); [left|].
  assert (it' = it) as -> by congruence.
  destruct (lru_lookup c [] b l Hl) as (it' & Hit'' & Hp & _).
  assert (it' = it) as -> by congruence. simpl in Hp.
  destruct (evict_frees c [] b l it v s k o Hl Hit Hv Hk Hs Ho)
    as (c' & Hev & Hl' & Hfree & _).
  exists c'. split; [|done].
  destruct it as [ik iv isz inx ipv], s as [sr sf]. simpl in *. subst.
  cbn [ensure_space_free].
  eapply bind_eq; [exec|]. eapply bind_eq; [exec|]. cbv beta.
  cbn [val_refs Z.eqb Pos.eqb].
  eapply bind_eq; [exec|]. eapply bind_eq; [reflexivity|].
  eapply bind_eq; [exact Hev|]. reflexivity.
Qed.

(** *** The size is not written by a removal *)

Lemma scan_ro I fuel free key : ∀ item, inv_pres I (scan fuel free key item).
Proof.
  induction fuel as [|fuel IH]; intros item; simpl; [apply inv_out_of_fuel|].
  inv_go. apply IH.
Qed.

Lemma fz_remove_item_size x fuel free key :
  inv_pres (λ c, store_size <$> store c = x) (fz_remove_item fuel free key).
Proof.
  unfold fz_remove_item. inv_go; first [apply scan_ro | max_fin].
Qed.

(** *** The handler of a failed index insert *)

Lemma wrap_add_sub a b : 0 ≤ a ≤ UINT_MAX → wrap (wrap (a + b) - b) = a.
Proof.
  intros H. unfold wrap. rewrite Zminus_mod_idemp_l.
  replace (a + b - b) with a by lia. apply Z.mod_small. unfold UINT_MAX in *. lia.
Qed.

Lemma fz_store_item_index_failure fuel item key v sz c st o s :
  store c = Some st → 0 ≤ store_size st ≤ UINT_MAX →
  items c !! item = None → objs c !! key = Some o → is_indirect o = true →
  storables c !! v = Some s → has_room st sz →
  ∃ c', fz_store_item (S fuel) (Some item) false key v sz c = (Done tt, c') ∧
        store c' = store c ∧ items c' = items c ∧ storables c' = storables c ∧
        objs c' = <[key := set_obj_refs (obj_refs o + 1) o]> (objs c).
Proof.
  intros Hst Hsz Hit Ho Hind Hs Hroom.
  unfold fz_store_item. rewrite Hst.
  match goal with
  | |- ∃ c', ?m c = (Done tt, c') ∧ @?Q c' =>
      destruct (wp_total m (λ _, Q) c) as ([] & c' & Hrun & HQ); [|by exists c']
  end.
  unfold fz_store_item_body.
  destruct o as [orf [num gen|content]], s as [sr sf]; [|done].
  wp_run. wp_run.
  apply wp_bind, wp_fz_malloc_item, wp_bind, wp_fz_lock.
  apply wp_bind; eapply wp_eq; [by apply (reserve_room _ st)|]; cbv beta.
  cbn [negb]. wp_run. wp_run. cbn [negb]. apply wp_ret. simpl.
  rewrite wrap_add_sub by done. repeat split.
  - by destruct st.
  - rewrite !insert_insert_eq. rewrite delete_insert_eq. by apply delete_id.
Qed.

(** ** Phases in which nothing is scavenged *)

Lemma phase_max_bounds p smax ssize :
  0 ≤ p ≤ 16 → 0 ≤ smax ≤ UINT_MAX → 0 ≤ ssize ≤ UINT_MAX →
  0 ≤ phase_max p smax ssize ≤ UINT_MAX ∧
  (0 < phase_max p smax ssize → p < 16) ∧
  (if smax =? FZ_STORE_UNLIMITED then phase_max p smax ssize ≤ ssize
   else phase_max p smax ssize ≤ smax).
Proof.
  intros Hp Hm Hs. rewrite phase_max_exact by done.
  destruct (Z.eqb_spec p 16) as [->|Hne].
  - destruct (smax =? FZ_STORE_UNLIMITED); unfold UINT_MAX in *; lia.
  - pose proof (div_mul_le ssize (16 - p) (15 - p)).
    pose proof (div_mul_le smax 16 (16 - p)).
    destruct (smax =? FZ_STORE_UNLIMITED); lia.
Qed.

Lemma scavenge_phases_skipped inner size c st :
  store c = Some st →
  0 ≤ store_max st ≤ UINT_MAX → 0 ≤ store_size st ≤ UINT_MAX →
  0 ≤ size → size + store_size st ≤ UINT_MAX → over_ceiling st size →
  ∀ fuel phase, 0 ≤ phase ≤ 16 → (Z.to_nat (17 - phase) ≤ fuel)%nat →
  ∃ p', scavenge_phases fuel inner size phase c = (Done (false, p'), c).
Proof.
  intros Hst Hm Hs Hsz Hsum Hover.
  induction fuel as [|fuel IH]; intros phase Hp Hfuel; [lia|].
  cbn [scavenge_phases].
  destruct (phase_max_bounds phase (store_max st) (store_size st) Hp Hm Hs)
    as (Hb & Hlt & Hle).
  assert (phase_tofree size (store_size st) (phase_max phase (store_max st) (store_size st))
          = None) as Htf.
  { rewrite phase_tofree_cases by lia.
    destruct (Z.ltb_spec UINT_MAX (size + store_size st)); [lia|].
    unfold over_ceiling in Hover.
    destruct (store_max st =? FZ_STORE_UNLIMITED);
      destruct (Z.ltb_spec (phase_max phase (store_max st) (store_size st))
                  (size + store_size st)); try done; lia. }
  destruct (Z.ltb_spec 0 (phase_max phase (store_max st) (store_size st))) as [Hpos|Hzero].
  - destruct (IH (phase + 1)) as [p' Hrec]; [lia|lia|].
    exists p'.
    eapply bind_eq; [exec|]. eapply bind_eq; [exec|]. cbv beta zeta.
    eapply bind_eq; [exec|]. cbv beta. rewrite Htf.
    destruct (Z.ltb_spec 0 (phase_max phase (store_max st) (store_size st))); [|lia].
    exact Hrec.
  - exists (phase + 1).
    eapply bind_eq; [exec|]. eapply bind_eq; [exec|]. cbv beta zeta.
    eapply bind_eq; [exec|]. cbv beta. rewrite Htf.
    destruct (Z.ltb_spec 0 (phase_max phase (store_max st) (store_size st))); [lia|].
    reflexivity.
Qed.

Lemma fz_store_scavenge_skipped size c st phase fuel :
  store c = Some st →
  0 ≤ store_max st ≤ UINT_MAX → 0 ≤ store_size st ≤ UINT_MAX →
  0 ≤ size → size + store_size st ≤ UINT_MAX → over_ceiling st size →
  0 ≤ phase ≤ 16 → (17 ≤ fuel)%nat →
  ∃ p', fz_store_scavenge fuel size phase c = (Done (false, p'), c).
Proof.
  intros Hst Hm Hs Hsz Hsum Hover Hp Hfuel.
  unfold fz_store_scavenge. rewrite Hst.
  eapply scavenge_phases_skipped; try done. lia.
Qed.

(** ** The scenarios of the specification *)

(** The state the scenario starts from, spelled out. *)
Example capacity_scenario_state :
  capacity_scenario =
    Context (Some (Store 1 (Some 100) (Some 100) ∅ 100 60))
      {[100 := Item (Some 10) (Some 1) 60 None None]}
      {[1 := Storable 1 11; 2 := Storable 1 11; 3 := Storable 1 11]}
      {[10 := Obj 2 (Opaque 5); 20 := Obj 1 (Opaque 6); 30 := Obj 1 (Opaque 7)]}
      false [].
Proof. vm_compute. reflexivity. Qed.

(** C1.  In the scenario of the specification (capacity 100, one
    60-byte entry X that only the store references, a 60-byte entry Y to
    store), [fz_store_item] evicts X and then faults in [ensure_space],
    on the decrement through the NULL predecessor of X: nothing is left
    linked, the size is 0 and Y is not stored.  With a pinned 10-byte
    entry Z in front of X the eviction of X returns, the loop of
    [fz_store_item] runs again with the same [size], finds nothing more
    to evict and abandons Y, although 10 + 60 now fits in 100 (see
    [make_room_true] and [fz_store_item_body_overflow] for the general
    statement). *)
Theorem store_item_cannot_make_room :
  (let r := fz_store_item 4 (Some 101) true 20 2 60 capacity_scenario in
   r.1 = Fault ∧ items r.2 !! 100 = None ∧
   store_head <$> store r.2 = Some None ∧ store_size <$> store r.2 = Some 0) ∧
  (let r := fz_store_item 4 (Some 101) true 20 2 60 pinned_scenario in
   r.1 = Done tt ∧ items r.2 !! 100 = None ∧ items r.2 !! 101 = None ∧
   store_head <$> store r.2 = Some (Some 102) ∧
   store_size <$> store r.2 = Some 10 ∧ store_max <$> store r.2 = Some 100).
Proof. vm_compute. repeat split. Qed.

(** C4.  Pass 2 of [ensure_space] on a list whose evictable entry is
    the head: the entry is evicted and the decrement of
    [prev->val->refs] then goes through the NULL predecessor, which is a
    fault (see [ensure_space_free_head_faults] for every such list).
    With a predecessor (entry 102 in front of entry 100) the increment
    and the decrement are balanced: its count is the same afterwards. *)
Theorem ensure_space_unpins_through_null :
  (let r := ensure_space 4 20 capacity_scenario in
   r.1 = Fault ∧ items r.2 !! 100 = None ∧ store_head <$> store r.2 = Some None) ∧
  (let r := ensure_space 4 20 pinned_scenario in
   r.1 = Done 60 ∧ items r.2 !! 100 = None ∧
   storables r.2 !! 3 = storables pinned_scenario !! 3).
Proof. vm_compute. repeat split. Qed.

(** C2.  With capacity 160, 100 bytes in the store and 100 bytes
    requested, the specification wants 40 bytes freed in phase 0; the
    test of [fz_store_scavenge] takes the [continue] there and in every
    later phase, nothing is evicted and the scavenger reports failure
    (see [fz_store_scavenge_skipped] for every such request).  With 10
    bytes requested, where the specification wants nothing freed in
    phase 0, the sweep is run with the wrapped target 4294967246 and
    evicts the entry. *)
Theorem scavenge_skips_when_over_ceiling :
  phase_max 0 160 100 = 160 ∧
  phase_tofree 100 100 160 = None ∧ Z.max 0 (100 + 100 - 160) = 40 ∧
  fz_store_scavenge 17 100 0 pressure_scenario = (Done (false, 17), pressure_scenario) ∧
  phase_tofree 10 100 160 = Some 4294967246 ∧ Z.max 0 (10 + 100 - 160) = 0 ∧
  (let r := fz_store_scavenge 17 10 0 pressure_scenario in
   r.1 = Done (true, 1) ∧ items r.2 !! 100 = None).
Proof. vm_compute. repeat split. Qed.

(** C3.  After the 100-byte entry under (7, 0) is removed with
    [fz_remove_item] the list is empty and no item is left, but the size
    of the store is still 100 (see [fz_remove_item_size]: the removal
    never writes the size); [evict] on the same entry does subtract
    it. *)
Theorem remove_item_keeps_size :
  (store_size <$> store stored_scenario = Some 100 ∧
   store_head <$> store stored_scenario = Some (Some 100)) ∧
  (let r := fz_remove_item 4 501 70 stored_scenario in
   r.1 = Done tt ∧ store_head <$> store r.2 = Some None ∧ items r.2 = ∅ ∧
   store_size <$> store r.2 = Some 100) ∧
  (let r := evict 100 stored_scenario in
   r.1 = Done tt ∧ store_head <$> store r.2 = Some None ∧ items r.2 = ∅ ∧
   store_size <$> store r.2 = Some 0).
Proof. vm_compute. repeat split. Qed.

(** C5.  When the index insert fails, the size, the items and the
    count of the value are as before the call, but the count of the key,
    raised by [fz_keep_obj], stays raised although no entry holds the key
    (see [fz_store_item_index_failure] for every such call).  The same
    key stored and then removed ends with the count it started with. *)
Theorem index_failure_leaks_key :
  obj_refs <$> objs unbounded_scenario !! 70 = Some 1 ∧
  (let r := fz_store_item 4 (Some 100) false 70 1 100 unbounded_scenario in
   r.1 = Done tt ∧ store r.2 = store unbounded_scenario ∧ items r.2 = ∅ ∧
   storables r.2 = storables unbounded_scenario ∧
   obj_refs <$> objs r.2 !! 70 = Some 2) ∧
  (let r := (fz_store_item 4 (Some 100) true 70 1 100;;
             fz_remove_item 4 501 70) unbounded_scenario in
   r.1 = Done tt ∧ items r.2 = ∅ ∧ obj_refs <$> objs r.2 !! 70 = Some 1).
Proof. vm_compute. repeat split. Qed.

(** ** Two products of one reference *)

(** *** The indexed paths of the lookup and of the removal *)

Lemma fz_find_item_indirect fuel free key c st r n g :
  store c = Some st → objs c !! key = Some (Obj r (Indirect n g)) →
  fz_find_item fuel free (Some key) c =
    match store_hash st !! (free, n, g) with
    | Some item => (unlink item;; link_head_find item;; take_ref item) (with_lock true c)
    | None => (Done None, with_lock false c)
    end.
Proof.
  intros Hst Ho. unfold fz_find_item. rewrite Hst.
  unfold fz_find_item_body.
  eapply bind_eq; [exec|]. eapply bind_eq; [exec|]. eapply bind_eq; [exec|].
  eapply bind_eq; [unfold lookup_item; exec|].
  cbn beta iota. destruct (store_hash st !! (free, n, g)); reflexivity.
Qed.

Lemma fz_remove_item_indirect fuel free key c st r n g :
  store c = Some st → objs c !! key = Some (Obj r (Indirect n g)) →
  fz_remove_item fuel free key c =
    match store_hash st !! (free, n, g) with
    | Some item =>
        (unlink item;; release item)
          (with_store (Some (set_store_hash (delete (free, n, g) (store_hash st)) st))
             (with_lock true c))
    | None => (Done tt, with_lock false c)
    end.
Proof.
  intros Hst Ho. unfold fz_remove_item.
  eapply bind_eq; [exec|]. eapply bind_eq; [exec|]. eapply bind_eq; [exec|].
  cbn beta iota. unfold lookup_remove.
  destruct (store_hash st !! (free, n, g)) as [item|] eqn:Hh.
  - eapply bind_eq.
    { eapply bind_eq; [exec|]. cbn beta iota. rewrite Hh.
      eapply bind_eq; [exec|reflexivity]. }
    reflexivity.
  - eapply bind_eq.
    { eapply bind_eq; [exec|]. cbn beta iota. rewrite Hh. reflexivity. }
    reflexivity.
Qed.

(** *** The scenario *)

Lemma products_stored T U :
  (fz_store_item 4 (Some 100) true 70 1 100;;
   fz_store_item 4 (Some 101) true 70 2 50) (products_scenario T U) =
  (Done tt,
   products_state T U (Some 101) (Some 100)
     (<[(U, 7, 0) := 101]> {[(T, 7, 0) := 100]})
     {[100 := Item (Some 70) (Some 1) 100 None (Some 101);
       101 := Item (Some 70) (Some 2) 50 (Some 100) None]} 2 2 3).
Proof. vm_compute. reflexivity. Qed.

Lemma products_found T U :
  T ≠ U →
  fz_find_item 4 T (Some 70)
    (products_state T U (Some 101) (Some 100)
       (<[(U, 7, 0) := 101]> {[(T, 7, 0) := 100]})
       {[100 := Item (Some 70) (Some 1) 100 None (Some 101);
         101 := Item (Some 70) (Some 2) 50 (Some 100) None]} 2 2 3) =
  (Done (Some 1),
   products_state T U (Some 100) (Some 101)
     (<[(U, 7, 0) := 101]> {[(T, 7, 0) := 100]})
     {[100 := Item (Some 70) (Some 1) 100 (Some 101) None;
       101 := Item (Some 70) (Some 2) 50 None (Some 100)]} 3 2 3).
Proof.
  intros Hne. erewrite fz_find_item_indirect by reflexivity. cbn [store_hash].
  rewrite lookup_insert_ne by congruence. rewrite lookup_singleton_eq.
  vm_compute. reflexivity.
Qed.

Lemma products_removed T U :
  T ≠ U →
  fz_remove_item 4 U 70
    (products_state T U (Some 100) (Some 101)
       (<[(U, 7, 0) := 101]> {[(T, 7, 0) := 100]})
       {[100 := Item (Some 70) (Some 1) 100 (Some 101) None;
         101 := Item (Some 70) (Some 2) 50 None (Some 100)]} 3 2 3) =
  (Done tt,
   products_state T U (Some 100) (Some 100) {[(T, 7, 0) := 100]}
     {[100 := Item (Some 70) (Some 1) 100 None None]} 3 1 2).
Proof.
  intros Hne. erewrite fz_remove_item_indirect by reflexivity. cbn [store_hash].
  rewrite lookup_insert_eq, delete_insert_id
    by (rewrite lookup_singleton_ne by congruence; done).
  vm_compute. reflexivity.
Qed.

Lemma products_missing T U :
  T ≠ U →
  fz_find_item 4 U (Some 70)
    (products_state T U (Some 100) (Some 100) {[(T, 7, 0) := 100]}
       {[100 := Item (Some 70) (Some 1) 100 None None]} 3 1 2) =
  (Done None,
   products_state T U (Some 100) (Some 100) {[(T, 7, 0) := 100]}
     {[100 := Item (Some 70) (Some 1) 100 None None]} 3 1 2).
Proof.
  intros Hne. erewrite fz_find_item_indirect by reflexivity. cbn [store_hash].
  rewrite lookup_singleton_ne by congruence. reflexivity.
Qed.

Lemma products_kept T U :
  fz_find_item 4 T (Some 70)
    (products_state T U (Some 100) (Some 100) {[(T, 7, 0) := 100]}
       {[100 := Item (Some 70) (Some 1) 100 None None]} 3 1 2) =
  (Done (Some 1),
   products_state T U (Some 100) (Some 100) {[(T, 7, 0) := 100]}
     {[100 := Item (Some 70) (Some 1) 100 None None]} 4 1 2).
Proof.
  erewrite fz_find_item_indirect by reflexivity. cbn [store_hash].
  rewrite lookup_singleton_eq. vm_compute. reflexivity.
Qed.

(** C7.  The first scenario of the specification, for any two different
    destructors [T] and [U]: in an unbounded store, value 1 (destructor
    [T], 100 bytes) and value 2 (destructor [U], 50 bytes) are stored
    under the same reference (7, 0).  Both entries are indexed and
    linked; the lookup of (7, 0, [T]) returns value 1; after the removal
    of (7, 0, [U]) its lookup returns NULL and the lookup of (7, 0, [T])
    still returns value 1. *)
Theorem two_products_of_one_reference (T U : Z) :
  T ≠ U →
  let r1 := (fz_store_item 4 (Some 100) true 70 1 100;;
             fz_store_item 4 (Some 101) true 70 2 50) (products_scenario T U) in
  let r2 := fz_find_item 4 T (Some 70) r1.2 in
  let r3 := fz_remove_item 4 U 70 r2.2 in
  let r4 := fz_find_item 4 U (Some 70) r3.2 in
  let r5 := fz_find_item 4 T (Some 70) r4.2 in
  (r1.1 = Done tt ∧
   (store_hash <$> store r1.2) = Some {[(T, 7, 0) := 100; (U, 7, 0) := 101]} ∧
   lru r1.2 [101; 100] ∧
   item_val <$> items r1.2 !! 100 = Some (Some 1) ∧
   item_val <$> items r1.2 !! 101 = Some (Some 2)) ∧
  r2.1 = Done (Some 1) ∧
  (r3.1 = Done tt ∧
   (store_hash <$> store r3.2) = Some {[(T, 7, 0) := 100]} ∧
   lru r3.2 [100] ∧ storables r3.2 !! 2 = Some (Storable 1 U)) ∧
  r4.1 = Done None ∧
  r5.1 = Done (Some 1).
Proof.
  intros Hne. cbv zeta.
  rewrite products_stored. cbn [fst snd].
  rewrite (products_found T U Hne). cbn [fst snd].
  rewrite (products_removed T U Hne). cbn [fst snd].
  rewrite (products_missing T U Hne). cbn [fst snd].
  rewrite (products_kept T U).
  repeat split.
  - cbn. f_equal. apply insert_insert_ne. congruence.
  - eexists. split; [reflexivity|]. split; [reflexivity|]. split; [reflexivity|].
    split; [apply (bool_decide_unpack _); by vm_compute|].
    eexists. split; [by vm_compute|]. split; [by vm_compute|]. split; [by vm_compute|].
    eexists. split; [by vm_compute|]. by vm_compute.
  - eexists. split; [reflexivity|]. split; [reflexivity|]. split; [reflexivity|].
    split; [apply (bool_decide_unpack _); by vm_compute|].
    eexists. split; [by vm_compute|]. by vm_compute.
Qed.

Lemma two_products_of_one_reference_witness :
  501 ≠ 502 ∧
  (fz_find_item 4 501 (Some 70)
     ((fz_store_item 4 (Some 100) true 70 1 100;;
       fz_store_item 4 (Some 101) true 70 2 50) (products_scenario 501 502)).2).1
  = Done (Some 1).
Proof.
  split; [lia|].
  destruct (two_products_of_one_reference 501 502) as (_ & H & _); [lia|exact H].
Defined.

(** ** The list while the lock is released *)

Lemma bind_ext {A B} (m : M A) (k1 k2 : A → M B) c :
  (∀ a c', k1 a c' = k2 a c') → bind m k1 c = bind m k2 c.
Proof. intros H. unfold bind. destruct (m c) as [[a| |] c']; [apply H|done..]. Qed.

Lemma bind_assoc {A B C} (m : M A) (f : A → M B) (g : B → M C) c :
  bind (bind m f) g c = bind m (λ a, bind (f a) g) c.
Proof. unfold bind. by destruct (m c) as [[a| |] c']. Qed.

(** The code with the window is the code: when nobody runs in the
    window, [fz_store_item_window] is [fz_store_item_body] and
    [evict_window] is [evict]. *)
Lemma fz_store_item_window_alone fuel item key v sz c :
  fz_store_item_window (ret tt) fuel item key v sz c =
  fz_store_item_body fuel (Some item) true key v sz c.
Proof.
  unfold fz_store_item_window, fz_store_item_body.
  apply bind_ext. intros indirect c1. apply bind_ext. intros rk c2.
  apply bind_ext. intros [] c3. apply bind_ext. intros [] c4.
  apply bind_ext. intros room c5. destruct room; cbn [negb]; [|done].
  apply bind_ext. intros [] c6.
  unfold index_item. destruct indirect.
  - rewrite !bind_assoc. apply bind_ext. intros [] c7.
    rewrite !bind_assoc. apply bind_ext. intros [] c8. reflexivity.
  - reflexivity.
Qed.

Lemma evict_window_alone item c : evict_window (ret tt) item c = evict item c.
Proof.
  unfold evict_window, evict.
  apply bind_ext. intros isz c1. apply bind_ext. intros ssz c2.
  apply bind_ext. intros [] c3. apply bind_ext. intros [] c4.
  unfold discard. apply bind_ext. intros drop c5. apply bind_ext. intros [] c6.
  reflexivity.
Qed.

(** A list in which an item is its own successor is no list. *)
Lemma self_loop_no_list c a it :
  items c !! a = Some it → item_next it = Some a →
  (∃ st, store c = Some st ∧ store_head st = Some a) →
  ∀ l, ¬ lru c l.
Proof.
  intros Hit Hn (st & Hst & Hhd) l (st' & Hst' & Hhd' & _ & Hnd & Hseg).
  assert (st' = st) as -> by congruence. rewrite Hhd in Hhd'.
  destruct l as [|x l]; [done|]. injection Hhd' as <-.
  destruct Hseg as (it' & Hit' & _ & Hn' & _).
  assert (it' = it) as -> by congruence. rewrite Hn in Hn'.
  destruct l as [|y l]; [done|]. injection Hn' as <-.
  apply NoDup_cons in Hnd as [Hx _]. apply Hx. left.
Qed.

(** Nor is one whose head is a freed item. *)
Lemma dangling_head_no_list c a :
  items c !! a = None →
  (∃ st, store c = Some st ∧ store_head st = Some a) →
  ∀ l, ¬ lru c l.
Proof.
  intros Hit (st & Hst & Hhd) l (st' & Hst' & Hhd' & _ & _ & Hseg).
  assert (st' = st) as -> by congruence. rewrite Hhd in Hhd'.
  destruct l as [|x l]; [done|]. injection Hhd' as <-.
  destruct Hseg as (it' & Hit' & _). congruence.
Qed.

Lemma stored_scenario_lru : lru stored_scenario [100].
Proof.
  eexists. split; [by vm_compute|]. split; [by vm_compute|]. split; [by vm_compute|].
  split; [apply NoDup_singleton|].
  eexists. split; [by vm_compute|]. split; [by vm_compute|]. split; [by vm_compute|exact I].
Qed.

Lemma evictable_scenario_lru : lru evictable_scenario [100].
Proof.
  eexists. split; [by vm_compute|]. split; [by vm_compute|]. split; [by vm_compute|].
  split; [apply NoDup_singleton|].
  eexists. split; [by vm_compute|]. split; [by vm_compute|]. split; [by vm_compute|exact I].
Qed.

(** C10.  Each operation keeps the list well formed when it runs from
    start to end on its own, but [fz_store_item] and [evict] release the
    lock midway, and the list does not survive a lookup made by another
    thread at that point.  [fz_store_item] has then indexed the new item
    101 and not linked it: the lookup of its key unlinks it all the same,
    which empties the list of entry 100, and the resumed insertion makes
    item 101 its own successor.  [evict] has then unlinked item 100 and
    not unindexed it: the lookup links it again, and [evict] frees it, so
    that [store->head] points to freed memory.  In both cases no list is
    left. *)
Theorem lookup_in_lock_window_breaks_list :
  (lru stored_scenario [100] ∧
   lru (fz_store_item_window (ret tt) 4 101 70 2 50 stored_scenario).2 [101; 100] ∧
   let r := fz_store_item_window (fz_find_item 4 502 (Some 70);; ret tt) 4 101 70 2 50
              stored_scenario in
   r.1 = Done tt ∧
   store_head <$> store r.2 = Some (Some 101) ∧
   items r.2 !! 101 = Some (Item (Some 70) (Some 2) 50 (Some 101) None) ∧
   items r.2 !! 100 = Some (Item (Some 70) (Some 1) 100 None None) ∧
   ¬ reachable r.2 100 ∧
   ∀ l, ¬ lru r.2 l) ∧
  (lru evictable_scenario [100] ∧
   lru (evict_window (ret tt) 100 evictable_scenario).2 [] ∧
   let r := evict_window (fz_find_item 4 501 (Some 70);; ret tt) 100 evictable_scenario in
   r.1 = Done tt ∧
   store_head <$> store r.2 = Some (Some 100) ∧
   items r.2 !! 100 = None ∧
   ∀ l, ¬ lru r.2 l).
Proof.
  split.
  - split; [exact stored_scenario_lru|]. split.
    { eexists. split; [by vm_compute|]. split; [by vm_compute|]. split; [by vm_compute|].
      split; [apply (bool_decide_unpack _); by vm_compute|].
      eexists. split; [by vm_compute|]. split; [by vm_compute|]. split; [by vm_compute|].
      eexists. split; [by vm_compute|]. by vm_compute. }
    cbv zeta.
    set (r := fz_store_item_window _ 4 101 70 2 50 stored_scenario).
    assert (items r.2 !! 101 = Some (Item (Some 70) (Some 2) 50 (Some 101) None)) as H101
      by (by vm_compute).
    assert (∃ st, store r.2 = Some st ∧ store_head st = Some 101) as Hhd
      by (eexists; split; by vm_compute).
    split; [by vm_compute|]. split; [by vm_compute|]. split; [exact H101|].
    split; [by vm_compute|]. split.
    + assert (∀ b, reachable r.2 b → b = 101) as Honly.
      { induction 1 as [st b Hst Hb|b it b' _ IH Hit Hn].
        - destruct Hhd as (st' & Hst' & Hhd). congruence.
        - subst b. rewrite H101 in Hit. injection Hit as <-. simpl in Hn. congruence. }
      intros H. by apply Honly in H.
    + by apply (self_loop_no_list r.2 101 _ H101).
  - split; [exact evictable_scenario_lru|]. split.
    { eexists. split; [by vm_compute|]. split; [by vm_compute|]. split; [by vm_compute|].
      split; [apply NoDup_nil_2|exact I]. }
    cbv zeta.
    set (r := evict_window _ 100 evictable_scenario).
    assert (items r.2 !! 100 = None) as H100 by (by vm_compute).
    split; [by vm_compute|]. split; [by vm_compute|]. split; [exact H100|].
    apply (dangling_head_no_list r.2 100 H100). eexists. split; by vm_compute.
Qed.

(** ** General statements *)

(** C6, as stated, fails: the code divides before it multiplies, so
    for capacity 100 the ceiling of phase 0 is 96 and not 100, and for an
    unlimited store of 100 bytes it is 90 and not 93. *)
Lemma phase_ceiling_not_exact_product :
  phase_max 0 100 0 ≠ 100 * (16 - 0) / 16 ∧
  phase_max 0 FZ_STORE_UNLIMITED 100 ≠ 100 * (15 - 0) / (16 - 0).
Proof. split; by vm_compute. Qed.

(** C6, as amended.  For every phase from 0 to 16 and sizes in the
    range of [unsigned int], the ceiling is (max / 16) * (16 - p) for a
    bounded store and (size / (16 - p)) * (15 - p) for an unlimited one,
    each quotient rounded down before the product, and 0 in phase 16;
    no product wraps around. *)
Theorem phase_ceiling_divides_first (p smax ssize : Z) :
  0 ≤ p ≤ 16 → 0 ≤ smax ≤ UINT_MAX → 0 ≤ ssize ≤ UINT_MAX →
  phase_max p smax ssize =
    if p =? 16 then 0
    else if smax =? FZ_STORE_UNLIMITED then ssize / (16 - p) * (15 - p)
    else smax / 16 * (16 - p).
Proof. apply phase_max_exact. Qed.

Lemma phase_ceiling_divides_first_witness :
  (0 ≤ 3 ≤ 16 ∧ 0 ≤ 100 ≤ UINT_MAX ∧ 0 ≤ 50 ≤ UINT_MAX) ∧
  phase_max 3 100 50 = 100 / 16 * (16 - 3).
Proof.
  split; [unfold UINT_MAX; lia|].
  apply (phase_ceiling_divides_first 3 100 50); unfold UINT_MAX; lia.
Defined.

(** C9.  [fz_keep_storable] and [fz_drop_storable] leave the context
    alone on NULL.  On a storable whose count is an [int], keep returns
    its argument and increments the count only when it is positive, the
    count being below [INT_MAX]; drop does nothing to a negative count,
    otherwise decrements it, and calls the destructor, with the lock
    released, exactly when the count was 1.  Over any sequence of keeps
    and drops in which no keep finds the count at [INT_MAX], the
    destructor runs at most once, namely when a drop finds the count at
    1, and never for a negative count. *)
Theorem storable_keep_drop (c : fz_context) (a : Z) (s : fz_storable) :
  storables c !! a = Some s → INT_MIN ≤ val_refs s ≤ INT_MAX →
  (fz_keep_storable None c = (Done None, c) ∧
   fz_drop_storable None c = (Done tt, c)) ∧
  (val_refs s < INT_MAX →
   ∃ c' s', fz_keep_storable (Some a) c = (Done (Some a), c') ∧
            storables c' !! a = Some s' ∧
            s' = (if 0 <? val_refs s then incr_refs s else s) ∧
            INT_MIN ≤ val_refs s' ≤ INT_MAX ∧
            finalized c' = finalized c) ∧
  (∃ c', fz_drop_storable (Some a) c = (Done tt, c') ∧
         if val_refs s <? 0
         then storables c' !! a = Some s ∧ finalized c' = finalized c
         else if val_refs s =? 1
         then storables c' !! a = None ∧ finalized c' = finalized c ++ [(a, false)]
         else storables c' !! a = Some (decr_refs s) ∧
              INT_MIN ≤ val_refs (decr_refs s) ≤ INT_MAX ∧
              finalized c' = finalized c) ∧
  (∀ ops, rc_in_range (val_refs s) ops = true →
          finalized (rc_run a ops c).2 =
          finalized c ++ (if reaches_zero (val_refs s) ops then [(a, false)] else [])) ∧
  (val_refs s < 0 → ∀ ops, reaches_zero (val_refs s) ops = false).
Proof.
  intros Hs Hrange. split; [done|]. split; [|split; [|split]].
  - intros Hmax. exists (keep_result a s c), (if 0 <? val_refs s then incr_refs s else s).
    split; [by apply keep_some|].
    unfold keep_result. destruct (Z.ltb_spec 0 (val_refs s)); simpl.
    + rewrite lookup_insert_eq. repeat split; try done; unfold INT_MIN, INT_MAX in *; lia.
    + repeat split; try done; lia.
  - exists (drop_result a s c). split; [by apply drop_some|].
    unfold drop_result. destruct (Z.ltb_spec (val_refs s) 0); [done|].
    replace (val_refs s - 1 =? 0) with (val_refs s =? 1)
      by (destruct (Z.eqb_spec (val_refs s) 1), (Z.eqb_spec (val_refs s - 1) 0); lia).
    destruct (val_refs s =? 1); simpl.
    + by rewrite lookup_delete_eq.
    + rewrite lookup_insert_eq. repeat split; try done; unfold INT_MIN, INT_MAX in *; lia.
  - intros ops _. by apply rc_run_finalized.
  - intros Hneg ops. by apply reaches_zero_static.
Qed.

Lemma storable_keep_drop_witness :
  (storables plain_heap !! 1 = Some (Storable 1 11) ∧ INT_MIN ≤ 1 ≤ INT_MAX ∧
   rc_in_range 1 [RcKeep; RcDrop; RcDrop] = true) ∧
  finalized (rc_run 1 [RcKeep; RcDrop; RcDrop] plain_heap).2 = [(1, false)].
Proof.
  assert (INT_MIN ≤ 1 ≤ INT_MAX) as Hr by (unfold INT_MIN, INT_MAX; lia).
  split; [split; [reflexivity|split; [exact Hr|reflexivity]]|].
  destruct (storable_keep_drop plain_heap 1 (Storable 1 11) eq_refl Hr)
    as (_ & _ & _ & Hrun & _).
  exact (Hrun [RcKeep; RcDrop; RcDrop] eq_refl).
Defined.


Lemma pinned_scenario_lru : lru pinned_scenario [102; 100].
Proof.
  eexists. split; [by vm_compute|]. split; [by vm_compute|]. split; [by vm_compute|].
  split; [apply (bool_decide_unpack _); by vm_compute|].
  eexists. split; [by vm_compute|]. split; [by vm_compute|]. split; [by vm_compute|].
  eexists. split; [by vm_compute|]. by vm_compute.
Qed.

Lemma pinned_scenario_sound : sound pinned_scenario [102; 100].
Proof.
  intros a [->|[->|Ha%elem_of_nil]%elem_of_cons]%elem_of_cons; [| |done].
  - exists (Item (Some 30) (Some 3) 10 (Some 100) None), 3, (Storable 2 11),
      30, (Obj 2 (Opaque 7)). by vm_compute.
  - exists (Item (Some 10) (Some 1) 60 None (Some 102)), 1, (Storable 1 11),
      10, (Obj 2 (Opaque 5)). by vm_compute.
Qed.



(** A list that satisfies [lru] has the shape of a doubly linked list:
    the head has no [prev], the tail no [next], neighbours point back at
    each other, and the entries reachable from the head are those of the
    list.  An operation that runs from start to end on its own keeps
    it: [evict] turns it into the list without the evicted entry, which
    is then unreachable; [fz_store_item] leaves what the evictions left,
    with or without the new item in front, and puts the item in front
    when there is room; and, when the hash table only indexes linked
    entries, [fz_find_item] leaves the list or moves the entry it found
    to the front and [fz_remove_item] leaves the list or takes the entry
    it found out of it. *)
Theorem lru_list_stays_well_formed (c : fz_context) (l : list Z) :
  lru c l →
  ((∀ st h, store c = Some st → store_head st = Some h →
            ∃ it, items c !! h = Some it ∧ item_prev it = None) ∧
   (∀ st t, store c = Some st → store_tail st = Some t →
            ∃ it, items c !! t = Some it ∧ item_next it = None) ∧
   (∀ a it n, reachable c a → items c !! a = Some it → item_next it = Some n →
              ∃ itn, items c !! n = Some itn ∧ item_prev itn = Some a) ∧
   (∀ a it p, reachable c a → items c !! a = Some it → item_prev it = Some p →
              ∃ itp, items c !! p = Some itp ∧ item_next itp = Some a) ∧
   (∀ a, reachable c a ↔ a ∈ l)) ∧
  (∀ l1 a l2, l = l1 ++ a :: l2 →
     lru (evict a c).2 (l1 ++ l2) ∧ ¬ reachable (evict a c).2 a) ∧
  (∀ fuel item hash_ok key v sz, item ∉ l →
     inserted l item (fz_store_item fuel (Some item) hash_ok key v sz c).2) ∧
  (∀ fuel item hash_ok key v sz st o s,
     store c = Some st → items c !! item = None →
     objs c !! key = Some o → storables c !! v = Some s →
     has_room st sz → (is_indirect o = true → hash_ok = true) →
     (fz_store_item (S fuel) (Some item) hash_ok key v sz c).1 = Done tt ∧
     lru (fz_store_item (S fuel) (Some item) hash_ok key v sz c).2 (item :: l)) ∧
  (indexed c l → ∀ fuel free key,
     (touched l (fz_find_item fuel free key c).2 ∧
      ∀ v, (fz_find_item fuel free key c).1 = Done (Some v) →
           ∃ l', lru (fz_find_item fuel free key c).2 l' ∧ moved_to_front l l') ∧
     (∀ k, key = Some k → removed l (fz_remove_item fuel free k c).2)).
Proof.
  intros Hl. split; [|split; [|split; [|split]]].
  - destruct (lru_shape _ _ Hl) as (H1 & H2 & H3 & H4).
    repeat split; try done; by apply lru_reachable.
  - intros l1 a l2 ->. destruct (evict_lru _ _ _ _ Hl) as [Hl' _].
    split; [done|]. rewrite (lru_reachable _ _ a Hl').
    apply split_not_in. by eapply lru_NoDup.
  - intros fuel item hash_ok key v sz Hn.
    unfold fz_store_item. destruct (lru_store _ _ Hl) as [st ->].
    apply (wp_snd _ (inserted l item)). by apply fz_store_item_body_lru.
  - intros fuel item hash_ok key v sz st o s Hst Hit Ho Hs Hroom Hok.
    destruct (fz_store_item_links fuel item hash_ok key v sz c l st o s)
      as (c' & -> & Hl' & _); done.
  - intros Hidx fuel free key. split.
    + unfold fz_find_item. destruct (lru_store _ _ Hl) as [st ->].
      destruct key as [k|]; [|split; [by left|done]].
      pose proof (fz_find_item_body_lru fuel free k c l Hl Hidx) as H.
      unfold wp in H.
      destruct (fz_find_item_body fuel free k c) as [[r| |] c']; simpl; [|done..].
      destruct H as [[-> H]|H].
      * split; [by left|done].
      * split; [by right|]. intros v _. exact H.
    + intros k ->. apply (wp_snd _ (removed l)). by apply fz_remove_item_lru.
Qed.

Lemma stored_scenario_indexed : indexed stored_scenario [100].
Proof.
  assert (store stored_scenario =
            Some (Store 1 (Some 100) (Some 100) {[(501, 7, 0) := 100]} FZ_STORE_UNLIMITED 100))
    as Hstore by (by vm_compute).
  intros st k a Hst Hk. rewrite Hstore in Hst. injection Hst as <-. simpl in Hk.
  apply lookup_singleton_Some in Hk as [_ <-]. left.
Qed.

Lemma lru_list_stays_well_formed_witness :
  (lru pinned_scenario [102; 100] ∧ lru stored_scenario [100] ∧
   indexed stored_scenario [100]) ∧
  (lru (evict 100 pinned_scenario).2 [102] ∧
   ¬ reachable (evict 100 pinned_scenario).2 100) ∧
  touched [100] (fz_find_item 4 501 (Some 70) stored_scenario).2 ∧
  removed [100] (fz_remove_item 4 501 70 stored_scenario).2.
Proof.
  split; [split; [exact pinned_scenario_lru|split;
    [exact stored_scenario_lru|exact stored_scenario_indexed]]|].
  split.
  - destruct (lru_list_stays_well_formed pinned_scenario [102; 100] pinned_scenario_lru)
      as (_ & Hevict & _).
    exact (Hevict [102] 100 [] eq_refl).
  - destruct (lru_list_stays_well_formed stored_scenario [100] stored_scenario_lru)
      as (_ & _ & _ & _ & Hfind).
    destruct (Hfind stored_scenario_indexed 4%nat 501 (Some 70)) as [[Htouch _] Hrem].
    split; [exact Htouch|exact (Hrem 70 eq_refl)].
Defined.

(** * Further properties of the code *)

(** ** Walks of the list *)

Lemma evictable_bytes_snoc c l a :
  evictable_bytes c (l ++ [a]) =
    evictable_bytes c l +
    (if bool_decide (entry_refs c a = Some 1) then entry_size c a else 0).
Proof. unfold evictable_bytes. induction l as [|b l IH]; simpl; lia. Qed.

Lemma evictable_bytes_nonneg c l : sized c l → 0 ≤ evictable_bytes c l.
Proof.
  induction l as [|b l IH]; intros Hs; simpl; [done|].
  assert (0 ≤ entry_size c b ≤ UINT_MAX) by (apply Hs; left).
  assert (0 ≤ evictable_bytes c l) by (apply IH; intros a Ha; apply Hs; by right).
  case_bool_decide; lia.
Qed.

Lemma sound_entry c l a :
  sound c l → a ∈ l →
  ∃ it v s k o, items c !! a = Some it ∧ item_val it = Some v ∧
                storables c !! v = Some s ∧ item_key it = Some k ∧
                objs c !! k = Some o ∧
                entry_refs c a = Some (val_refs s) ∧ entry_size c a = item_size it.
Proof.
  intros Hs Ha. destruct (Hs a Ha) as (it & v & s & k & o & Hit & Hv & Hst & Hk & Ho).
  exists it, v, s, k, o. unfold entry_refs, entry_size. rewrite Hit, Hv, Hst. done.
Qed.

(** Pass 1 of [ensure_space] on a list that does not hold [tofree]
    evictable bytes. *)
Lemma ensure_space_check_short c tofree l1 : ∀ l2 count fuel,
  lru c (l1 ++ l2) → sound c (l1 ++ l2) → sized c l1 →
  0 ≤ count → count + evictable_bytes c l1 < tofree → tofree ≤ UINT_MAX →
  (length l1 < fuel)%nat →
  ensure_space_check fuel tofree (last l1) count c = (Done None, c).
Proof.
  induction l1 as [|a l0 IH] using rev_ind; intros l2 count fuel Hl Hs Hz Hc Hlt Hto Hf.
  - destruct fuel; [simpl in Hf; lia|]. done.
  - rewrite length_app in Hf. simpl in Hf.
    destruct fuel as [|fuel]; [lia|].
    rewrite last_snoc. rewrite <- app_assoc in Hl, Hs. simpl in Hl, Hs.
    destruct (lru_lookup _ _ _ _ Hl) as (it & Hit & Hp & _).
    destruct (sound_entry c _ a Hs) as (it' & v & s & k & o & Hit' & Hv & Hst & _ & _ & Hr & Hsz);
      [set_solver|].
    assert (it' = it) as -> by congruence.
    rewrite evictable_bytes_snoc, Hr, Hsz in Hlt.
    destruct it as [ik iv isz inx ipv], s as [sr sf]. simpl in *. subst iv ipv.
    assert (0 ≤ isz ≤ UINT_MAX) as Hrange.
    { rewrite <- Hsz. apply Hz. set_solver. }
    assert (sized c l0) as Hz0 by (intros b Hb; apply Hz; set_solver).
    pose proof (evictable_bytes_nonneg c l0 Hz0) as Hnn.
    cbn [ensure_space_check].
    destruct (sr =? 1) eqn:E.
    + apply Z.eqb_eq in E as ->. rewrite bool_decide_true in Hlt by done.
      assert (wrap (count + isz) = count + isz) as Hw by (apply wrap_small; lia).
      assert ((tofree <=? wrap (count + isz)) = false) as Hle
        by (rewrite Hw; apply Z.leb_gt; lia).
      assert (ensure_space_check fuel tofree (last l0) (wrap (count + isz)) c =
                (Done None, c)) as IH'
        by (rewrite Hw; apply (IH (a :: l2)); try done; lia).
      exec.
    + assert (ensure_space_check fuel tofree (last l0) count c = (Done None, c)) as IH'.
      { apply Z.eqb_neq in E. rewrite bool_decide_false in Hlt by congruence.
        apply (IH (a :: l2)); try done; lia. }
      exec.
Qed.

(** The loop of [scavenge] over entries none of which is evictable. *)
Lemma scavenge_loop_idle c tofree l1 : ∀ l2 count fuel,
  lru c (l1 ++ l2) → sound c (l1 ++ l2) →
  (∀ a, a ∈ l1 → entry_refs c a ≠ Some 1) →
  (length l1 < fuel)%nat →
  scavenge_loop fuel tofree (last l1) count c = (Done count, c).
Proof.
  induction l1 as [|a l0 IH] using rev_ind; intros l2 count fuel Hl Hs Hne Hf.
  - destruct fuel; [simpl in Hf; lia|]. done.
  - rewrite length_app in Hf. simpl in Hf.
    destruct fuel as [|fuel]; [lia|].
    rewrite last_snoc. rewrite <- app_assoc in Hl, Hs. simpl in Hl, Hs.
    destruct (lru_lookup _ _ _ _ Hl) as (it & Hit & Hp & _).
    destruct (sound_entry c _ a Hs) as (it' & v & s & k & o & Hit' & Hv & Hst & _ & _ & Hr & _);
      [set_solver|].
    assert (it' = it) as -> by congruence.
    assert (entry_refs c a ≠ Some 1) as Ha by (apply Hne; set_solver).
    rewrite Hr in Ha.
    destruct it as [ik iv isz inx ipv], s as [sr sf]. simpl in *. subst iv ipv.
    assert ((sr =? 1) = false) as E by (apply Z.eqb_neq; congruence).
    assert (scavenge_loop fuel tofree (last l0) count c = (Done count, c)) as IH'.
    { apply (IH (a :: l2)); try done; [intros b Hb; apply Hne; set_solver|lia]. }
    cbn [scavenge_loop]. exec.
Qed.

Lemma scan_step c l a free key fuel ok :
  sound c l → a ∈ l → objs c !! key = Some ok →
  scan (S fuel) free key (Some a) c =
    if matches c free key a then (Done (Some a), c)
    else
      match items c !! a with
      | Some it => scan fuel free key (item_next it) c
      | None => (Fault, c)
      end.
Proof.
  intros Hs Ha Hk.
  destruct (Hs a Ha) as (it & v & s & k & o & Hit & Hv & Hst & Hik & Ho).
  unfold matches. rewrite Hit, Hv, Hik, Hst, Ho, Hk.
  destruct it as [ik iv isz inx ipv], s as [sr sf], o as [orf okd], ok as [krf kkd].
  simpl in *. subst ik iv.
  cbn [scan].
  destruct (sf =? free) eqn:E1; simpl.
  - destruct (obj_kind_eqb okd kkd) eqn:E2.
    + eapply bind_eq; [exec|]. eapply bind_eq; [exec|]. cbv beta. by rewrite E2.
    + eapply bind_eq; [exec|]. eapply bind_eq; [exec|]. cbv beta. rewrite E2.
      eapply bind_eq; [exec|]. reflexivity.
  - eapply bind_eq; [exec|]. eapply bind_eq; [exec|]. cbv beta iota.
    eapply bind_eq; [exec|]. reflexivity.
Qed.

(** The linear search returns the first entry, from the head, that
    matches. *)
Lemma scan_find c free key ok l2 : ∀ l1 fuel,
  lru c (l1 ++ l2) → sound c (l1 ++ l2) → objs c !! key = Some ok →
  (length l2 < fuel)%nat →
  scan fuel free key (head l2) c = (Done (find (matches c free key) l2), c).
Proof.
  induction l2 as [|a l2 IH]; intros l1 fuel Hl Hs Hk Hf.
  - destruct fuel; [simpl in Hf; lia|]. done.
  - simpl in Hf. destruct fuel as [|fuel]; [lia|].
    cbn [head find].
    rewrite (scan_step c (l1 ++ a :: l2) a free key fuel ok Hs); [|set_solver|done].
    destruct (matches c free key a); [done|].
    destruct (lru_lookup _ _ _ _ Hl) as (it & Hit & _ & Hn). rewrite Hit, Hn.
    apply (IH (l1 ++ [a])); rewrite <- ?app_assoc; try done. lia.
Qed.

Lemma find_in {A} (f : A → bool) l a : find f l = Some a → a ∈ l.
Proof.
  induction l as [|b l IH]; simpl; [done|].
  destruct (f b); [intros [= ->]; left|intros H; right; by apply IH].
Qed.

Lemma find_split {A} (f : A → bool) l a :
  find f l = Some a →
  ∃ l1 l2, l = l1 ++ a :: l2 ∧ f a = true ∧ ∀ b, b ∈ l1 → f b = false.
Proof.
  induction l as [|b l IH]; simpl; [done|].
  destruct (f b) eqn:E.
  - intros [= ->]. exists [], l. split; [done|]. split; [done|]. intros ? H. inversion H.
  - intros (l1 & l2 & -> & Ha & Hb)%IH. exists (b :: l1), l2.
    split; [done|]. split; [done|]. intros x [->|Hx]%elem_of_cons; [done|by apply Hb].
Qed.

(** ** Lookup *)

Lemma lru_with_lock c l b : lru c l → lru (with_lock b c) l.
Proof. intros H. eapply lru_ext; [| | |exact H]; done. Qed.

(** [fz_find_item] is the lookup of [wanted] followed by the touch. *)
Lemma fz_find_item_wanted fuel free key c l o :
  lru c l → sound c l → objs c !! key = Some o → (length l < fuel)%nat →
  fz_find_item fuel free (Some key) c =
    match wanted c l free key with
    | Some item => (unlink item;; link_head_find item;; take_ref item) (with_lock true c)
    | None => (Done None, with_lock false c)
    end.
Proof.
  intros Hl Hs Ho Hf. destruct (lru_store _ _ Hl) as [st Hst].
  unfold wanted. rewrite Ho, Hst.
  destruct o as [r [num gen|content]]; simpl.
  - by rewrite (fz_find_item_indirect fuel free key c st r num gen).
  - unfold fz_find_item. rewrite Hst. unfold fz_find_item_body.
    eapply bind_eq; [exec|]. eapply bind_eq; [exec|]. eapply bind_eq; [exec|].
    eapply bind_eq.
    { unfold lookup_item. eapply bind_eq; [exec|]. cbv beta.
      destruct Hl as (st' & Hst' & Hhd & Hrest). assert (st' = st) as -> by congruence.
      rewrite Hhd.
      apply (scan_find (with_lock true c) free key (Obj r (Opaque content)) l []);
        [apply lru_with_lock; by exists st|exact Hs|exact Ho|exact Hf]. }
    cbv beta.
    change (matches (with_lock true c) free key) with (matches c free key).
    by destruct (find (matches c free key) l).
Qed.

Lemma run_result {A} (m : M A) c r r0 c0 :
  m c = (Done r0, c0) → r0 = r → m c = (Done r, c0).
Proof. by intros -> ->. Qed.

(** The touch of [fz_find_item]: the entry goes to the front and its
    storable gains a reference unless its count is not positive. *)
Lemma touch_spec c l1 a l2 it v s :
  lru c (l1 ++ a :: l2) →
  items c !! a = Some it → item_val it = Some v → storables c !! v = Some s →
  ∃ c', (unlink a;; link_head_find a;; take_ref a) c = (Done (Some v), c') ∧
        lru c' (a :: l1 ++ l2) ∧
        storables c' =
          (if 0 <? val_refs s then <[v := incr_refs s]> (storables c) else storables c) ∧
        objs c' = objs c ∧ finalized c' = finalized c ∧ alloc_lock c' = false ∧
        store_rest <$> store c' = store_rest <$> store c ∧
        ∀ b, item_core <$> items c' !! b = item_core <$> items c !! b.
Proof.
  intros Hl Hit Hv Hs.
  assert (a ∉ l1 ++ l2) as Hn by (apply split_not_in; by eapply lru_NoDup).
  destruct (unlink_spec _ _ _ _ Hl) as (c1 & Hun & Hl1 & Hrel1 & Ha1 & _).
  rewrite Hit in Ha1.
  destruct (link_head_find_spec _ _ _ _ Hl1 Hn Ha1) as (c2 & Hlk & Hl2 & Hrel2 & _).
  destruct Hrel1 as (Hsto1 & Hobj1 & Hlock1 & Hfin1 & Hsr1 & Hcore1).
  destruct Hrel2 as (Hsto2 & Hobj2 & Hlock2 & Hfin2 & Hsr2 & Hcore2).
  destruct (lru_allocated _ _ a Hl2) as [it2 Hit2]; [left|].
  assert (item_val it2 = Some v) as Hv2.
  { pose proof (Hcore2 a) as H2. pose proof (Hcore1 a) as H1.
    rewrite Hit2, Ha1 in H2. rewrite Ha1, Hit in H1. simpl in H1, H2.
    destruct it2, it. unfold item_core in *. simpl in *. congruence. }
  assert (storables c2 !! v = Some s) as Hs2 by (by rewrite Hsto2, Hsto1).
  destruct it2 as [ik2 iv2 isz2 inx2 ipv2], s as [sr sf]. simpl in *. subst iv2.
  destruct (0 <? sr) eqn:E.
  - eexists. split.
    { eapply bind_eq; [exact Hun|]. eapply bind_eq; [exact Hlk|].
      unfold take_ref. eapply run_result; [exec|done]. }
    split; [eapply lru_ext; [| | |exact Hl2]; done|]. simpl.
    split; [by rewrite Hsto2, Hsto1|]. split; [congruence|]. split; [congruence|].
    split; [done|]. split; [congruence|]. intros b. by rewrite Hcore2, Hcore1.
  - eexists. split.
    { eapply bind_eq; [exact Hun|]. eapply bind_eq; [exact Hlk|].
      unfold take_ref. eapply run_result; [exec|done]. }
    split; [eapply lru_ext; [| | |exact Hl2]; done|]. simpl.
    split; [congruence|]. split; [congruence|]. split; [congruence|].
    split; [done|]. split; [congruence|]. intros b. by rewrite Hcore2, Hcore1.
Qed.

(** ** Insertion, in full *)

(** [fz_store_item] when there is room and nothing throws, up to the
    point where the item is linked. *)
Lemma fz_store_item_filled fuel item key v sz c st o s :
  store c = Some st → objs c !! key = Some o → storables c !! v = Some s →
  has_room st sz →
  ∃ c2, fz_store_item (S fuel) (Some item) true key v sz c =
          (link_head_store item;; fz_unlock) c2 ∧
        store c2 =
          Some (set_store_hash (index_with (refkey_of (val_free s) o) item (store_hash st))
                  (set_store_size (wrap (store_size st + sz)) st)) ∧
        items c2 = <[item := Item (Some key) (Some v) sz None None]> (items c) ∧
        storables c2 = referenced v s (storables c) ∧
        objs c2 = <[key := set_obj_refs (obj_refs o + 1) o]> (objs c) ∧
        finalized c2 = finalized c.
Proof.
  intros Hst Ho Hs Hroom. unfold fz_store_item. rewrite Hst. unfold fz_store_item_body.
  pose proof (reserve_room fuel st sz) as Hres.
  destruct st as [rf hd tl hs mx ssz], o as [orf [num gen|content]], s as [sr sf];
    unfold refkey_of, index_with, referenced; simpl in *; destruct (0 <? sr) eqn:Er.
  all: eexists; split;
    [eapply bind_eq; [exec|]; eapply bind_eq; [exec|];
     eapply bind_eq; [exec|]; eapply bind_eq; [exec|];
     eapply bind_eq; [apply Hres; [exact Hst|exact Hroom]|]; cbn [negb];
     eapply bind_eq; [exec|]; eapply bind_eq; [exec|]; cbn [negb];
     eapply bind_eq; [exec|]; eapply bind_eq; [exec|]; reflexivity|].
  all: simpl; rewrite ?Hst; simpl; repeat split; try done.
  all: by rewrite !insert_insert_eq.
Qed.

(** [fz_store_item] when there is room and nothing throws. *)
Lemma fz_store_item_exact fuel item key v sz c l st o s :
  lru c l → store c = Some st →
  items c !! item = None → objs c !! key = Some o → storables c !! v = Some s →
  has_room st sz →
  ∃ c', fz_store_item (S fuel) (Some item) true key v sz c = (Done tt, c') ∧
        lru c' (item :: l) ∧
        items c' !! item = Some (Item (Some key) (Some v) sz (head l) None) ∧
        (∀ b, b ≠ item → item_core <$> items c' !! b = item_core <$> items c !! b) ∧
        (∀ b, b ∉ item :: l → items c' !! b = items c !! b) ∧
        store_rest <$> store c' =
          Some (store_refs st,
                index_with (refkey_of (val_free s) o) item (store_hash st),
                store_max st, wrap (store_size st + sz)) ∧
        storables c' = referenced v s (storables c) ∧
        objs c' = <[key := set_obj_refs (obj_refs o + 1) o]> (objs c) ∧
        finalized c' = finalized c ∧ alloc_lock c' = false.
Proof.
  intros Hl Hst Hit Ho Hs Hroom.
  assert (item ∉ l) as Hn.
  { intros H. destruct (lru_allocated _ _ _ Hl H) as [? ?]. congruence. }
  destruct (fz_store_item_filled fuel item key v sz c st o s Hst Ho Hs Hroom)
    as (c2 & Hrun & Hst2 & Hit2 & Hs2 & Ho2 & Hf2).
  assert (lru c2 l) as Hl2.
  { eapply lru_ext; [| | |exact Hl]; rewrite ?Hst2, ?Hst, ?Hit2; try done.
    intros b Hb. rewrite lookup_insert_ne; [done|]. by intros ->. }
  assert (items c2 !! item = Some (Item (Some key) (Some v) sz None None)) as Hi2
    by (rewrite Hit2; apply lookup_insert_eq).
  destruct (link_head_store_spec _ _ _ _ Hl2 Hn Hi2) as (c3 & Hlk & Hl3 & Hrel & Hfr).
  destruct Hrel as (Hsto & Hobj & _ & Hfin & Hsr & Hcore).
  exists (with_lock false c3). split.
  { rewrite Hrun. eapply bind_eq; [exact Hlk|]. reflexivity. }
  split; [by apply lru_with_lock|]. simpl.
  split.
  { destruct Hl3 as (st3 & _ & _ & _ & _ & Hseg).
    destruct Hseg as (it3 & H3 & Hp3 & Hn3 & _).
    specialize (Hcore item). rewrite H3, Hi2 in Hcore. simpl in Hcore.
    destruct it3 as [k3 v3 z3 n3 p3]. unfold item_core in Hcore. simpl in *.
    injection Hcore as -> -> ->. subst. by destruct l. }
  split.
  { intros b Hb. rewrite Hcore, Hit2. by rewrite lookup_insert_ne. }
  split.
  { intros b Hb. rewrite (Hfr b Hb), Hit2. rewrite lookup_insert_ne; [done|].
    intros ->. apply Hb. left. }
  split; [by rewrite Hsr, Hst2|].
  split; [congruence|]. split; [congruence|]. split; [congruence|done].
Qed.

(** ** Removal and eviction, in full *)

Lemma release_exact c a it v s k o :
  items c !! a = Some it → item_val it = Some v → item_key it = Some k →
  storables c !! v = Some s → objs c !! k = Some o →
  ∃ c', release a c = (Done tt, c') ∧
        items c' = delete a (items c) ∧
        storables c' = released v s (storables c) ∧
        objs c' = dropped k o (objs c) ∧
        finalized c' = finalized c ++ finalizing v s ∧
        store c' = store c ∧ alloc_lock c' = false.
Proof.
  intros Hit Hv Hk Hs Ho.
  destruct it as [ik iv isz inx ipv], s as [sr sf], o as [orf okind]. simpl in *. subst.
  destruct (0 <? sr) eqn:E1; [destruct (sr - 1 =? 0) eqn:E2|];
    destruct (orf - 1 =? 0) eqn:E3;
    (eexists; split; [unfold release; exec|];
     unfold released, finalizing, dropped; simpl;
     rewrite ?E1, ?E2, ?E3, ?delete_insert_eq, ?app_nil_r; done).
Qed.

Lemma discard_exact c a it v s k o st :
  items c !! a = Some it → item_val it = Some v → item_key it = Some k →
  storables c !! v = Some s → objs c !! k = Some o → store c = Some st →
  ∃ c', discard a c = (Done tt, c') ∧
        items c' = delete a (items c) ∧
        storables c' = released v s (storables c) ∧
        objs c' = dropped k o (objs c) ∧
        finalized c' = finalized c ++ finalizing v s ∧
        store c' =
          Some (set_store_hash
                  (index_without (refkey_of (val_free s) o) (store_hash st)) st) ∧
        alloc_lock c' = true.
Proof.
  intros Hit Hv Hk Hs Ho Hst.
  destruct it as [ik iv isz inx ipv], s as [sr sf], o as [orf okind],
    st as [rf hd tl hs mx ssz]. simpl in *. subst.
  destruct (0 <? sr) eqn:E1; [destruct (sr - 1 =? 0) eqn:E2|];
    destruct (orf - 1 =? 0) eqn:E3; destruct okind as [num gen|content];
    (eexists; split; [unfold discard; exec|];
     unfold released, finalizing, dropped, refkey_of, index_without; simpl;
     rewrite ?E1, ?E2, ?E3, ?delete_insert_eq, ?app_nil_r, ?Hst; done).
Qed.

(** What [fz_remove_item] does to the entry it has found. *)
Lemma remove_entry_spec c l1 a l2 it v s k o :
  lru c (l1 ++ a :: l2) →
  items c !! a = Some it → item_val it = Some v → item_key it = Some k →
  storables c !! v = Some s → objs c !! k = Some o →
  ∃ c', (unlink a;; release a) c = (Done tt, c') ∧
        lru c' (l1 ++ l2) ∧ items c' !! a = None ∧
        (∀ b, b ≠ a → item_core <$> items c' !! b = item_core <$> items c !! b) ∧
        (∀ b, b ∉ l1 ++ a :: l2 → items c' !! b = items c !! b) ∧
        store_rest <$> store c' = store_rest <$> store c ∧
        storables c' = released v s (storables c) ∧
        objs c' = dropped k o (objs c) ∧
        finalized c' = finalized c ++ finalizing v s ∧ alloc_lock c' = false.
Proof.
  intros Hl Hit Hv Hk Hs Ho.
  assert (a ∉ l1 ++ l2) as Hn by (apply split_not_in; by eapply lru_NoDup).
  destruct (unlink_spec _ _ _ _ Hl) as (c1 & Hun & Hl1 & Hrel & Ha1 & Hfr).
  destruct Hrel as (Hsto & Hobj & _ & Hfin & Hsr & Hcore).
  rewrite Hit in Ha1. rewrite <- Hsto in Hs. rewrite <- Hobj in Ho.
  destruct (release_exact c1 a it v s k o Ha1 Hv Hk Hs Ho)
    as (c' & Hrun & Hi' & Hs' & Ho' & Hf' & Hst' & Hlk').
  exists c'. split; [eapply bind_eq; [exact Hun|exact Hrun]|].
  split.
  { eapply lru_ext; [| | |exact Hl1]; rewrite ?Hst'; try done.
    intros b Hb. rewrite Hi', lookup_delete_ne; [done|]. by intros ->. }
  split; [rewrite Hi'; apply lookup_delete_eq|].
  split; [intros b Hb; by rewrite Hi', lookup_delete_ne, Hcore|].
  split.
  { intros b Hb. rewrite Hi', lookup_delete_ne, Hfr; [done..|]. intros ->. set_solver. }
  split; [by rewrite Hst'|].
  split; [congruence|]. split; [congruence|]. split; [congruence|done].
Qed.

(** What [evict] does. *)
Lemma evict_exact c l1 a l2 it v s k o st :
  lru c (l1 ++ a :: l2) → store c = Some st →
  items c !! a = Some it → item_val it = Some v → item_key it = Some k →
  storables c !! v = Some s → objs c !! k = Some o →
  ∃ c', evict a c = (Done tt, c') ∧
        lru c' (l1 ++ l2) ∧ items c' !! a = None ∧
        (∀ b, b ≠ a → item_core <$> items c' !! b = item_core <$> items c !! b) ∧
        (∀ b, b ∉ l1 ++ a :: l2 → items c' !! b = items c !! b) ∧
        store_rest <$> store c' =
          Some (store_refs st,
                index_without (refkey_of (val_free s) o) (store_hash st),
                store_max st, wrap (store_size st - item_size it)) ∧
        storables c' = released v s (storables c) ∧
        objs c' = dropped k o (objs c) ∧
        finalized c' = finalized c ++ finalizing v s ∧ alloc_lock c' = true.
Proof.
  intros Hl Hst Hit Hv Hk Hs Ho.
  assert (a ∉ l1 ++ l2) as Hn by (apply split_not_in; by eapply lru_NoDup).
  set (c0 := with_store (Some (set_store_size (wrap (store_size st - item_size it)) st)) c).
  assert (lru c0 (l1 ++ a :: l2)) as Hl0.
  { eapply lru_ext; [| | |exact Hl]; subst c0; simpl; rewrite ?Hst; done. }
  destruct (unlink_spec _ _ _ _ Hl0) as (c1 & Hun & Hl1 & Hrel & Ha1 & Hfr).
  destruct Hrel as (Hsto & Hobj & _ & Hfin & Hsr & Hcore).
  assert (evict a c = discard a c1) as Hev.
  { unfold evict. destruct it. exec. }
  destruct (lru_store _ _ Hl1) as [st1 Hst1].
  change (items c0) with (items c) in *. rewrite Hit in Ha1.
  change (storables c0) with (storables c) in Hsto.
  change (objs c0) with (objs c) in Hobj.
  change (finalized c0) with (finalized c) in Hfin.
  rewrite <- Hsto in Hs. rewrite <- Hobj in Ho.
  destruct (discard_exact c1 a it v s k o st1 Ha1 Hv Hk Hs Ho Hst1)
    as (c' & Hrun & Hi' & Hs' & Ho' & Hf' & Hst' & Hlk').
  exists c'. split; [by rewrite Hev|].
  rewrite Hst1 in Hsr. subst c0. simpl in Hsr. injection Hsr as Hr1 Hh1 Hm1 Hz1.
  split.
  { eapply lru_ext; [| | |exact Hl1]; rewrite ?Hst', ?Hst1; try done.
    intros b Hb. rewrite Hi', lookup_delete_ne; [done|]. by intros ->. }
  split; [rewrite Hi'; apply lookup_delete_eq|].
  split; [intros b Hb; by rewrite Hi', lookup_delete_ne, Hcore|].
  split.
  { intros b Hb. rewrite Hi', lookup_delete_ne, Hfr; [done..|]. intros ->. set_solver. }
  split; [rewrite Hst'; unfold store_rest; simpl; by rewrite Hr1, Hh1, Hm1, Hz1|].
  split; [congruence|]. split; [congruence|]. split; [congruence|done].
Qed.

(** [fz_remove_item] is the lookup of [wanted], which also unindexes,
    followed by the removal of the entry. *)
Lemma fz_remove_item_wanted fuel free key c l o st :
  lru c l → sound c l → store c = Some st → objs c !! key = Some o →
  (length l < fuel)%nat →
  fz_remove_item fuel free key c =
    match wanted c l free key with
    | Some item =>
        (unlink item;; release item) (unindexed (refkey_of free o) st (with_lock true c))
    | None => (Done tt, with_lock false c)
    end.
Proof.
  intros Hl Hs Hst Ho Hf.
  unfold wanted. rewrite Ho, Hst.
  destruct o as [r [num gen|content]]; simpl.
  - by rewrite (fz_remove_item_indirect fuel free key c st r num gen).
  - unfold fz_remove_item.
    eapply bind_eq; [exec|]. eapply bind_eq; [exec|]. eapply bind_eq; [exec|].
    eapply bind_eq.
    { unfold lookup_remove. eapply bind_eq; [exec|]. cbv beta.
      destruct Hl as (st' & Hst' & Hhd & Hrest). assert (st' = st) as -> by congruence.
      rewrite Hhd.
      apply (scan_find (with_lock true c) free key (Obj r (Opaque content)) l []);
        [apply lru_with_lock; by exists st|exact Hs|exact Ho|exact Hf]. }
    cbv beta.
    change (matches (with_lock true c) free key) with (matches c free key).
    by destruct (find (matches c free key) l).
Qed.

(** ** Insertion followed by lookup or removal *)



Section AfterInsert.
Context (fuel : nat) (item key v sz : Z) (c c' : fz_context) (l : list Z).
Context (st : fz_store) (o : fz_obj) (s : fz_storable).
Context (Hl : lru c l) (Hsound : sound c l) (Hst : store c = Some st).
Context (Hfresh : items c !! item = None).
Context (Ho : objs c !! key = Some o) (Hs : storables c !! v = Some s).
Context (Hl' : lru c' (item :: l)).
Context (Hitem : items c' !! item = Some (Item (Some key) (Some v) sz (head l) None)).
Context (Hcore : ∀ b, b ≠ item → item_core <$> items c' !! b = item_core <$> items c !! b).
Context (Hsr : store_rest <$> store c' =
                 Some (store_refs st,
                       index_with (refkey_of (val_free s) o) item (store_hash st),
                       store_max st, wrap (store_size st + sz))).
Context (Hsto : storables c' = referenced v s (storables c)).
Context (Hobj : objs c' = <[key := set_obj_refs (obj_refs o + 1) o]> (objs c)).





End AfterInsert.


(** ** When nothing can be evicted *)

Lemma ensure_space_short fuel tofree c l :
  lru c l → sound c l → sized c l →
  evictable_bytes c l < tofree → tofree ≤ UINT_MAX → (length l < fuel)%nat →
  ensure_space fuel tofree c = (Done 0, c).
Proof.
  intros Hl Hs Hz Hlt Hto Hf. pose proof Hl as (st & Hst & _ & Htl & _).
  unfold ensure_space. eapply bind_eq; [exec|]. cbv beta. rewrite Htl.
  eapply bind_eq.
  { apply (ensure_space_check_short c tofree l [] 0 fuel); rewrite ?app_nil_r; try done; lia. }
  done.
Qed.

Lemma scavenge_idle fuel tofree c l :
  lru c l → sound c l → (∀ a, a ∈ l → entry_refs c a ≠ Some 1) →
  (length l < fuel)%nat →
  scavenge fuel tofree c = (Done false, c).
Proof.
  intros Hl Hs Hne Hf. pose proof Hl as (st & Hst & _ & Htl & _).
  unfold scavenge. eapply bind_eq; [exec|]. cbv beta. rewrite Htl.
  eapply bind_eq.
  { apply (scavenge_loop_idle c tofree l [] 0 fuel); rewrite ?app_nil_r; done. }
  done.
Qed.

Lemma phase_max_positive phase smax ssize : 0 < phase_max phase smax ssize → phase < 16.
Proof. unfold phase_max. destruct (Z.leb_spec 16 phase); lia. Qed.

Lemma scavenge_phases_idle inner size c l :
  lru c l → sound c l → (∀ a, a ∈ l → entry_refs c a ≠ Some 1) →
  (length l < inner)%nat →
  ∀ fuel phase, (1 ≤ fuel)%nat → (Z.to_nat (17 - phase) ≤ fuel)%nat →
  ∃ p', scavenge_phases fuel inner size phase c = (Done (false, p'), c) ∧
        phase < p' ≤ Z.max 17 (phase + 1).
Proof.
  intros Hl Hs Hne Hin. destruct (lru_store _ _ Hl) as [st Hst].
  induction fuel as [|fuel IH]; intros phase H1 Hf; [lia|].
  cbn [scavenge_phases].
  set (mx := phase_max phase (store_max st) (store_size st)).
  assert (∃ p', (if 0 <? mx then scavenge_phases fuel inner size (phase + 1)
                 else ret (false, phase + 1)) c = (Done (false, p'), c) ∧
                phase < p' ≤ Z.max 17 (phase + 1)) as (p' & Hrest & Hp).
  { destruct (0 <? mx) eqn:E.
    - apply Z.ltb_lt, phase_max_positive in E.
      destruct (IH (phase + 1)) as (p' & Hrun & Hp); [lia..|].
      exists p'. split; [done|lia].
    - exists (phase + 1). split; [done|lia]. }
  exists p'. split; [|done].
  eapply bind_eq; [exec|]. eapply bind_eq; [exec|]. cbv beta zeta.
  eapply bind_eq; [exec|]. cbv beta. fold mx.
  destruct (phase_tofree size (store_size st) mx) as [tofree|]; [|exact Hrest].
  eapply bind_eq; [by apply (scavenge_idle inner tofree c l)|]. exact Hrest.
Qed.

(** A context that only differs from [c] in the lock and in an item that
    is not linked. *)
Lemma entry_refs_fresh c item x b a :
  a ≠ item →
  entry_refs (with_lock b (with_items (<[item := x]> (items c)) c)) a = entry_refs c a.
Proof. intros Hne. unfold entry_refs. simpl. by rewrite lookup_insert_ne. Qed.

Lemma entry_size_fresh c item x b a :
  a ≠ item →
  entry_size (with_lock b (with_items (<[item := x]> (items c)) c)) a = entry_size c a.
Proof. intros Hne. unfold entry_size. simpl. by rewrite lookup_insert_ne. Qed.

Lemma evictable_bytes_fresh c item x b l :
  item ∉ l →
  evictable_bytes (with_lock b (with_items (<[item := x]> (items c)) c)) l =
    evictable_bytes c l.
Proof.
  induction l as [|a l IH]; intros Hn; simpl; [done|].
  apply not_elem_of_cons in Hn as [Hne Hn].
  rewrite entry_refs_fresh, entry_size_fresh, IH by done. done.
Qed.

Lemma sound_fresh c item x b l :
  item ∉ l → sound c l →
  sound (with_lock b (with_items (<[item := x]> (items c)) c)) l.
Proof.
  intros Hn Hs a Ha. destruct (Hs a Ha) as (it & v & s & k & o & Hit & H).
  exists it, v, s, k, o. split; [|done]. simpl. rewrite lookup_insert_ne; [done|].
  by intros ->.
Qed.

Lemma lru_fresh c item x b l :
  item ∉ l → lru c l →
  lru (with_lock b (with_items (<[item := x]> (items c)) c)) l.
Proof.
  intros Hn Hl. eapply lru_ext; [| | |exact Hl]; simpl; try done.
  intros a Ha. rewrite lookup_insert_ne; [done|]. by intros ->.
Qed.

Lemma with_lock_fresh c item x :
  items c !! item = None →
  with_items (delete item (items (with_lock false
     (with_lock true (with_items (<[item := x]> (items c)) c)))))
     (with_lock false (with_lock true (with_items (<[item := x]> (items c)) c))) =
  with_lock false c.
Proof.
  intros Hn. destruct c. unfold with_items, with_lock. simpl in *.
  f_equal. by apply delete_insert_id.
Qed.

(** [fz_store_item] on a bounded store when the new entry does not fit
    and the entries that could be evicted do not make up for it. *)
Lemma fz_store_item_abandoned fuel item hash_ok key v sz c l st o s :
  lru c l → sound c l → sized c l → store c = Some st →
  items c !! item = None → objs c !! key = Some o → storables c !! v = Some s →
  store_max st ≠ FZ_STORE_UNLIMITED → 0 ≤ store_max st →
  store_max st < store_size st + sz ≤ UINT_MAX →
  evictable_bytes c l < store_size st + sz - store_max st →
  (length l < fuel)%nat →
  fz_store_item fuel (Some item) hash_ok key v sz c = (Done tt, with_lock false c).
Proof.
  intros Hl Hsound Hz Hst Hfresh Ho Hs Hb Hm0 Hover Hev Hf.
  assert (item ∉ l) as Hn.
  { intros H. destruct (lru_allocated _ _ _ Hl H) as [? ?]. congruence. }
  destruct fuel as [|fuel]; [lia|].
  set (x := Item None None 0 None None).
  set (c1 := with_lock true (with_items (<[item := x]> (items c)) c)).
  assert (wrap (store_size st + sz) = store_size st + sz) as Hw1 by (apply wrap_small; lia).
  assert (wrap (store_size st + sz - store_max st) = store_size st + sz - store_max st)
    as Hw2 by (apply wrap_small; lia).
  assert (ensure_space (S fuel) (store_size st + sz - store_max st) c1 = (Done 0, c1)) as Hens.
  { apply (ensure_space_short _ _ c1 l); subst c1.
    - by apply lru_fresh.
    - by apply sound_fresh.
    - intros a Ha. rewrite entry_size_fresh; [by apply Hz|]. by intros ->.
    - by rewrite evictable_bytes_fresh.
    - lia.
    - done. }
  assert (reserve (S fuel) sz c1 = (Done false, c1)) as Hres.
  { unfold reserve. eapply bind_eq; [subst c1; exec|]. cbv beta.
    assert ((store_max st =? FZ_STORE_UNLIMITED) = false) as -> by (by apply Z.eqb_neq).
    cbn [negb]. eapply bind_eq; [subst c1; exec|]. cbv beta. rewrite Hw1.
    cbn [make_room]. eapply bind_eq; [subst c1; exec|]. cbv beta.
    assert ((store_max st <? store_size st + sz) = true) as -> by (apply Z.ltb_lt; lia).
    rewrite Hw2. eapply bind_eq; [exact Hens|]. done. }
  unfold fz_store_item. rewrite Hst. unfold fz_store_item_body.
  assert (∃ rk, form_refkey (is_indirect o) (read_val v val_free) key c = (Done rk, c))
    as [rk Hrk].
  { unfold is_indirect. destruct o as [orf [num gen|content]], s as [sr sf]; simpl;
      eexists; exec. }
  eapply bind_eq; [destruct o; unfold is_indirect in *; exec|].
  eapply bind_eq; [exact Hrk|]. cbv beta.
  eapply bind_eq; [unfold fz_malloc_item; reflexivity|].
  eapply bind_eq; [reflexivity|].
  eapply bind_eq; [exact Hres|]. cbv beta. cbn [negb].
  eapply bind_eq; [reflexivity|].
  unfold fz_free_item. subst c1. simpl. rewrite lookup_insert_eq.
  f_equal. by apply with_lock_fresh.
Qed.

(** ** Clearing the store *)

Lemma wrap_sub_idemp x y : wrap (wrap x - y) = wrap (x - y).
Proof. unfold wrap. by rewrite Zminus_mod_idemp_l. Qed.

Lemma released_other v s h w : w ≠ v → released v s h !! w = h !! w.
Proof.
  intros Hne. unfold released. destruct (0 <? val_refs s); [|done].
  destruct (val_refs s - 1 =? 0).
  - by rewrite lookup_delete_ne.
  - by rewrite lookup_insert_ne.
Qed.

Lemma dropped_other k o h j : j ≠ k → dropped k o h !! j = h !! j.
Proof.
  intros Hne. unfold dropped. destruct (obj_refs o - 1 =? 0).
  - by rewrite lookup_delete_ne.
  - by rewrite lookup_insert_ne.
Qed.

Lemma core_fields (x y : option fz_item) :
  item_core <$> x = item_core <$> y →
  (item_val <$> x = item_val <$> y) ∧ (item_key <$> x = item_key <$> y) ∧
  (item_size <$> x = item_size <$> y).
Proof.
  destruct x as [[]|], y as [[]|]; simpl; try done.
  unfold item_core. simpl. intros [= -> -> ->]. done.
Qed.

Lemma total_bytes_ext c c' l :
  (∀ b, b ∈ l → item_core <$> items c' !! b = item_core <$> items c !! b) →
  total_bytes c' l = total_bytes c l.
Proof.
  induction l as [|a l IH]; intros H; simpl; [done|].
  rewrite IH by (intros b Hb; apply H; by right). f_equal.
  destruct (core_fields _ _ (H a ltac:(left))) as (_ & _ & Hsz).
  unfold entry_size. destruct (items c' !! a), (items c !! a); simpl in Hsz; congruence.
Qed.

Lemma released_same v s h h' : h !! v = h' !! v → released v s h !! v = released v s h' !! v.
Proof.
  intros H. unfold released. destruct (0 <? val_refs s); [|done].
  destruct (val_refs s - 1 =? 0); by rewrite ?lookup_delete_eq, ?lookup_insert_eq.
Qed.

(** The loop of [fz_empty_store] on entries that share neither values
    nor keys. *)
Lemma empty_loop_spec l : ∀ c fuel st,
  lru c l → sound c l → own_values c l → own_keys c l → store c = Some st →
  0 ≤ store_size st ≤ UINT_MAX → (length l < fuel)%nat →
  ∃ c', empty_loop fuel c = (Done tt, c') ∧
        lru c' [] ∧ (∀ a, a ∈ l → items c' !! a = None) ∧
        (∀ b, b ∉ l → items c' !! b = items c !! b) ∧
        (store_refs <$> store c' = Some (store_refs st) ∧
         store_max <$> store c' = Some (store_max st) ∧
         store_size <$> store c' = Some (wrap (store_size st - total_bytes c l))) ∧
        (∀ a it v s, a ∈ l → items c !! a = Some it → item_val it = Some v →
           storables c !! v = Some s → storables c' !! v = released v s (storables c) !! v) ∧
        (∀ w, not_stored c l w → storables c' !! w = storables c !! w).
Proof.
  induction l as [|a l IH]; intros c fuel st Hl Hs Hov Hok Hst Hz Hf.
  - destruct fuel; [simpl in Hf; lia|]. exists c. cbn [empty_loop].
    destruct Hl as (st' & Hst' & Hhd & Hrest). assert (st' = st) as -> by congruence.
    split; [eapply bind_eq; [exec|]; cbv beta; by rewrite Hhd|].
    split; [by exists st|]. split; [intros ? H; inversion H|]. split; [done|].
    split; [rewrite Hst; simpl; rewrite Z.sub_0_r, wrap_small by done; done|].
    split; [intros ? ? ? ? H; inversion H|done].
  - simpl in Hf. destruct fuel as [|fuel]; [lia|].
    destruct (Hs a ltac:(left)) as (it & v & s & k & o & Hit & Hv & Hsv & Hk & Ho).
    destruct (evict_exact c [] a l it v s k o st Hl Hst Hit Hv Hk Hsv Ho)
      as (c1 & Hev & Hl1 & Ha1 & Hcore1 & Hfr1 & Hsr1 & Hsto1 & Hobj1 & _).
    simpl in Hl1.
    assert (a ∉ l) as Hna by (apply lru_NoDup in Hl; by apply NoDup_cons in Hl as [? _]).
    assert (∀ b, b ∈ l → b ≠ a) as Hneq by (intros b Hb ->; done).
    destruct (store c1) as [st1|] eqn:Hst1; [|done]. simpl in Hsr1.
    injection Hsr1 as Hr1 _ Hm1 Hz1.
    assert (∀ b ib, b ∈ l → items c1 !! b = Some ib →
              ∃ ib0, items c !! b = Some ib0 ∧ item_val ib0 = item_val ib ∧
                     item_key ib0 = item_key ib ∧ item_size ib0 = item_size ib) as Hback.
    { intros b ib Hb Hib. pose proof (Hcore1 b (Hneq b Hb)) as Hc. rewrite Hib in Hc.
      destruct (items c !! b) as [ib0|]; [|done]. exists ib0. split; [done|].
      destruct ib, ib0. unfold item_core in Hc. simpl in *. by injection Hc as -> -> ->. }
    assert (∀ b ib w, b ∈ l → items c !! b = Some ib → item_val ib = Some w → w ≠ v)
      as Hvne.
    { intros b ib w Hb Hib Hw ->. apply (Hneq b Hb).
      symmetry. apply (Hov a b it ib v); try done; [left|by right]. }
    assert (∀ b ib j, b ∈ l → items c !! b = Some ib → item_key ib = Some j → j ≠ k)
      as Hkne.
    { intros b ib j Hb Hib Hj ->. apply (Hneq b Hb).
      symmetry. apply (Hok a b it ib k); try done; [left|by right]. }
    assert (sound c1 l) as Hs1.
    { intros b Hb.
      destruct (Hs b ltac:(by right)) as (ib & w & sw & j & oj & Hib & Hw & Hsw & Hj & Hoj).
      pose proof (Hcore1 b (Hneq b Hb)) as Hc. rewrite Hib in Hc.
      destruct (items c1 !! b) as [ib1|] eqn:Hib1; [|done].
      destruct ib, ib1. unfold item_core in Hc. simpl in *. injection Hc as -> -> ->.
      eexists _, w, sw, j, oj. split; [done|]. simpl. split; [done|].
      split; [rewrite Hsto1, released_other; [done|by eapply Hvne]|].
      split; [done|]. rewrite Hobj1, dropped_other; [done|by eapply Hkne]. }
    assert (own_values c1 l) as Hov1.
    { intros x y ix iy w Hx Hy Hix Hiy Hwx Hwy.
      destruct (Hback x ix Hx Hix) as (ix0 & Hix0 & Hvx & _).
      destruct (Hback y iy Hy Hiy) as (iy0 & Hiy0 & Hvy & _).
      apply (Hov x y ix0 iy0 w); try done; try (by right); congruence. }
    assert (own_keys c1 l) as Hok1.
    { intros x y ix iy j Hx Hy Hix Hiy Hjx Hjy.
      destruct (Hback x ix Hx Hix) as (ix0 & Hix0 & _ & Hkx & _).
      destruct (Hback y iy Hy Hiy) as (iy0 & Hiy0 & _ & Hky & _).
      apply (Hok x y ix0 iy0 j); try done; try (by right); congruence. }
    assert (0 ≤ store_size st1 ≤ UINT_MAX) as Hz1'.
    { rewrite Hz1. unfold wrap, UINT_MAX.
      pose proof (Z.mod_pos_bound (store_size st - item_size it) (4294967295 + 1)). lia. }
    destruct (IH c1 fuel st1 Hl1 Hs1 Hov1 Hok1 Hst1 Hz1' ltac:(lia))
      as (c' & Hrun & Hl' & Hgone & Hfr & (Hr' & Hm' & Hsz') & Hrel & Hkeep).
    exists c'. split.
    { cbn [empty_loop]. destruct Hl as (st' & Hst' & Hhd & _).
      assert (st' = st) as -> by congruence. simpl in Hhd.
      eapply bind_eq; [exec|]. cbv beta. rewrite Hhd.
      eapply bind_eq; [exact Hev|]. exact Hrun. }
    split; [done|].
    split.
    { intros x [->|Hx]%elem_of_cons; [|by apply Hgone]. by rewrite Hfr. }
    split.
    { intros b [Hb1 Hb2]%not_elem_of_cons. rewrite Hfr by done. apply Hfr1.
      simpl. by apply not_elem_of_cons. }
    split.
    { split; [congruence|]. split; [congruence|].
      rewrite Hsz', Hz1, wrap_sub_idemp. simpl.
      rewrite (total_bytes_ext c c1 l) by (intros b Hb; by apply Hcore1, Hneq).
      unfold entry_size at 1. rewrite Hit. do 2 f_equal. lia. }
    assert (not_stored c1 l v) as Hnv.
    { intros b ib Hb Hib Hw. destruct (Hback b ib Hb Hib) as (ib0 & Hib0 & Hvb & _).
      apply (Hvne b ib0 v Hb Hib0); congruence. }
    split.
    { intros x ix w sw [->|Hx]%elem_of_cons Hix Hw Hsw.
      - assert (ix = it) as -> by congruence. assert (w = v) as -> by congruence.
        assert (sw = s) as -> by congruence.
        by rewrite (Hkeep v Hnv), Hsto1.
      - pose proof (Hvne x ix w Hx Hix Hw) as Hne.
        pose proof (Hcore1 x (Hneq x Hx)) as Hc. rewrite Hix in Hc.
        destruct (items c1 !! x) as [ix1|] eqn:Hix1; [|done].
        assert (item_val ix1 = Some w) as Hw1.
        { destruct ix, ix1. unfold item_core in Hc. simpl in *. congruence. }
        assert (storables c1 !! w = Some sw) as Hsw1
          by (by rewrite Hsto1, released_other).
        rewrite (Hrel x ix1 w sw Hx Hix1 Hw1 Hsw1).
        apply released_same. by rewrite Hsto1, released_other. }
    intros w Hw.
    assert (w ≠ v) as Hne by (intros ->; by apply (Hw a it ltac:(left) Hit)).
    rewrite Hkeep, Hsto1, released_other; [done..|].
    intros b ib Hb Hib Hwb. destruct (Hback b ib Hb Hib) as (ib0 & Hib0 & Hvb & _).
    apply (Hw b ib0 ltac:(by right) Hib0). congruence.
Qed.

Lemma fz_empty_store_spec fuel c l st :
  lru c l → sound c l → own_values c l → own_keys c l → store c = Some st →
  0 ≤ store_size st ≤ UINT_MAX → (length l < fuel)%nat →
  ∃ c', fz_empty_store fuel c = (Done tt, c') ∧
        lru c' [] ∧ (∀ a, a ∈ l → items c' !! a = None) ∧
        (∀ b, b ∉ l → items c' !! b = items c !! b) ∧
        (store_refs <$> store c' = Some (store_refs st) ∧
         store_max <$> store c' = Some (store_max st) ∧
         store_size <$> store c' = Some (wrap (store_size st - total_bytes c l))) ∧
        (∀ a it v s, a ∈ l → items c !! a = Some it → item_val it = Some v →
           storables c !! v = Some s → storables c' !! v = released v s (storables c) !! v) ∧
        (∀ w, not_stored c l w → storables c' !! w = storables c !! w) ∧
        alloc_lock c' = false.
Proof.
  intros Hl Hs Hov Hok Hst Hz Hf.
  destruct (empty_loop_spec l (with_lock true c) fuel st
              (lru_with_lock _ _ true Hl) Hs Hov Hok Hst Hz Hf) as
    (c1 & Hrun & Hl1 & Hgone & Hfr & Hstore & Hrel & Hkeep).
  exists (with_lock false c1). split.
  { unfold fz_empty_store. rewrite Hst.
    eapply bind_eq; [reflexivity|]. eapply bind_eq; [exact Hrun|]. reflexivity. }
  split; [by apply lru_with_lock|]. done.
Qed.

(** ** The debug listing *)

Lemma incr_decr_insert (h : gmap Z fz_storable) w sw :
  h !! w = Some sw → <[w := decr_refs (incr_refs sw)]> (<[w := incr_refs sw]> h) = h.
Proof. intros H. rewrite insert_insert_eq, decr_incr_refs. by apply insert_id. Qed.

(** One turn of the loop of [fz_debug_store] on an entry that has a
    successor: the successor is pinned and unpinned, and the context is
    as before, with the lock held. *)
Lemma debug_loop_step debug_obj fuel c l1 a n l2 :
  (∀ k c', debug_obj k c' = (Done tt, c')) →
  lru c (l1 ++ a :: n :: l2) → sound c (l1 ++ a :: n :: l2) →
  debug_loop debug_obj (S fuel) (Some a) c =
    debug_loop debug_obj fuel (Some n) (with_lock true c).
Proof.
  intros Hdbg Hl Hs.
  destruct (lru_lookup _ _ _ _ Hl) as (it & Hit & _ & Hn).
  destruct (Hs a) as (it' & v & s & k & o & Hit' & Hv & Hsv & Hk & Ho); [set_solver|].
  assert (it' = it) as -> by congruence.
  destruct (Hs n) as (itn & w & sw & kn & on & Hitn & Hw & Hsw & _); [set_solver|].
  destruct it as [ik iv isz inx ipv], itn as [nk nv nsz nnx npv], s as [sr sf],
    sw as [wr wf], o as [orf okind]. simpl in *. subst.
  set (S1 := <[w := incr_refs (Storable wr wf)]> (storables c)).
  assert (∃ s1, S1 !! v = Some s1) as [s1 Hs1].
  { subst S1. destruct (decide (w = v)) as [->|Hne].
    - rewrite lookup_insert_eq. eauto.
    - rewrite lookup_insert_ne by done. eauto. }
  assert (S1 !! w = Some (incr_refs (Storable wr wf))) as Hw1
    by (subst S1; apply lookup_insert_eq).
  cbn [debug_loop].
  eapply bind_eq; [exec|]. eapply bind_eq; [reflexivity|].
  eapply bind_eq; [exec|]. cbv beta. fold S1.
  eapply bind_eq.
  { unfold read_item_val. eapply bind_eq; [exec|]. eapply bind_eq; [reflexivity|].
    eapply read_val_eq. simpl. exact Hs1. }
  eapply bind_eq; [exec|]. eapply bind_eq; [reflexivity|].
  eapply bind_eq; [exec|]. eapply bind_eq; [reflexivity|].
  eapply bind_eq; [exec|]. cbv beta.
  eapply bind_eq.
  { destruct okind as [num gen|content]; simpl; [exec|apply Hdbg]. }
  eapply bind_eq; [exec|]. eapply bind_eq; [reflexivity|].
  eapply bind_eq; [reflexivity|].
  eapply bind_eq.
  { unfold write_item_val. eapply bind_eq; [exec|]. eapply bind_eq; [reflexivity|].
    eapply write_val_eq. simpl. exact Hw1. }
  cbv beta. f_equal.
  destruct c as [sto its vals os lk fin]. unfold with_lock, with_storables. simpl in *.
  f_equal. subst S1. by apply incr_decr_insert.
Qed.

(** The last entry has no successor, and the loop pins it all the
    same. *)
Lemma debug_loop_last debug_obj fuel c l1 a :
  lru c (l1 ++ [a]) → debug_loop debug_obj (S fuel) (Some a) c = (Fault, c).
Proof.
  intros Hl. destruct (lru_lookup _ _ _ _ Hl) as (it & Hit & _ & Hn). simpl in Hn.
  cbn [debug_loop]. unfold bind, read_item. rewrite Hit, Hn. done.
Qed.

Lemma debug_loop_faults debug_obj l2 : ∀ l1 a fuel c,
  (∀ k c', debug_obj k c' = (Done tt, c')) →
  lru c (l1 ++ a :: l2) → sound c (l1 ++ a :: l2) →
  (length l2 < fuel)%nat →
  ∃ c', debug_loop debug_obj fuel (Some a) c = (Fault, c') ∧
        store c' = store c ∧ items c' = items c ∧
        storables c' = storables c ∧ objs c' = objs c ∧ finalized c' = finalized c.
Proof.
  induction l2 as [|n l2 IH]; intros l1 a fuel c Hdbg Hl Hs Hf.
  - destruct fuel as [|fuel]; [simpl in Hf; lia|].
    exists c. by rewrite (debug_loop_last debug_obj fuel c l1 a Hl).
  - simpl in Hf. destruct fuel as [|fuel]; [lia|].
    rewrite (debug_loop_step debug_obj fuel c l1 a n l2 Hdbg Hl Hs).
    assert (lru (with_lock true c) ((l1 ++ [a]) ++ n :: l2)) as Hl'
      by (rewrite <- app_assoc; by apply lru_with_lock).
    assert (sound (with_lock true c) ((l1 ++ [a]) ++ n :: l2)) as Hs'
      by (by rewrite <- app_assoc).
    destruct (IH (l1 ++ [a]) n fuel (with_lock true c) Hdbg Hl' Hs' ltac:(lia))
      as (c' & Hrun & H).
    by exists c'.
Qed.

(** [fz_debug_store] on a store that holds at least one entry. *)
Lemma fz_debug_store_faults debug_obj fuel c l :
  (∀ k c', debug_obj k c' = (Done tt, c')) →
  lru c l → sound c l → l ≠ [] → (length l ≤ fuel)%nat →
  ∃ c', fz_debug_store debug_obj fuel c = (Fault, c') ∧
        store c' = store c ∧ items c' = items c ∧
        storables c' = storables c ∧ objs c' = objs c ∧ finalized c' = finalized c.
Proof.
  intros Hdbg Hl Hs Hne Hf. destruct l as [|a l]; [done|]. simpl in Hf.
  destruct (debug_loop_faults debug_obj l [] a fuel (with_lock true c) Hdbg
              (lru_with_lock _ _ true Hl) Hs ltac:(lia))
    as (c' & Hrun & H).
  exists c'. split; [|done].
  pose proof Hl as (st & Hst & Hhd & _). simpl in Hhd.
  unfold fz_debug_store. unfold bind at 1. simpl.
  unfold bind at 1, read_store. simpl. rewrite Hst, Hhd.
  unfold bind. by rewrite Hrun.
Qed.

(** On an empty store it lists nothing. *)
Lemma fz_debug_store_empty debug_obj fuel c :
  lru c [] → fz_debug_store debug_obj (S fuel) c = (Done tt, with_lock false c).
Proof.
  intros (st & Hst & Hhd & _). simpl in Hhd.
  unfold fz_debug_store. eapply bind_eq; [reflexivity|]. eapply bind_eq; [exec|].
  cbv beta. rewrite Hhd. reflexivity.
Qed.

(** ** Statements *)

(** ** Lookup and removal *)

(** A lookup that finds nothing returns NULL and leaves the store, the
    list and every count as they are; only the lock has been taken and
    released. *)
Theorem lookup_miss_changes_nothing fuel free key c l o :
  lru c l → sound c l → objs c !! key = Some o →
  wanted c l free key = None → (length l < fuel)%nat →
  fz_find_item fuel free (Some key) c = (Done None, with_lock false c).
Proof.
  intros Hl Hs Ho Hw Hf.
  by rewrite (fz_find_item_wanted fuel free key c l o Hl Hs Ho Hf), Hw.
Qed.

Lemma lookup_miss_changes_nothing_witness :
  (lru pinned_scenario [102; 100] ∧ sound pinned_scenario [102; 100] ∧
   objs pinned_scenario !! 20 = Some (Obj 1 (Opaque 6)) ∧
   wanted pinned_scenario [102; 100] 11 20 = None ∧ (length [102; 100] < 3)%nat) ∧
  fz_find_item 3 11 (Some 20) pinned_scenario = (Done None, with_lock false pinned_scenario).
Proof.
  assert (wanted pinned_scenario [102; 100] 11 20 = None) as Hw by reflexivity.
  assert (length [102; 100] < 3)%nat as Hf by (simpl; lia).
  split; [split; [exact pinned_scenario_lru|split; [exact pinned_scenario_sound|
    split; [reflexivity|split; [exact Hw|exact Hf]]]]|].
  exact (lookup_miss_changes_nothing 3 11 20 pinned_scenario [102; 100] (Obj 1 (Opaque 6))
           pinned_scenario_lru pinned_scenario_sound eq_refl Hw Hf).
Defined.

(** A lookup that finds the entry [a] returns its value, moves [a] to
    the front of the list and gives the caller a reference to the value,
    unless the count of the value is not positive; nothing else
    changes. *)
Theorem lookup_hit_moves_to_front fuel free key c l1 a l2 o it v s :
  lru c (l1 ++ a :: l2) → sound c (l1 ++ a :: l2) → objs c !! key = Some o →
  wanted c (l1 ++ a :: l2) free key = Some a →
  items c !! a = Some it → item_val it = Some v → storables c !! v = Some s →
  val_refs s < INT_MAX → (length (l1 ++ a :: l2) < fuel)%nat →
  ∃ c', fz_find_item fuel free (Some key) c = (Done (Some v), c') ∧
        lru c' (a :: l1 ++ l2) ∧
        storables c' = referenced v s (storables c) ∧
        objs c' = objs c ∧ finalized c' = finalized c ∧ alloc_lock c' = false ∧
        store_rest <$> store c' = store_rest <$> store c ∧
        ∀ b, item_core <$> items c' !! b = item_core <$> items c !! b.
Proof.
  intros Hl Hs Ho Hw Hit Hv Hst _ Hf.
  rewrite (fz_find_item_wanted fuel free key c _ o Hl Hs Ho Hf), Hw.
  apply (touch_spec (with_lock true c) l1 a l2 it v s); try done.
Qed.

Lemma lookup_hit_moves_to_front_witness :
  (lru pinned_scenario ([102] ++ 100 :: []) ∧ sound pinned_scenario ([102] ++ 100 :: []) ∧
   wanted pinned_scenario ([102] ++ 100 :: []) 11 10 = Some 100) ∧
  ∃ c', fz_find_item 3 11 (Some 10) pinned_scenario = (Done (Some 1), c') ∧
        lru c' [100; 102] ∧
        storables c' !! 1 = Some (Storable 2 11).
Proof.
  assert (wanted pinned_scenario ([102] ++ 100 :: []) 11 10 = Some 100) as Hw by reflexivity.
  split; [split; [exact pinned_scenario_lru|split; [exact pinned_scenario_sound|exact Hw]]|].
  destruct (lookup_hit_moves_to_front 3 11 10 pinned_scenario [102] 100 []
              (Obj 2 (Opaque 5)) (Item (Some 10) (Some 1) 60 None (Some 102)) 1
              (Storable 1 11) pinned_scenario_lru pinned_scenario_sound
              eq_refl Hw eq_refl eq_refl eq_refl ltac:(unfold INT_MAX; simpl; lia)
              ltac:(simpl; lia))
    as (c' & Hrun & Hl & Hsto & _).
  exists c'. split; [exact Hrun|]. split; [exact Hl|]. rewrite Hsto. reflexivity.
Defined.

(** A removal that finds nothing leaves everything as it is. *)
Theorem remove_miss_changes_nothing fuel free key c l o :
  lru c l → sound c l → objs c !! key = Some o →
  wanted c l free key = None → (length l < fuel)%nat →
  fz_remove_item fuel free key c = (Done tt, with_lock false c).
Proof.
  intros Hl Hs Ho Hw Hf. destruct (lru_store _ _ Hl) as [st Hst].
  by rewrite (fz_remove_item_wanted fuel free key c l o st Hl Hs Hst Ho Hf), Hw.
Qed.

Lemma remove_miss_changes_nothing_witness :
  (lru pinned_scenario [102; 100] ∧ sound pinned_scenario [102; 100] ∧
   objs pinned_scenario !! 20 = Some (Obj 1 (Opaque 6)) ∧
   wanted pinned_scenario [102; 100] 11 20 = None ∧ (length [102; 100] < 3)%nat) ∧
  fz_remove_item 3 11 20 pinned_scenario = (Done tt, with_lock false pinned_scenario).
Proof.
  assert (wanted pinned_scenario [102; 100] 11 20 = None) as Hw by reflexivity.
  assert (length [102; 100] < 3)%nat as Hf by (simpl; lia).
  split; [split; [exact pinned_scenario_lru|split; [exact pinned_scenario_sound|
    split; [reflexivity|split; [exact Hw|exact Hf]]]]|].
  exact (remove_miss_changes_nothing 3 11 20 pinned_scenario [102; 100] (Obj 1 (Opaque 6))
           pinned_scenario_lru pinned_scenario_sound eq_refl Hw Hf).
Defined.

(** A removal that finds the entry [a] takes it out of the list and, for
    an indirect key, out of the hash table, gives up the store's
    reference to the value, calling the destructor with the lock released
    if it was the last one, drops the key and frees the item.  The other
    entries keep their key, value and size, and [store->size] is not
    written. *)
Theorem remove_hit_releases_entry fuel free key c l1 a l2 st o it v s k ok :
  lru c (l1 ++ a :: l2) → sound c (l1 ++ a :: l2) →
  store c = Some st → objs c !! key = Some o →
  wanted c (l1 ++ a :: l2) free key = Some a →
  items c !! a = Some it → item_val it = Some v → item_key it = Some k →
  storables c !! v = Some s → objs c !! k = Some ok → INT_MIN < obj_refs ok →
  (length (l1 ++ a :: l2) < fuel)%nat →
  ∃ c', fz_remove_item fuel free key c = (Done tt, c') ∧
        lru c' (l1 ++ l2) ∧ items c' !! a = None ∧
        (∀ b, b ≠ a → item_core <$> items c' !! b = item_core <$> items c !! b) ∧
        store_rest <$> store c' =
          Some (store_refs st, index_without (refkey_of free o) (store_hash st),
                store_max st, store_size st) ∧
        storables c' = released v s (storables c) ∧
        objs c' = dropped k ok (objs c) ∧
        finalized c' = finalized c ++ finalizing v s ∧ alloc_lock c' = false.
Proof.
  intros Hl Hs Hst Ho Hw Hit Hv Hk Hsv Hok _ Hf.
  rewrite (fz_remove_item_wanted fuel free key c _ o st Hl Hs Hst Ho Hf), Hw.
  set (c1 := unindexed (refkey_of free o) st (with_lock true c)).
  assert (items c1 = items c ∧ storables c1 = storables c ∧ objs c1 = objs c ∧
          finalized c1 = finalized c ∧
          store_rest <$> store c1 =
            Some (store_refs st, index_without (refkey_of free o) (store_hash st),
                  store_max st, store_size st) ∧
          lru c1 (l1 ++ a :: l2)) as (Hi1 & Hs1 & Ho1 & Hf1 & Hr1 & Hl1).
  { subst c1. destruct (refkey_of free o) as [rk|]; simpl; rewrite ?Hst;
      (repeat split; try done); eapply lru_ext; [| | |exact Hl]; simpl; rewrite ?Hst; done. }
  destruct (remove_entry_spec c1 l1 a l2 it v s k ok Hl1) as
    (c' & Hrun & Hl' & Ha' & Hcore & _ & Hsr & Hsto & Hobj & Hfin & Hlk); try congruence.
  exists c'. split; [done|]. split; [done|]. split; [done|].
  split; [intros b Hb; by rewrite Hcore, Hi1|].
  split; [by rewrite Hsr|]. split; [congruence|]. split; [congruence|].
  split; [congruence|done].
Qed.

Lemma remove_hit_releases_entry_witness :
  (lru pinned_scenario ([102] ++ 100 :: []) ∧ sound pinned_scenario ([102] ++ 100 :: []) ∧
   wanted pinned_scenario ([102] ++ 100 :: []) 11 10 = Some 100) ∧
  ∃ c', fz_remove_item 3 11 10 pinned_scenario = (Done tt, c') ∧
        lru c' [102] ∧ items c' !! 100 = None ∧
        storables c' !! 1 = None ∧ finalized c' = [(1, false)] ∧
        store_size <$> store c' = Some 70.
Proof.
  assert (wanted pinned_scenario ([102] ++ 100 :: []) 11 10 = Some 100) as Hw by reflexivity.
  split; [split; [exact pinned_scenario_lru|split; [exact pinned_scenario_sound|exact Hw]]|].
  destruct (remove_hit_releases_entry 3 11 10 pinned_scenario [102] 100 []
              (Store 1 (Some 102) (Some 100) ∅ 100 70)
              (Obj 2 (Opaque 5)) (Item (Some 10) (Some 1) 60 None (Some 102)) 1
              (Storable 1 11) 10 (Obj 2 (Opaque 5))
              pinned_scenario_lru pinned_scenario_sound
              eq_refl eq_refl Hw eq_refl eq_refl eq_refl eq_refl eq_refl
              ltac:(unfold INT_MIN; simpl; lia) ltac:(simpl; lia))
    as (c' & Hrun & Hl & Ha & _ & Hsr & Hsto & _ & Hfin & _).
  exists c'. split; [exact Hrun|]. split; [exact Hl|]. split; [exact Ha|].
  split; [rewrite Hsto; reflexivity|]. split; [rewrite Hfin; reflexivity|].
  destruct (store c') as [st'|]; [|discriminate Hsr].
  injection Hsr as _ _ _ Hz. simpl. by rewrite Hz.
Defined.

(** ** Insertion and eviction *)

(** An insertion for which there is room, and in which nothing throws,
    puts the new item at the head of the list with the key, the value
    and the size it was given, indexes it if the key is indirect, adds
    the size to [store->size], and takes one reference to the key and,
    unless its count is not positive, one to the value.  Nothing is
    evicted and the other entries keep their key, value and size. *)
Theorem insert_with_room_links_item fuel item key v sz c l st o s :
  lru c l → store c = Some st →
  items c !! item = None → objs c !! key = Some o → storables c !! v = Some s →
  val_refs s < INT_MAX → obj_refs o < INT_MAX → has_room st sz →
  ∃ c', fz_store_item (S fuel) (Some item) true key v sz c = (Done tt, c') ∧
        lru c' (item :: l) ∧
        items c' !! item = Some (Item (Some key) (Some v) sz (head l) None) ∧
        (∀ b, b ≠ item → item_core <$> items c' !! b = item_core <$> items c !! b) ∧
        (∀ b, b ∉ item :: l → items c' !! b = items c !! b) ∧
        store_rest <$> store c' =
          Some (store_refs st,
                index_with (refkey_of (val_free s) o) item (store_hash st),
                store_max st, wrap (store_size st + sz)) ∧
        storables c' = referenced v s (storables c) ∧
        objs c' = <[key := set_obj_refs (obj_refs o + 1) o]> (objs c) ∧
        finalized c' = finalized c ∧ alloc_lock c' = false.
Proof. intros Hl Hst Hit Ho Hs _ _ Hroom. by eapply fz_store_item_exact. Qed.

Lemma insert_with_room_links_item_witness :
  (lru capacity_scenario [100] ∧ items capacity_scenario !! 102 = None ∧
   has_room (Store 1 (Some 100) (Some 100) ∅ 100 60) 10) ∧
  ∃ c', fz_store_item 1 (Some 102) true 30 3 10 capacity_scenario = (Done tt, c') ∧
        lru c' [102; 100] ∧
        items c' !! 102 = Some (Item (Some 30) (Some 3) 10 (Some 100) None) ∧
        store_size <$> store c' = Some 70.
Proof.
  assert (lru capacity_scenario [100]) as Hl.
  { eexists. split; [reflexivity|]. split; [reflexivity|]. split; [reflexivity|].
    split; [apply NoDup_singleton|].
    eexists. split; [reflexivity|]. split; [reflexivity|]. split; [reflexivity|exact I]. }
  assert (has_room (Store 1 (Some 100) (Some 100) ∅ 100 60) 10) as Hr
    by (right; vm_compute; discriminate).
  split; [split; [exact Hl|split; [reflexivity|exact Hr]]|].
  destruct (insert_with_room_links_item 0 102 30 3 10 capacity_scenario [100]
              (Store 1 (Some 100) (Some 100) ∅ 100 60) (Obj 1 (Opaque 7)) (Storable 1 11)
              Hl eq_refl eq_refl eq_refl eq_refl
              ltac:(unfold INT_MAX; simpl; lia) ltac:(unfold INT_MAX; simpl; lia) Hr)
    as (c' & Hrun & Hl' & Hit & _ & _ & Hsr & _).
  exists c'. split; [exact Hrun|]. split; [exact Hl'|]. split; [exact Hit|].
  destruct (store c') as [st'|]; [|discriminate Hsr].
  injection Hsr as _ _ _ Hz. simpl. by rewrite Hz.
Defined.

(** [evict] takes the entry out of the list, subtracts its size from
    [store->size], unindexes it under the destructor of its own value if
    its key is indirect, gives up the store's reference to the value,
    calling the destructor with the lock released if it was the last
    one, drops the key, frees the item and returns with the lock held.
    The other entries keep their key, value and size. *)
Theorem evict_releases_entry c l1 a l2 it v s k o st :
  lru c (l1 ++ a :: l2) → store c = Some st →
  items c !! a = Some it → item_val it = Some v → item_key it = Some k →
  storables c !! v = Some s → objs c !! k = Some o → INT_MIN < obj_refs o →
  ∃ c', evict a c = (Done tt, c') ∧
        lru c' (l1 ++ l2) ∧ items c' !! a = None ∧
        (∀ b, b ≠ a → item_core <$> items c' !! b = item_core <$> items c !! b) ∧
        (∀ b, b ∉ l1 ++ a :: l2 → items c' !! b = items c !! b) ∧
        store_rest <$> store c' =
          Some (store_refs st,
                index_without (refkey_of (val_free s) o) (store_hash st),
                store_max st, wrap (store_size st - item_size it)) ∧
        storables c' = released v s (storables c) ∧
        objs c' = dropped k o (objs c) ∧
        finalized c' = finalized c ++ finalizing v s ∧ alloc_lock c' = true.
Proof. intros Hl Hst Hit Hv Hk Hs Ho _. by eapply evict_exact. Qed.

Lemma evict_releases_entry_witness :
  lru pinned_scenario ([102] ++ 100 :: []) ∧
  ∃ c', evict 100 pinned_scenario = (Done tt, c') ∧
        lru c' [102] ∧ items c' !! 100 = None ∧
        storables c' !! 1 = None ∧ finalized c' = [(1, false)] ∧
        store_size <$> store c' = Some 10.
Proof.
  split; [exact pinned_scenario_lru|].
  destruct (evict_releases_entry pinned_scenario [102] 100 []
              (Item (Some 10) (Some 1) 60 None (Some 102)) 1 (Storable 1 11) 10
              (Obj 2 (Opaque 5)) (Store 1 (Some 102) (Some 100) ∅ 100 70)
              pinned_scenario_lru eq_refl eq_refl eq_refl eq_refl eq_refl eq_refl
              ltac:(unfold INT_MIN; simpl; lia))
    as (c' & Hrun & Hl & Ha & _ & _ & Hsr & Hsto & _ & Hfin & _).
  exists c'. split; [exact Hrun|]. split; [exact Hl|]. split; [exact Ha|].
  split; [rewrite Hsto; reflexivity|]. split; [rewrite Hfin; reflexivity|].
  destruct (store c') as [st'|]; [|discriminate Hsr].
  injection Hsr as _ _ _ Hz. simpl. by rewrite Hz.
Defined.

(** ** Round trips *)








(** ** When nothing can be evicted *)

Lemma pinned_scenario_sized : sized pinned_scenario [102; 100].
Proof.
  intros a [->|[->|Ha%elem_of_nil]%elem_of_cons]%elem_of_cons; [| |done];
    vm_compute; split; discriminate.
Qed.

(** [ensure_space] evicts nothing unless it can reach its target: when
    the entries that only the store references hold fewer than [tofree]
    bytes, it returns 0 and the context is as before. *)
Theorem ensure_space_all_or_nothing fuel tofree c l :
  lru c l → sound c l → sized c l →
  evictable_bytes c l < tofree → tofree ≤ UINT_MAX → (length l < fuel)%nat →
  ensure_space fuel tofree c = (Done 0, c).
Proof. apply ensure_space_short. Qed.

Lemma ensure_space_all_or_nothing_witness :
  (lru pinned_scenario [102; 100] ∧ sound pinned_scenario [102; 100] ∧
   sized pinned_scenario [102; 100] ∧ evictable_bytes pinned_scenario [102; 100] < 61 ∧
   61 ≤ UINT_MAX ∧ (length [102; 100] < 3)%nat) ∧
  ensure_space 3 61 pinned_scenario = (Done 0, pinned_scenario).
Proof.
  assert (evictable_bytes pinned_scenario [102; 100] < 61) as Hlt by (vm_compute; reflexivity).
  assert (61 ≤ UINT_MAX) as Hto by (vm_compute; discriminate).
  assert (length [102; 100] < 3)%nat as Hf by (simpl; lia).
  split; [split; [exact pinned_scenario_lru|split; [exact pinned_scenario_sound|
    split; [exact pinned_scenario_sized|split; [exact Hlt|split; [exact Hto|exact Hf]]]]]|].
  exact (ensure_space_all_or_nothing 3 61 pinned_scenario [102; 100]
           pinned_scenario_lru pinned_scenario_sound pinned_scenario_sized Hlt Hto Hf).
Defined.

(** An insertion into a bounded store that does not fit, when the
    entries that could be evicted do not make up for the excess, is
    given up: the new item is freed again, nothing is evicted, and the
    store, the list and every count are as before the call. *)
Theorem insert_without_room_is_abandoned fuel item hash_ok key v sz c l st o s :
  lru c l → sound c l → sized c l → store c = Some st →
  items c !! item = None → objs c !! key = Some o → storables c !! v = Some s →
  store_max st ≠ FZ_STORE_UNLIMITED → 0 ≤ store_max st →
  store_max st < store_size st + sz ≤ UINT_MAX →
  evictable_bytes c l < store_size st + sz - store_max st →
  (length l < fuel)%nat →
  fz_store_item fuel (Some item) hash_ok key v sz c = (Done tt, with_lock false c).
Proof. apply fz_store_item_abandoned. Qed.

Lemma insert_without_room_is_abandoned_witness :
  (lru pinned_scenario [102; 100] ∧ sound pinned_scenario [102; 100] ∧
   sized pinned_scenario [102; 100] ∧ items pinned_scenario !! 103 = None ∧
   100 ≠ FZ_STORE_UNLIMITED ∧ 100 < 70 + 100 ≤ UINT_MAX ∧
   evictable_bytes pinned_scenario [102; 100] < 70 + 100 - 100) ∧
  fz_store_item 3 (Some 103) true 20 2 100 pinned_scenario =
    (Done tt, with_lock false pinned_scenario).
Proof.
  assert (100 ≠ FZ_STORE_UNLIMITED) as Hb by (vm_compute; discriminate).
  assert (100 < 70 + 100 ≤ UINT_MAX) as Hover by (unfold UINT_MAX; lia).
  assert (evictable_bytes pinned_scenario [102; 100] < 70 + 100 - 100) as Hev
    by (vm_compute; reflexivity).
  split; [split; [exact pinned_scenario_lru|split; [exact pinned_scenario_sound|
    split; [exact pinned_scenario_sized|split; [reflexivity|split; [exact Hb|
    split; [exact Hover|exact Hev]]]]]]|].
  exact (insert_without_room_is_abandoned 3 103 true 20 2 100 pinned_scenario [102; 100]
           (Store 1 (Some 102) (Some 100) ∅ 100 70) (Obj 1 (Opaque 6)) (Storable 1 11)
           pinned_scenario_lru pinned_scenario_sound pinned_scenario_sized
           eq_refl eq_refl eq_refl eq_refl Hb ltac:(simpl; lia) Hover Hev ltac:(simpl; lia)).
Defined.

Lemma held_scenario_lru : lru held_scenario [100].
Proof.
  eexists. split; [reflexivity|]. split; [reflexivity|]. split; [reflexivity|].
  split; [apply NoDup_singleton|].
  eexists. split; [reflexivity|]. split; [reflexivity|]. split; [reflexivity|exact I].
Qed.

Lemma held_scenario_sound : sound held_scenario [100].
Proof.
  intros a [->|Ha%elem_of_nil]%elem_of_cons; [|done].
  exists (Item (Some 10) (Some 1) 60 None None), 1, (Storable 2 11), 10, (Obj 2 (Opaque 5)).
  by vm_compute.
Qed.

Lemma held_scenario_idle a : a ∈ [100] → entry_refs held_scenario a ≠ Some 1.
Proof. intros [->|Ha%elem_of_nil]%elem_of_cons; [|done]. by vm_compute. Qed.

(** When no entry is referenced by the store alone, [fz_store_scavenge]
    evicts nothing: it returns 0 with the context as it was, after at
    most as many phases as are left up to phase 16, and [*phase] has
    advanced. *)
Theorem scavenge_with_nothing_evictable fuel size phase c l :
  lru c l → sound c l → (∀ a, a ∈ l → entry_refs c a ≠ Some 1) →
  0 ≤ phase < INT_MAX →
  (length l < fuel)%nat → (Z.to_nat (17 - phase) ≤ fuel)%nat →
  ∃ p', fz_store_scavenge fuel size phase c = (Done (false, p'), c) ∧
        phase < p' ≤ Z.max 17 (phase + 1).
Proof.
  intros Hl Hs Hne _ Hf Hp. destruct (lru_store _ _ Hl) as [st Hst].
  unfold fz_store_scavenge. rewrite Hst.
  apply (scavenge_phases_idle fuel size c l); try done. lia.
Qed.

Lemma scavenge_with_nothing_evictable_witness :
  (lru held_scenario [100] ∧ sound held_scenario [100] ∧
   (length [100] < 17)%nat ∧ (Z.to_nat (17 - 0) ≤ 17)%nat) ∧
  ∃ p', fz_store_scavenge 17 50 0 held_scenario = (Done (false, p'), held_scenario) ∧
        0 < p' ≤ Z.max 17 (0 + 1).
Proof.
  assert (length [100] < 17)%nat as Hf by (simpl; lia).
  assert (Z.to_nat (17 - 0) ≤ 17)%nat as Hp by (simpl; lia).
  split; [split; [exact held_scenario_lru|split; [exact held_scenario_sound|
    split; [exact Hf|exact Hp]]]|].
  exact (scavenge_with_nothing_evictable 17 50 0 held_scenario [100]
           held_scenario_lru held_scenario_sound held_scenario_idle
           ltac:(unfold INT_MAX; lia) Hf Hp).
Defined.

(** ** Clearing and tearing down *)

Lemma pinned_scenario_own_values : own_values pinned_scenario [102; 100].
Proof.
  intros a b ia ib v Ha Hb Hia Hib Hva Hvb.
  apply elem_of_cons in Ha as [->|[->|Ha%elem_of_nil]%elem_of_cons]; [| |done];
    apply elem_of_cons in Hb as [->|[->|Hb%elem_of_nil]%elem_of_cons]; try done;
    vm_compute in Hia, Hib; injection Hia as <-; injection Hib as <-; simpl in *; congruence.
Qed.

Lemma pinned_scenario_own_keys : own_keys pinned_scenario [102; 100].
Proof.
  intros a b ia ib v Ha Hb Hia Hib Hva Hvb.
  apply elem_of_cons in Ha as [->|[->|Ha%elem_of_nil]%elem_of_cons]; [| |done];
    apply elem_of_cons in Hb as [->|[->|Hb%elem_of_nil]%elem_of_cons]; try done;
    vm_compute in Hia, Hib; injection Hia as <-; injection Hib as <-; simpl in *; congruence.
Qed.

(** [fz_empty_store], when no two entries share a value or a key object,
    evicts every entry: the list ends empty, every item is freed,
    [store->size] goes down by the bytes of the entries, every stored
    value loses the reference of the store (and is finalized if it was
    the last), and no other storable is touched. *)
Theorem clear_releases_every_entry fuel c l st :
  lru c l → sound c l → own_values c l → own_keys c l → store c = Some st →
  0 ≤ store_size st ≤ UINT_MAX → (length l < fuel)%nat →
  ∃ c', fz_empty_store fuel c = (Done tt, c') ∧
        lru c' [] ∧ (∀ a, a ∈ l → items c' !! a = None) ∧
        (∀ b, b ∉ l → items c' !! b = items c !! b) ∧
        (store_refs <$> store c' = Some (store_refs st) ∧
         store_max <$> store c' = Some (store_max st) ∧
         store_size <$> store c' = Some (wrap (store_size st - total_bytes c l))) ∧
        (∀ a it v s, a ∈ l → items c !! a = Some it → item_val it = Some v →
           storables c !! v = Some s → storables c' !! v = released v s (storables c) !! v) ∧
        (∀ w, not_stored c l w → storables c' !! w = storables c !! w) ∧
        alloc_lock c' = false.
Proof. apply fz_empty_store_spec. Qed.

Lemma clear_releases_every_entry_witness :
  (lru pinned_scenario [102; 100] ∧ sound pinned_scenario [102; 100] ∧
   own_values pinned_scenario [102; 100] ∧ own_keys pinned_scenario [102; 100] ∧
   0 ≤ 70 ≤ UINT_MAX ∧ (length [102; 100] < 3)%nat) ∧
  ∃ c', fz_empty_store 3 pinned_scenario = (Done tt, c') ∧
        lru c' [] ∧ items c' !! 100 = None ∧ items c' !! 102 = None ∧
        store_size <$> store c' = Some 0.
Proof.
  assert (0 ≤ 70 ≤ UINT_MAX) as Hz by (unfold UINT_MAX; lia).
  assert (length [102; 100] < 3)%nat as Hf by (simpl; lia).
  split; [split; [exact pinned_scenario_lru|split; [exact pinned_scenario_sound|
    split; [exact pinned_scenario_own_values|split; [exact pinned_scenario_own_keys|
    split; [exact Hz|exact Hf]]]]]|].
  destruct (clear_releases_every_entry 3 pinned_scenario [102; 100]
              (Store 1 (Some 102) (Some 100) ∅ 100 70)
              pinned_scenario_lru pinned_scenario_sound pinned_scenario_own_values
              pinned_scenario_own_keys eq_refl Hz Hf)
    as (c' & Hrun & Hl & Hgone & _ & (_ & _ & Hsz) & _).
  exists c'. split; [exact Hrun|]. split; [exact Hl|].
  split; [apply Hgone, list_elem_of_further, list_elem_of_here|].
  split; [apply Hgone, list_elem_of_here|].
  rewrite Hsz. vm_compute. reflexivity.
Defined.

(** [fz_store_keep] followed by [fz_free_store_context] leaves the
    store with the count it had and evicts nothing. *)
Theorem store_keep_then_free fuel c st :
  store c = Some st → store_refs st ≠ 0 → store_refs st < INT_MAX →
  (fz_store_keep;; fz_free_store_context fuel) c = (Done tt, with_lock false c).
Proof.
  intros Hst Hr _. destruct c as [sto its vals os lk fin], st as [r hd tl hs mx sz].
  simpl in *. subst sto.
  assert ((r + 1 - 1 =? 0) = false) as E by (apply Z.eqb_neq; lia).
  eapply bind_eq; [unfold fz_store_keep; simpl; exec|]. cbv beta.
  unfold fz_free_store_context. simpl.
  eapply bind_eq; [reflexivity|]. eapply bind_eq; [exec|]. eapply bind_eq; [exec|].
  eapply bind_eq; [reflexivity|]. cbv beta. simpl. rewrite E. simpl.
  unfold ret, with_lock, set_store_refs. simpl. do 4 f_equal. lia.
Qed.

Lemma store_keep_then_free_witness :
  (store pinned_scenario = Some (Store 1 (Some 102) (Some 100) ∅ 100 70) ∧ 1 ≠ 0) ∧
  (fz_store_keep;; fz_free_store_context 3) pinned_scenario =
    (Done tt, with_lock false pinned_scenario).
Proof.
  assert (1 ≠ 0) as Hne by lia.
  split; [split; [reflexivity|exact Hne]|].
  exact (store_keep_then_free 3 pinned_scenario (Store 1 (Some 102) (Some 100) ∅ 100 70)
           eq_refl Hne ltac:(unfold INT_MAX; simpl; lia)).
Defined.



(** ** Edge cases *)

(** [fz_debug_store] lists an empty store, and on any other store it
    never returns: it pins the successor of every entry without testing
    it, so that at the last entry it dereferences NULL.  The counts it
    has bumped on the way are back to what they were. *)
Theorem debug_listing_faults_at_last_entry debug_obj fuel c l :
  (∀ k c', debug_obj k c' = (Done tt, c')) →
  lru c l → sound c l →
  (∀ a r, a ∈ l → entry_refs c a = Some r → r < INT_MAX) →
  (length l ≤ fuel)%nat →
  (l = [] → fz_debug_store debug_obj (S fuel) c = (Done tt, with_lock false c)) ∧
  (l ≠ [] →
   ∃ c', fz_debug_store debug_obj fuel c = (Fault, c') ∧
         store c' = store c ∧ items c' = items c ∧
         storables c' = storables c ∧ objs c' = objs c ∧ finalized c' = finalized c).
Proof.
  intros Hdbg Hl Hs _ Hf. split.
  - intros ->. by apply fz_debug_store_empty.
  - intros Hne. by apply (fz_debug_store_faults debug_obj fuel c l).
Qed.

Lemma debug_listing_faults_at_last_entry_witness :
  (lru pinned_scenario [102; 100] ∧ sound pinned_scenario [102; 100] ∧
   (length [102; 100] ≤ 2)%nat) ∧
  ∃ c', fz_debug_store (λ _, ret tt) 2 pinned_scenario = (Fault, c') ∧
        storables c' = storables pinned_scenario.
Proof.
  assert (length [102; 100] ≤ 2)%nat as Hf by (simpl; lia).
  assert (∀ a r, a ∈ [102; 100] → entry_refs pinned_scenario a = Some r → r < INT_MAX) as Hr.
  { intros a r Ha Hr.
    apply elem_of_cons in Ha as [->|Ha]; [|apply elem_of_cons in Ha as [->|Ha]].
    - vm_compute in Hr. injection Hr as <-. unfold INT_MAX. lia.
    - vm_compute in Hr. injection Hr as <-. unfold INT_MAX. lia.
    - by apply elem_of_nil in Ha. }
  split; [split; [exact pinned_scenario_lru|split; [exact pinned_scenario_sound|exact Hf]]|].
  destruct (debug_listing_faults_at_last_entry (λ _, ret tt) 2 pinned_scenario [102; 100]
              (λ _ _, eq_refl) pinned_scenario_lru pinned_scenario_sound Hr Hf)
    as [_ Hfault].
  destruct (Hfault ltac:(discriminate)) as (c' & Hrun & _ & _ & Hsto & _).
  exists c'. split; [exact Hrun|exact Hsto].
Defined.

(** Without a store, [fz_store_item], [fz_find_item], [fz_empty_store],
    [fz_store_scavenge], [fz_store_keep] and [fz_free_store_context]
    return at once and leave the context alone; [fz_remove_item], which
    does not test [ctx->store], dereferences NULL. *)
Theorem only_removal_needs_a_store fuel c key o :
  store c = None → objs c !! key = Some o →
  (∀ alloc hash_ok v sz, fz_store_item fuel alloc hash_ok key v sz c = (Done tt, c)) ∧
  (∀ free, fz_find_item fuel free (Some key) c = (Done None, c)) ∧
  fz_empty_store fuel c = (Done tt, c) ∧
  (∀ size phase, fz_store_scavenge fuel size phase c = (Done (false, phase), c)) ∧
  fz_store_keep c = (Done false, c) ∧
  fz_free_store_context fuel c = (Done tt, c) ∧
  (∀ free, fz_remove_item fuel free key c = (Fault, with_lock true c)).
Proof.
  intros Hst Ho.
  split; [intros; unfold fz_store_item; by rewrite Hst|].
  split; [intros; unfold fz_find_item; by rewrite Hst|].
  split; [unfold fz_empty_store; by rewrite Hst|].
  split; [intros; unfold fz_store_scavenge; by rewrite Hst|].
  split; [unfold fz_store_keep; by rewrite Hst|].
  split; [unfold fz_free_store_context; by rewrite Hst|].
  intros free. unfold fz_remove_item.
  destruct o as [r [num gen|content]].
  - eapply bind_eq; [exec|]. eapply bind_eq; [exec|]. eapply bind_eq; [reflexivity|].
    cbv beta. unfold lookup_remove, fz_hash_find, bind, read_store. simpl. by rewrite Hst.
  - eapply bind_eq; [exec|]. eapply bind_eq; [exec|]. eapply bind_eq; [reflexivity|].
    cbv beta. unfold lookup_remove, bind, read_store. simpl. by rewrite Hst.
Qed.

Lemma only_removal_needs_a_store_witness :
  (store plain_heap = None ∧ objs plain_heap !! 10 = Some (Obj 1 (Opaque 5))) ∧
  fz_find_item 3 11 (Some 10) plain_heap = (Done None, plain_heap) ∧
  fz_remove_item 3 11 10 plain_heap = (Fault, with_lock true plain_heap).
Proof.
  split; [split; reflexivity|].
  destruct (only_removal_needs_a_store 3 plain_heap 10 (Obj 1 (Opaque 5)) eq_refl eq_refl)
    as (_ & Hfind & _ & _ & _ & _ & Hrem).
  split; [exact (Hfind 11)|exact (Hrem 11)].
Defined.
